(* ===================================================================== *)
(* request-queue: a single-flight request dispatcher.

   src/request-queue.js   class RequestQueue
   src/unnamed/part_000   an earlier copy of the class, without the pause
                          between two sends (module Legacy below), after
                          the demo that drives it

   The class is embedded as functions over an explicit state, the record
   World: the fields of `this`, what the class has put into the JavaScript
   event loop (armed timers, the promise chain of each admitted request)
   and the logs of what can be observed from outside (envelopes built,
   transport invocations, notifications, console output).  One input of
   the event loop at a time is applied by `step`.

   Part I holds the definitions, part II the lemmas, part III the claims
   of the specification, part IV further properties of the code.          *)
(* ===================================================================== *)

From stdpp Require Import gmap strings list fin_maps pretty.
From Stdlib Require Import ZArith Lia.

Local Open Scope string_scope.
Local Open Scope list_scope.
Local Open Scope Z_scope.

Set Warnings "-register-all".

(* ===================================================================== *)
(* Part I.  Definitions                                                   *)
(* ===================================================================== *)

(* --------------------------------------------------------------------- *)
(* JavaScript values                                                     *)
(* --------------------------------------------------------------------- *)

(** The values that flow through the dispatcher: request payloads, transport
    results, rejection reasons.  They are data: an object is the list of its
    own properties, each holding a value, and inherits from Object.prototype;
    [VError] is an instance of Error.  Numbers are the integers (ids are
    small integers; IEEE doubles are exact on them up to 2^53). *)
Inductive JsVal :=
| VUndefined
| VNull
| VBool (b : bool)
| VNum (n : Z)
| VStr (s : string)
| VError (message : string)
| VObj (props : list (string * JsVal)).

Fixpoint own (name : string) (props : list (string * JsVal)) : option JsVal :=
  match props with
  | [] => None
  | (k, v) :: rest => if String.eqb k name then Some v else own name rest
  end.

(** [v.name]: reading a property of undefined or null throws a TypeError
    (result [None]); a missing property reads as undefined. *)
Definition get_prop (v : JsVal) (name : string) : option JsVal :=
  match v with
  | VUndefined | VNull => None
  | VObj props => Some (default VUndefined (own name props))
  | _ => Some VUndefined
  end.

(** [v.hasOwnProperty(name)], a method call: the method is looked up on the
    value first, and an own property called hasOwnProperty shadows the one of
    Object.prototype.  The values here are data and never functions, so
    calling the shadowing property throws a TypeError (result [None]), as
    does the lookup on undefined or null.  The class asks for the names id
    and response only, which no primitive value and no Error owns. *)
Definition hasOwnProperty (v : JsVal) (name : string) : option bool :=
  match v with
  | VUndefined | VNull => None
  | VObj props =>
      match own "hasOwnProperty" props with
      | Some _ => None
      | None => Some (bool_decide (is_Some (own name props)))
      end
  | _ => Some false
  end.

(** ToBoolean *)
Definition truthy (v : JsVal) : bool :=
  match v with
  | VUndefined | VNull => false
  | VBool b => b
  | VNum n => negb (Z.eqb n 0)
  | VStr s => negb (String.eqb s EmptyString)
  | VError _ | VObj _ => true
  end.

(** [typeof v === 'object'] *)
Definition typeof_object (v : JsVal) : bool :=
  match v with
  | VNull | VError _ | VObj _ => true
  | _ => false
  end.

Definition TypeError : JsVal := VError "TypeError: Cannot read properties of undefined".

(** The TypeError of a call of something that is not a function. *)
Definition not_a_function : JsVal :=
  VError "TypeError: currentResp.hasOwnProperty is not a function".

(* --------------------------------------------------------------------- *)
(* Data model                                                            *)
(* --------------------------------------------------------------------- *)

(** [{ id, request }], the envelope stored in the queue and handed to
    sendFunction. *)
Record requestItem := { id : Z; request : JsVal }.

(** [{ timer, requestData }], the value stored in activeRequests. *)
Record activeEntry := { timer : nat; requestData : JsVal }.

(** The three notifications, with the argument passed to the listeners. *)
Inductive Event :=
| EvSuccess (currentResp : JsVal)
| EvTimeout (id : Z) (request : JsVal) (error : JsVal)
| EvError (id : Z) (request : JsVal) (error : JsVal).

Inductive EventKind := Success | Timeout | Error.

#[global] Instance EventKind_eq_dec : EqDecision EventKind.
Proof. solve_decision. Defined.

(** What one listener does when it is called: the calls it makes back into
    the dispatcher ([addRequest] with these payloads, as the demo's
    'success' listener does), after which it returns or throws. *)
Record ListenerRun := { reentrant : list JsVal; thrown : option JsVal }.

Definition Listener := Event → ListenerRun.

(** The callbacks the class passes to setTimeout. *)
Inductive TimerCallback :=
| OnTimeout (id : Z)      (* () => this._handleTimeout(currentReq.id) *)
| OnDelayElapsed.         (* () => { this.isDelaying = false; this._tryProcessNext() } *)

Record Timer := { handle : nat; delay : Z; callback : TimerCallback }.

(** A transport invocation [sendFunction(currentReq)] and whether the
    promise it returned has settled. *)
Record Call := { currentReq : requestItem; settled : bool }.

(** A dispatcher and its surroundings.  The transport [sendFunction] and
    the listeners are the environment: the transport appears through the
    calls made to it and their outcomes ([run_job], [settle]), a listener
    through what it does when called ([ListenerRun]).  The last three
    fields are logs: no method reads them. *)
Record World := {
  (* constructor parameters *)
  maxId : Z;
  timeoutDuration : Z;
  sendingDelay : option Z;            (* None: the argument was not given *)
  (* fields of this *)
  queue : list requestItem;
  activeRequests : gmap Z activeEntry;
  isProcessing : bool;
  isDelaying : bool;
  requestCounter : Z;
  listeners : EventKind → list Listener;
  (* event loop *)
  timers : list Timer;                (* armed, not yet fired or cleared *)
  nextHandle : nat;
  jobs : list requestItem;            (* microtasks () => sendFunction(currentReq), oldest first *)
  calls : list Call;                  (* transport invocations made, oldest first *)
  (* observation logs *)
  enqueued : list requestItem;        (* envelopes built by addRequest *)
  emitted : list Event;               (* arguments of this.emit *)
  console : list (string * JsVal)     (* console.log('[QUEUE]', tag, e) *)
}.

(** [new RequestQueue(sendFunction, maxId, timeoutDuration, sendingDelay)],
    for a [sendFunction] that is a function (the constructor throws
    otherwise). *)
Definition constructor (maxId timeoutDuration : Z) (sendingDelay : option Z) : World :=
  {| maxId := maxId; timeoutDuration := timeoutDuration; sendingDelay := sendingDelay;
     queue := []; activeRequests := ∅; isProcessing := false; isDelaying := false;
     requestCounter := 0; listeners := λ _, [];
     timers := []; nextHandle := 0%nat; jobs := []; calls := [];
     enqueued := []; emitted := []; console := [] |}.

(* --------------------------------------------------------------------- *)
(* Field assignments                                                     *)
(* --------------------------------------------------------------------- *)

(** Field assignments. *)
Definition set_queue (x : list requestItem) (w : World) : World :=
  {| maxId := maxId w; timeoutDuration := timeoutDuration w; sendingDelay := sendingDelay w;
     queue := x; activeRequests := activeRequests w; isProcessing := isProcessing w;
     isDelaying := isDelaying w; requestCounter := requestCounter w; listeners := listeners w;
     timers := timers w; nextHandle := nextHandle w; jobs := jobs w; calls := calls w;
     enqueued := enqueued w; emitted := emitted w; console := console w |}.

Definition set_activeRequests (x : gmap Z activeEntry) (w : World) : World :=
  {| maxId := maxId w; timeoutDuration := timeoutDuration w; sendingDelay := sendingDelay w;
     queue := queue w; activeRequests := x; isProcessing := isProcessing w;
     isDelaying := isDelaying w; requestCounter := requestCounter w; listeners := listeners w;
     timers := timers w; nextHandle := nextHandle w; jobs := jobs w; calls := calls w;
     enqueued := enqueued w; emitted := emitted w; console := console w |}.

Definition set_isProcessing (x : bool) (w : World) : World :=
  {| maxId := maxId w; timeoutDuration := timeoutDuration w; sendingDelay := sendingDelay w;
     queue := queue w; activeRequests := activeRequests w; isProcessing := x;
     isDelaying := isDelaying w; requestCounter := requestCounter w; listeners := listeners w;
     timers := timers w; nextHandle := nextHandle w; jobs := jobs w; calls := calls w;
     enqueued := enqueued w; emitted := emitted w; console := console w |}.

Definition set_isDelaying (x : bool) (w : World) : World :=
  {| maxId := maxId w; timeoutDuration := timeoutDuration w; sendingDelay := sendingDelay w;
     queue := queue w; activeRequests := activeRequests w; isProcessing := isProcessing w;
     isDelaying := x; requestCounter := requestCounter w; listeners := listeners w;
     timers := timers w; nextHandle := nextHandle w; jobs := jobs w; calls := calls w;
     enqueued := enqueued w; emitted := emitted w; console := console w |}.

Definition set_requestCounter (x : Z) (w : World) : World :=
  {| maxId := maxId w; timeoutDuration := timeoutDuration w; sendingDelay := sendingDelay w;
     queue := queue w; activeRequests := activeRequests w; isProcessing := isProcessing w;
     isDelaying := isDelaying w; requestCounter := x; listeners := listeners w;
     timers := timers w; nextHandle := nextHandle w; jobs := jobs w; calls := calls w;
     enqueued := enqueued w; emitted := emitted w; console := console w |}.

Definition set_listeners (x : EventKind → list Listener) (w : World) : World :=
  {| maxId := maxId w; timeoutDuration := timeoutDuration w; sendingDelay := sendingDelay w;
     queue := queue w; activeRequests := activeRequests w; isProcessing := isProcessing w;
     isDelaying := isDelaying w; requestCounter := requestCounter w; listeners := x;
     timers := timers w; nextHandle := nextHandle w; jobs := jobs w; calls := calls w;
     enqueued := enqueued w; emitted := emitted w; console := console w |}.

Definition set_timers (x : list Timer) (n : nat) (w : World) : World :=
  {| maxId := maxId w; timeoutDuration := timeoutDuration w; sendingDelay := sendingDelay w;
     queue := queue w; activeRequests := activeRequests w; isProcessing := isProcessing w;
     isDelaying := isDelaying w; requestCounter := requestCounter w; listeners := listeners w;
     timers := x; nextHandle := n; jobs := jobs w; calls := calls w;
     enqueued := enqueued w; emitted := emitted w; console := console w |}.

Definition set_jobs (x : list requestItem) (w : World) : World :=
  {| maxId := maxId w; timeoutDuration := timeoutDuration w; sendingDelay := sendingDelay w;
     queue := queue w; activeRequests := activeRequests w; isProcessing := isProcessing w;
     isDelaying := isDelaying w; requestCounter := requestCounter w; listeners := listeners w;
     timers := timers w; nextHandle := nextHandle w; jobs := x; calls := calls w;
     enqueued := enqueued w; emitted := emitted w; console := console w |}.

Definition set_calls (x : list Call) (w : World) : World :=
  {| maxId := maxId w; timeoutDuration := timeoutDuration w; sendingDelay := sendingDelay w;
     queue := queue w; activeRequests := activeRequests w; isProcessing := isProcessing w;
     isDelaying := isDelaying w; requestCounter := requestCounter w; listeners := listeners w;
     timers := timers w; nextHandle := nextHandle w; jobs := jobs w; calls := x;
     enqueued := enqueued w; emitted := emitted w; console := console w |}.

Definition set_enqueued (x : list requestItem) (w : World) : World :=
  {| maxId := maxId w; timeoutDuration := timeoutDuration w; sendingDelay := sendingDelay w;
     queue := queue w; activeRequests := activeRequests w; isProcessing := isProcessing w;
     isDelaying := isDelaying w; requestCounter := requestCounter w; listeners := listeners w;
     timers := timers w; nextHandle := nextHandle w; jobs := jobs w; calls := calls w;
     enqueued := x; emitted := emitted w; console := console w |}.

Definition set_emitted (x : list Event) (w : World) : World :=
  {| maxId := maxId w; timeoutDuration := timeoutDuration w; sendingDelay := sendingDelay w;
     queue := queue w; activeRequests := activeRequests w; isProcessing := isProcessing w;
     isDelaying := isDelaying w; requestCounter := requestCounter w; listeners := listeners w;
     timers := timers w; nextHandle := nextHandle w; jobs := jobs w; calls := calls w;
     enqueued := enqueued w; emitted := x; console := console w |}.

Definition set_console (x : list (string * JsVal)) (w : World) : World :=
  {| maxId := maxId w; timeoutDuration := timeoutDuration w; sendingDelay := sendingDelay w;
     queue := queue w; activeRequests := activeRequests w; isProcessing := isProcessing w;
     isDelaying := isDelaying w; requestCounter := requestCounter w; listeners := listeners w;
     timers := timers w; nextHandle := nextHandle w; jobs := jobs w; calls := calls w;
     enqueued := enqueued w; emitted := emitted w; console := x |}.

(* --------------------------------------------------------------------- *)
(* Host functions: timers, Map, console                                  *)
(* --------------------------------------------------------------------- *)

(** [setTimeout(cb, ms)]: arms a one-shot timer and returns its handle. *)
Definition setTimeout (cb : TimerCallback) (ms : Z) (w : World) : nat * World :=
  let h := nextHandle w in
  (h, set_timers (timers w ++ [{| handle := h; delay := ms; callback := cb |}]) (S h) w).

(** [clearTimeout(h)]: disarms the timer; a handle that is not armed is ignored. *)
Definition clearTimeout (h : nat) (w : World) : World :=
  set_timers (filter (λ t, handle t ≠ h) (timers w)) (nextHandle w) w.

(** [activeRequests.get(key)]: only a number can be equal to a stored key. *)
Definition map_get (key : JsVal) (m : gmap Z activeEntry) : option activeEntry :=
  match key with
  | VNum n => m !! n
  | _ => None
  end.

(** [activeRequests.delete(key)] *)
Definition map_delete (key : JsVal) (m : gmap Z activeEntry) : gmap Z activeEntry :=
  match key with
  | VNum n => delete n m
  | _ => m
  end.

Definition console_log (tag : string) (e : JsVal) (w : World) : World :=
  set_console (console w ++ [(tag, e)]) w.

(* --------------------------------------------------------------------- *)
(* The class RequestQueue (src/request-queue.js)                         *)
(* --------------------------------------------------------------------- *)

(** [_generateId]:
    [this.requestCounter < this.maxId ? this.requestCounter++ : (this.requestCounter = 0);
     return this.requestCounter;] *)
Definition _generateId (w : World) : Z * World :=
  let w := if requestCounter w <? maxId w
           then set_requestCounter (requestCounter w + 1) w
           else set_requestCounter 0 w in
  (requestCounter w, w).

(** [_tryProcessNext].  [Promise.resolve().then(() => this.sendFunction(currentReq))]
    queues a microtask; the two later links of the chain ([_handleResponse],
    and [_handleError] in the catch) run when the call settles, see [settle]. *)
Definition _tryProcessNext (w : World) : World :=
  if isProcessing w || isDelaying w then w
  else if bool_decide (length (queue w) = 0%nat) then w
  else
    let w := set_isProcessing true w in
    match queue w with
    | [] => set_isProcessing false w
    | currentReq :: rest =>
        let w := set_queue rest w in
        let '(timer, w) := setTimeout (OnTimeout (id currentReq)) (timeoutDuration w) w in
        let w := set_activeRequests
                   (<[id currentReq := {| timer := timer; requestData := request currentReq |}]>
                      (activeRequests w)) w in
        set_jobs (jobs w ++ [currentReq]) w
    end.

(** [addRequest] *)
Definition addRequest (oRequest : JsVal) (w : World) : Z * World :=
  let '(requestId, w) := _generateId w in
  let requestItem := {| id := requestId; request := oRequest |} in
  let w := set_queue (queue w ++ [requestItem]) w in
  let w := set_enqueued (enqueued w ++ [requestItem]) w in
  let w := _tryProcessNext w in
  (requestId, w).

(** The calls one listener makes back into the dispatcher. *)
Definition run_reentrant (payloads : list JsVal) (w : World) : World :=
  foldl (λ w oRequest, (addRequest oRequest w).2) w payloads.

(** Listeners are called in the order of their registration; the first one
    that throws ends the emit with its exception. *)
Fixpoint call_listeners (ls : list Listener) (ev : Event) (w : World) : option JsVal * World :=
  match ls with
  | [] => (None, w)
  | l :: ls =>
      let w := run_reentrant (reentrant (l ev)) w in
      match thrown (l ev) with
      | Some e => (Some e, w)
      | None => call_listeners ls ev w
      end
  end.

Definition ERR_UNHANDLED_ERROR : JsVal := VError "ERR_UNHANDLED_ERROR".

(** [this.emit(kind, ev)].  The class extends Node's EventEmitter (module
    'events', required on line 1), which is not part of the repository; emit
    follows the documented contract of that module: the listeners of the
    kind are called synchronously in the order of their registration, an
    exception of a listener leaves emit, an 'error' event without a listener
    throws, any other event without a listener does nothing.  The result is
    the exception, if any. *)
Definition emit (kind : EventKind) (ev : Event) (w : World) : option JsVal * World :=
  let w := set_emitted (emitted w ++ [ev]) w in
  match kind, listeners w kind with
  | Error, [] => (Some ERR_UNHANDLED_ERROR, w)
  | _, ls => call_listeners ls ev w
  end.

(** [this.sendingDelay && this.sendingDelay > 0], with the delay when it holds. *)
Definition positive_delay (sendingDelay : option Z) : option Z :=
  match sendingDelay with
  | Some d => if truthy (VNum d) && (0 <? d) then Some d else None
  | None => None
  end.

(** [_scheduleNextProcess] *)
Definition _scheduleNextProcess (w : World) : World :=
  if bool_decide (length (queue w) = 0%nat) then w
  else
    match positive_delay (sendingDelay w) with
    | Some d =>
        let w := set_isDelaying true w in
        (setTimeout OnDelayElapsed d w).2
    | None => _tryProcessNext w
    end.

(** [try { this.emit(kind, ev) } catch (e) { console.log('[QUEUE]', tag, e) }] *)
Definition try_emit (kind : EventKind) (ev : Event) (tag : string) (w : World) : World :=
  match emit kind ev w with
  | (None, w) => w
  | (Some e, w) => console_log tag e w
  end.

(** How a method call ends. *)
Inductive Completion :=
| Returned (w : World)
| Threw (e : JsVal) (w : World).

Definition invalid_structure : JsVal := VError "The response structure is invalid".

(** [_handleResponse] *)
Definition _handleResponse (currentResp : JsVal) (w : World) : Completion :=
  match get_prop currentResp "id" with
  | None => Threw TypeError w
  | Some respId =>
      match map_get respId (activeRequests w) with
      | None => Returned w
      | Some active =>
          match (if truthy currentResp && typeof_object currentResp then
                   match hasOwnProperty currentResp "id" with
                   | Some true => hasOwnProperty currentResp "response"
                   | r => r
                   end
                 else Some false) with
          | None => Threw not_a_function w
          | Some true =>
              let w := clearTimeout (timer active) w in
              let w := set_activeRequests (map_delete respId (activeRequests w)) w in
              let w := try_emit Success (EvSuccess currentResp) "emit success" w in
              let w := set_isProcessing false w in
              Returned (_scheduleNextProcess w)
          | Some false => Threw invalid_structure w
          end
      end
  end.

Definition timed_out : JsVal := VError "Request timed out".

(** [_handleTimeout] *)
Definition _handleTimeout (id : Z) (w : World) : World :=
  match activeRequests w !! id with
  | None => w
  | Some active =>
      let w := set_activeRequests (delete id (activeRequests w)) w in
      let w := try_emit Timeout (EvTimeout id (requestData active) timed_out) "emit timeout" w in
      let w := set_isProcessing false w in
      _scheduleNextProcess w
  end.

(** [_handleError] *)
Definition _handleError (id : Z) (error : JsVal) (w : World) : World :=
  match activeRequests w !! id with
  | None => w
  | Some active =>
      let w := clearTimeout (timer active) w in
      let w := set_activeRequests (delete id (activeRequests w)) w in
      let w := try_emit Error (EvError id (requestData active) error) "emit error" w in
      let w := set_isProcessing false w in
      _scheduleNextProcess w
  end.

(** [getQueueSize] and [getActiveCount] *)
Definition getQueueSize (w : World) : nat := length (queue w).
Definition getActiveCount (w : World) : nat := size (activeRequests w).

(* --------------------------------------------------------------------- *)
(* The event loop around the dispatcher                                  *)
(* --------------------------------------------------------------------- *)

(** How the promise returned by sendFunction settles.  A transport that
    throws, or returns a plain value, settles the chain the same way. *)
Inductive Outcome :=
| Fulfilled (currentResp : JsVal)
| Rejected (error : JsVal).

(** The oldest microtask runs: [sendFunction(currentReq)] is invoked. *)
Definition run_job (w : World) : option World :=
  match jobs w with
  | [] => None
  | req :: rest =>
      Some (set_calls (calls w ++ [{| currentReq := req; settled := false |}]) (set_jobs rest w))
  end.

(** The rest of the chain of lines 121-128, for the [i]-th invocation:
    [.then((currentResp) => this._handleResponse(currentResp))
     .catch((error) => this._handleError(currentReq.id, error))].
    The catch also receives what [_handleResponse] throws. *)
Definition settle (i : nat) (o : Outcome) (w : World) : option World :=
  match calls w !! i with
  | None => None
  | Some c =>
      if settled c then None
      else
        let w := set_calls (<[i := {| currentReq := currentReq c; settled := true |}]> (calls w)) w in
        match o with
        | Fulfilled currentResp =>
            match _handleResponse currentResp w with
            | Returned w => Some w
            | Threw e w => Some (_handleError (id (currentReq c)) e w)
            end
        | Rejected e => Some (_handleError (id (currentReq c)) e w)
        end
  end.

Definition run_callback (cb : TimerCallback) (w : World) : World :=
  match cb with
  | OnTimeout id => _handleTimeout id w
  | OnDelayElapsed => _tryProcessNext (set_isDelaying false w)
  end.

(** The armed timer with handle [h] fires: it is one-shot, so it leaves the
    armed timers, and its callback runs. *)
Definition fire (h : nat) (w : World) : option World :=
  match List.find (λ t, Nat.eqb (handle t) h) (timers w) with
  | None => None
  | Some t => Some (run_callback (callback t) (clearTimeout h w))
  end.

(** [on(kind, l)] and [removeAllListeners(kind)] of EventEmitter. *)
Definition on (kind : EventKind) (l : Listener) (w : World) : World :=
  set_listeners (λ k, if decide (k = kind) then listeners w k ++ [l] else listeners w k) w.

Definition removeAllListeners (kind : EventKind) (w : World) : World :=
  set_listeners (λ k, if decide (k = kind) then [] else listeners w k) w.

(** What can happen to a dispatcher, one task of the event loop at a time. *)
Inductive Input :=
| InAddRequest (oRequest : JsVal)
| InOn (kind : EventKind) (l : Listener)
| InRemoveAllListeners (kind : EventKind)
| InJob
| InSettle (i : nat) (o : Outcome)
| InFire (h : nat).

(** [None]: the input cannot happen in this state (no job is queued, the
    call does not exist or has settled, the timer is not armed). *)
Definition step (i : Input) (w : World) : option World :=
  match i with
  | InAddRequest oRequest => Some (addRequest oRequest w).2
  | InOn kind l => Some (on kind l w)
  | InRemoveAllListeners kind => Some (removeAllListeners kind w)
  | InJob => run_job w
  | InSettle i o => settle i o w
  | InFire h => fire h w
  end.

Fixpoint run (tr : list Input) (w : World) : option World :=
  match tr with
  | [] => Some w
  | i :: tr => match step i w with Some w => run tr w | None => None end
  end.

(** The envelopes the transport was invoked on, oldest first. *)
Definition sent (w : World) : list requestItem := map currentReq (calls w).

(** The states a dispatcher built with these parameters can be in between
    two tasks. *)
Definition reachable (mx td : Z) (sd : option Z) (w : World) : Prop :=
  ∃ tr, run tr (constructor mx td sd) = Some w.

(* --------------------------------------------------------------------- *)
(* The earlier copy of the class (src/unnamed/part_000, lines 79-254)    *)
(* --------------------------------------------------------------------- *)

Module Legacy.

(** The only callback this class passes to setTimeout is
    [() => this._handleTimeout(currentReq.id)]; a timer keeps that id. *)
Record Timer := { handle : nat; delay : Z; timeoutId : Z }.

(** The same class without [sendingDelay] and [isDelaying]. *)
Record World := {
  maxId : Z;
  timeoutDuration : Z;
  queue : list requestItem;
  activeRequests : gmap Z activeEntry;
  isProcessing : bool;
  requestCounter : Z;
  listeners : EventKind → list Listener;
  timers : list Timer;
  nextHandle : nat;
  jobs : list requestItem;
  calls : list Call;
  enqueued : list requestItem;
  emitted : list Event;
  console : list (string * JsVal)
}.

(** [new RequestQueue(sendFunction, maxId, timeoutDuration)] *)
Definition constructor (maxId timeoutDuration : Z) : World :=
  {| maxId := maxId; timeoutDuration := timeoutDuration;
     queue := []; activeRequests := ∅; isProcessing := false;
     requestCounter := 0; listeners := λ _, [];
     timers := []; nextHandle := 0%nat; jobs := []; calls := [];
     enqueued := []; emitted := []; console := [] |}.

Definition set_queue (x : list requestItem) (w : World) : World :=
  {| maxId := maxId w; timeoutDuration := timeoutDuration w;
     queue := x; activeRequests := activeRequests w; isProcessing := isProcessing w;
     requestCounter := requestCounter w; listeners := listeners w;
     timers := timers w; nextHandle := nextHandle w; jobs := jobs w; calls := calls w;
     enqueued := enqueued w; emitted := emitted w; console := console w |}.

Definition set_activeRequests (x : gmap Z activeEntry) (w : World) : World :=
  {| maxId := maxId w; timeoutDuration := timeoutDuration w;
     queue := queue w; activeRequests := x; isProcessing := isProcessing w;
     requestCounter := requestCounter w; listeners := listeners w;
     timers := timers w; nextHandle := nextHandle w; jobs := jobs w; calls := calls w;
     enqueued := enqueued w; emitted := emitted w; console := console w |}.

Definition set_isProcessing (x : bool) (w : World) : World :=
  {| maxId := maxId w; timeoutDuration := timeoutDuration w;
     queue := queue w; activeRequests := activeRequests w; isProcessing := x;
     requestCounter := requestCounter w; listeners := listeners w;
     timers := timers w; nextHandle := nextHandle w; jobs := jobs w; calls := calls w;
     enqueued := enqueued w; emitted := emitted w; console := console w |}.

Definition set_requestCounter (x : Z) (w : World) : World :=
  {| maxId := maxId w; timeoutDuration := timeoutDuration w;
     queue := queue w; activeRequests := activeRequests w; isProcessing := isProcessing w;
     requestCounter := x; listeners := listeners w;
     timers := timers w; nextHandle := nextHandle w; jobs := jobs w; calls := calls w;
     enqueued := enqueued w; emitted := emitted w; console := console w |}.

Definition set_listeners (x : EventKind → list Listener) (w : World) : World :=
  {| maxId := maxId w; timeoutDuration := timeoutDuration w;
     queue := queue w; activeRequests := activeRequests w; isProcessing := isProcessing w;
     requestCounter := requestCounter w; listeners := x;
     timers := timers w; nextHandle := nextHandle w; jobs := jobs w; calls := calls w;
     enqueued := enqueued w; emitted := emitted w; console := console w |}.

Definition set_timers (x : list Timer) (n : nat) (w : World) : World :=
  {| maxId := maxId w; timeoutDuration := timeoutDuration w;
     queue := queue w; activeRequests := activeRequests w; isProcessing := isProcessing w;
     requestCounter := requestCounter w; listeners := listeners w;
     timers := x; nextHandle := n; jobs := jobs w; calls := calls w;
     enqueued := enqueued w; emitted := emitted w; console := console w |}.

Definition set_jobs (x : list requestItem) (w : World) : World :=
  {| maxId := maxId w; timeoutDuration := timeoutDuration w;
     queue := queue w; activeRequests := activeRequests w; isProcessing := isProcessing w;
     requestCounter := requestCounter w; listeners := listeners w;
     timers := timers w; nextHandle := nextHandle w; jobs := x; calls := calls w;
     enqueued := enqueued w; emitted := emitted w; console := console w |}.

Definition set_calls (x : list Call) (w : World) : World :=
  {| maxId := maxId w; timeoutDuration := timeoutDuration w;
     queue := queue w; activeRequests := activeRequests w; isProcessing := isProcessing w;
     requestCounter := requestCounter w; listeners := listeners w;
     timers := timers w; nextHandle := nextHandle w; jobs := jobs w; calls := x;
     enqueued := enqueued w; emitted := emitted w; console := console w |}.

Definition set_enqueued (x : list requestItem) (w : World) : World :=
  {| maxId := maxId w; timeoutDuration := timeoutDuration w;
     queue := queue w; activeRequests := activeRequests w; isProcessing := isProcessing w;
     requestCounter := requestCounter w; listeners := listeners w;
     timers := timers w; nextHandle := nextHandle w; jobs := jobs w; calls := calls w;
     enqueued := x; emitted := emitted w; console := console w |}.

Definition set_emitted (x : list Event) (w : World) : World :=
  {| maxId := maxId w; timeoutDuration := timeoutDuration w;
     queue := queue w; activeRequests := activeRequests w; isProcessing := isProcessing w;
     requestCounter := requestCounter w; listeners := listeners w;
     timers := timers w; nextHandle := nextHandle w; jobs := jobs w; calls := calls w;
     enqueued := enqueued w; emitted := x; console := console w |}.

Definition set_console (x : list (string * JsVal)) (w : World) : World :=
  {| maxId := maxId w; timeoutDuration := timeoutDuration w;
     queue := queue w; activeRequests := activeRequests w; isProcessing := isProcessing w;
     requestCounter := requestCounter w; listeners := listeners w;
     timers := timers w; nextHandle := nextHandle w; jobs := jobs w; calls := calls w;
     enqueued := enqueued w; emitted := emitted w; console := x |}.

Definition setTimeout (id : Z) (ms : Z) (w : World) : nat * World :=
  let h := nextHandle w in
  (h, set_timers (timers w ++ [{| handle := h; delay := ms; timeoutId := id |}]) (S h) w).

Definition clearTimeout (h : nat) (w : World) : World :=
  set_timers (filter (λ t, handle t ≠ h) (timers w)) (nextHandle w) w.

Definition console_log (tag : string) (e : JsVal) (w : World) : World :=
  set_console (console w ++ [(tag, e)]) w.

(** [_generateId] (lines 125-128) *)
Definition _generateId (w : World) : Z * World :=
  let w := if requestCounter w <? maxId w
           then set_requestCounter (requestCounter w + 1) w
           else set_requestCounter 0 w in
  (requestCounter w, w).

(** [_tryProcessNext] (lines 143-178): the only gate is [isProcessing]. *)
Definition _tryProcessNext (w : World) : World :=
  if isProcessing w then w
  else if bool_decide (length (queue w) = 0%nat) then w
  else
    let w := set_isProcessing true w in
    match queue w with
    | [] => set_isProcessing false w
    | currentReq :: rest =>
        let w := set_queue rest w in
        let '(timer, w) := setTimeout (id currentReq) (timeoutDuration w) w in
        let w := set_activeRequests
                   (<[id currentReq := {| timer := timer; requestData := request currentReq |}]>
                      (activeRequests w)) w in
        set_jobs (jobs w ++ [currentReq]) w
    end.

(** [addRequest] (lines 131-140) *)
Definition addRequest (oRequest : JsVal) (w : World) : Z * World :=
  let '(requestId, w) := _generateId w in
  let requestItem := {| id := requestId; request := oRequest |} in
  let w := set_queue (queue w ++ [requestItem]) w in
  let w := set_enqueued (enqueued w ++ [requestItem]) w in
  let w := _tryProcessNext w in
  (requestId, w).

Definition run_reentrant (payloads : list JsVal) (w : World) : World :=
  foldl (λ w oRequest, (addRequest oRequest w).2) w payloads.

Fixpoint call_listeners (ls : list Listener) (ev : Event) (w : World) : option JsVal * World :=
  match ls with
  | [] => (None, w)
  | l :: ls =>
      let w := run_reentrant (reentrant (l ev)) w in
      match thrown (l ev) with
      | Some e => (Some e, w)
      | None => call_listeners ls ev w
      end
  end.

(** [this.emit(kind, ev)], as for the current class. *)
Definition emit (kind : EventKind) (ev : Event) (w : World) : option JsVal * World :=
  let w := set_emitted (emitted w ++ [ev]) w in
  match kind, listeners w kind with
  | Error, [] => (Some ERR_UNHANDLED_ERROR, w)
  | _, ls => call_listeners ls ev w
  end.

Definition try_emit (kind : EventKind) (ev : Event) (tag : string) (w : World) : World :=
  match emit kind ev w with
  | (None, w) => w
  | (Some e, w) => console_log tag e w
  end.

Inductive Completion :=
| Returned (w : World)
| Threw (e : JsVal) (w : World).

(** [_handleResponse] (lines 181-202): ends with [this._tryProcessNext()]. *)
Definition _handleResponse (currentResp : JsVal) (w : World) : Completion :=
  match get_prop currentResp "id" with
  | None => Threw TypeError w
  | Some respId =>
      match map_get respId (activeRequests w) with
      | None => Returned w
      | Some active =>
          match (if truthy currentResp && typeof_object currentResp then
                   match hasOwnProperty currentResp "id" with
                   | Some true => hasOwnProperty currentResp "response"
                   | r => r
                   end
                 else Some false) with
          | None => Threw not_a_function w
          | Some true =>
              let w := clearTimeout (timer active) w in
              let w := set_activeRequests (map_delete respId (activeRequests w)) w in
              let w := try_emit Success (EvSuccess currentResp) "emit success" w in
              let w := set_isProcessing false w in
              Returned (_tryProcessNext w)
          | Some false => Threw invalid_structure w
          end
      end
  end.

(** [_handleTimeout] (lines 205-221) *)
Definition _handleTimeout (id : Z) (w : World) : World :=
  match activeRequests w !! id with
  | None => w
  | Some active =>
      let w := set_activeRequests (delete id (activeRequests w)) w in
      let w := try_emit Timeout (EvTimeout id (requestData active) timed_out) "emit timeout" w in
      let w := set_isProcessing false w in
      _tryProcessNext w
  end.

(** [_handleError] (lines 224-241) *)
Definition _handleError (id : Z) (error : JsVal) (w : World) : World :=
  match activeRequests w !! id with
  | None => w
  | Some active =>
      let w := clearTimeout (timer active) w in
      let w := set_activeRequests (delete id (activeRequests w)) w in
      let w := try_emit Error (EvError id (requestData active) error) "emit error" w in
      let w := set_isProcessing false w in
      _tryProcessNext w
  end.

Definition getQueueSize (w : World) : nat := length (queue w).
Definition getActiveCount (w : World) : nat := size (activeRequests w).

Definition run_job (w : World) : option World :=
  match jobs w with
  | [] => None
  | req :: rest =>
      Some (set_calls (calls w ++ [{| currentReq := req; settled := false |}]) (set_jobs rest w))
  end.

Definition settle (i : nat) (o : Outcome) (w : World) : option World :=
  match calls w !! i with
  | None => None
  | Some c =>
      if settled c then None
      else
        let w := set_calls (<[i := {| currentReq := currentReq c; settled := true |}]> (calls w)) w in
        match o with
        | Fulfilled currentResp =>
            match _handleResponse currentResp w with
            | Returned w => Some w
            | Threw e w => Some (_handleError (id (currentReq c)) e w)
            end
        | Rejected e => Some (_handleError (id (currentReq c)) e w)
        end
  end.

Definition fire (h : nat) (w : World) : option World :=
  match List.find (λ t, Nat.eqb (handle t) h) (timers w) with
  | None => None
  | Some t => Some (_handleTimeout (timeoutId t) (clearTimeout h w))
  end.

Definition on (kind : EventKind) (l : Listener) (w : World) : World :=
  set_listeners (λ k, if decide (k = kind) then listeners w k ++ [l] else listeners w k) w.

Definition removeAllListeners (kind : EventKind) (w : World) : World :=
  set_listeners (λ k, if decide (k = kind) then [] else listeners w k) w.

Definition step (i : Input) (w : World) : option World :=
  match i with
  | InAddRequest oRequest => Some (addRequest oRequest w).2
  | InOn kind l => Some (on kind l w)
  | InRemoveAllListeners kind => Some (removeAllListeners kind w)
  | InJob => run_job w
  | InSettle i o => settle i o w
  | InFire h => fire h w
  end.

Fixpoint run (tr : list Input) (w : World) : option World :=
  match tr with
  | [] => Some w
  | i :: tr => match step i w with Some w => run tr w | None => None end
  end.

Definition sent (w : World) : list requestItem := map currentReq (calls w).

End Legacy.

Definition of_legacy_timer (t : Legacy.Timer) : Timer :=
  {| handle := Legacy.handle t; delay := Legacy.delay t;
     callback := OnTimeout (Legacy.timeoutId t) |}.

(** A state of the earlier class read as a state of the current one that
    was built with [sendingDelay] and is not in a pause. *)
Definition of_legacy (sendingDelay : option Z) (l : Legacy.World) : World :=
  {| maxId := Legacy.maxId l; timeoutDuration := Legacy.timeoutDuration l;
     sendingDelay := sendingDelay;
     queue := Legacy.queue l; activeRequests := Legacy.activeRequests l;
     isProcessing := Legacy.isProcessing l; isDelaying := false;
     requestCounter := Legacy.requestCounter l; listeners := Legacy.listeners l;
     timers := of_legacy_timer <$> Legacy.timers l; nextHandle := Legacy.nextHandle l;
     jobs := Legacy.jobs l; calls := Legacy.calls l;
     enqueued := Legacy.enqueued l; emitted := Legacy.emitted l;
     console := Legacy.console l |}.

Definition of_legacy_completion (sd : option Z) (c : Legacy.Completion) : Completion :=
  match c with
  | Legacy.Returned l => Returned (of_legacy sd l)
  | Legacy.Threw e l => Threw e (of_legacy sd l)
  end.

(* --------------------------------------------------------------------- *)
(* Phases and invariants                                                 *)
(* --------------------------------------------------------------------- *)

(** The timeout timer that [_tryProcessNext] arms for an active entry. *)
Definition timeout_timer (w : World) (i : Z) (a : activeEntry) : Timer :=
  {| handle := timer a; delay := timeoutDuration w; callback := OnTimeout i |}.

(** Between two tasks the dispatcher is idle with nothing pending, or has
    exactly one request in flight with its timeout timer armed, or sits out
    the pause between two sends. *)
Inductive Phase (w : World) : Prop :=
| Idle :
    isProcessing w = false → isDelaying w = false →
    activeRequests w = ∅ → timers w = [] → queue w = [] → Phase w
| Processing (i : Z) (a : activeEntry) :
    isProcessing w = true → isDelaying w = false →
    activeRequests w = {[ i := a ]} → timers w = [timeout_timer w i a] → Phase w
| Delaying (h : nat) (d : Z) :
    isProcessing w = false → isDelaying w = true →
    activeRequests w = ∅ →
    timers w = [{| handle := h; delay := d; callback := OnDelayElapsed |}] →
    positive_delay (sendingDelay w) = Some d → queue w ≠ [] → Phase w.

(** Inside a resolution, from the removal of the active entry to the
    assignment [isProcessing = false]: this is the state the listeners see. *)
Record Resolving (w : World) : Prop := {
  resolving_processing : isProcessing w = true;
  resolving_delaying : isDelaying w = false;
  resolving_active : activeRequests w = ∅;
  resolving_timers : timers w = []
}.

(** A resolution has just cleared [isProcessing]. *)
Record Resolved (w : World) : Prop := {
  resolved_processing : isProcessing w = false;
  resolved_delaying : isDelaying w = false;
  resolved_active : activeRequests w = ∅;
  resolved_timers : timers w = []
}.

(** What an admission does when it is not gated and the queue has a head. *)
Definition admission (currentReq : requestItem) (rest : list requestItem) (w : World) : World :=
  set_jobs (jobs w ++ [currentReq])
    (set_activeRequests
       (<[id currentReq := {| timer := nextHandle w; requestData := request currentReq |}]>
          (activeRequests w))
       (set_timers
          (timers w ++ [{| handle := nextHandle w; delay := timeoutDuration w;
                           callback := OnTimeout (id currentReq) |}])
          (S (nextHandle w))
          (set_queue rest (set_isProcessing true w)))).

(** What a call of [addRequest] made while [isProcessing] holds may change:
    the queue and the log of envelopes grow by the same items, the counter
    moves; [emit] adds to the two output logs. *)
Record Grown (w w' : World) : Prop := {
  grown_maxId : maxId w' = maxId w;
  grown_timeoutDuration : timeoutDuration w' = timeoutDuration w;
  grown_sendingDelay : sendingDelay w' = sendingDelay w;
  grown_queue : ∃ items, queue w' = queue w ++ items ∧ enqueued w' = enqueued w ++ items;
  grown_activeRequests : activeRequests w' = activeRequests w;
  grown_isProcessing : isProcessing w' = isProcessing w;
  grown_isDelaying : isDelaying w' = isDelaying w;
  grown_listeners : listeners w' = listeners w;
  grown_timers : timers w' = timers w;
  grown_nextHandle : nextHandle w' = nextHandle w;
  grown_jobs : jobs w' = jobs w;
  grown_calls : calls w' = calls w
}.

(** Facts that hold whatever the gates are: every envelope built by
    [addRequest] is in the queue, in a queued microtask or was handed to the
    transport, in the order of its creation; the counter is the number of
    envelopes built so far, modulo [maxId + 1]. *)
Record Logged (w : World) : Prop := {
  logged_fifo : sent w ++ jobs w ++ queue w = enqueued w;
  logged_counter :
    0 ≤ maxId w → requestCounter w = Z.of_nat (length (enqueued w)) mod (maxId w + 1);
  logged_ids :
    0 ≤ maxId w → ∀ (k : nat) item,
      enqueued w !! k = Some item → id item = Z.of_nat (S k) mod (maxId w + 1)
}.

(** Every admission queues one microtask, every resolution calls [emit]
    once: the admitted requests are the resolved ones, plus the one in
    flight. *)
Definition Counted (w : World) : Prop :=
  (length (calls w) + length (jobs w)
   = length (emitted w) + (if isProcessing w then 1 else 0))%nat.

(** The invariant of the reachable states. *)
Record Inv (w : World) : Prop := {
  inv_phase : Phase w;
  inv_logged : Logged w;
  inv_counted : Counted w
}.

(** The constructor parameters and the listeners are never assigned by the
    methods of the class. *)
Record Static (w w' : World) : Prop := {
  static_maxId : maxId w' = maxId w;
  static_timeoutDuration : timeoutDuration w' = timeoutDuration w;
  static_sendingDelay : sendingDelay w' = sendingDelay w;
  static_listeners : listeners w' = listeners w
}.

(** The exception that ends the calls of the listeners, if any: the one of
    the first listener that throws. *)
Definition first_thrown (ls : list Listener) (ev : Event) : option JsVal :=
  head (omap (λ l, thrown (l ev)) ls).

(** The exception with which [emit] ends. *)
Definition emit_thrown (kind : EventKind) (ls : list Listener) (ev : Event) : option JsVal :=
  match kind, ls with
  | Error, [] => Some ERR_UNHANDLED_ERROR
  | _, _ => first_thrown ls ev
  end.

(** The state in which a resolution enters resume scheduling. *)
Record Notified (kind : EventKind) (ev : Event) (tag : string) (w0 w2 : World) : Prop := {
  notified_isProcessing : isProcessing w2 = false;
  notified_activeRequests : activeRequests w2 = activeRequests w0;
  notified_timers : timers w2 = timers w0;
  notified_isDelaying : isDelaying w2 = isDelaying w0;
  notified_emitted : emitted w2 = emitted w0 ++ [ev];
  notified_console :
    console w2 = console w0 ++ match emit_thrown kind (listeners w0 kind) ev with
                                | Some x => [(tag, x)]
                                | None => []
                                end;
  notified_queue : ∃ items, queue w2 = queue w0 ++ items;
  notified_jobs : jobs w2 = jobs w0
}.

(** The notification carries the id of the envelope (and its payload, for
    a timeout or an error). *)
Definition resolves (ev : Event) (item : requestItem) : Prop :=
  match ev with
  | EvSuccess currentResp => get_prop currentResp "id" = Some (VNum (id item))
  | EvTimeout i r _ | EvError i r _ => i = id item ∧ r = request item
  end.

(** The settlement [o] of the call [c] reaches the handlers under the id
    [i]: a result carries it in its id property; a rejection, or a result
    whose id cannot be read, comes with the id of the request of the call. *)
Definition settles_under (i : Z) (c : Call) (o : Outcome) : Prop :=
  match o with
  | Fulfilled currentResp =>
      get_prop currentResp "id" = Some (VNum i) ∨
      (get_prop currentResp "id" = None ∧ id (currentReq c) = i)
  | Rejected _ => id (currentReq c) = i
  end.

(** The j-th notification resolves the j-th envelope, and the request in
    flight is the first envelope not resolved yet. *)
Record Matched (w : World) : Prop := {
  matched_emitted :
    ∀ (j : nat) ev, emitted w !! j = Some ev →
      ∃ item, enqueued w !! j = Some item ∧ resolves ev item;
  matched_active :
    ∀ i a, activeRequests w !! i = Some a →
      enqueued w !! length (emitted w) = Some {| id := i; request := requestData a |}
}.

(* --------------------------------------------------------------------- *)
(* The id sequence of the specification                                  *)
(* --------------------------------------------------------------------- *)

(** The id sequence of the claim, [k] counted from 1: constantly 0 when
    [N = 0]; otherwise 1, 2, ..., N, 0, 1, ... *)
Definition id_sequence (N k : Z) : Z :=
  if N =? 0 then 0 else k mod (N + 1).

(* --------------------------------------------------------------------- *)
(* Scenarios                                                             *)
(* --------------------------------------------------------------------- *)

Definition ok_response (i : Z) : JsVal :=
  VObj [("id", VNum i); ("response", VObj [("ok", VBool true)])].

(** The scenario of the specification: maxId = 2, timeoutDuration = 100, no
    delay; A succeeds, B never resolves, C succeeds. *)
Definition scenario : list Input :=
  [InAddRequest (VStr "A"); InAddRequest (VStr "B"); InAddRequest (VStr "C");
   InJob; InSettle 0 (Fulfilled (ok_response 1));
   InJob; InFire 1;
   InJob; InSettle 2 (Fulfilled (ok_response 0))].

(** A state with one request in flight and one waiting. *)
Definition in_flight : World :=
  (addRequest (VStr "B") (addRequest (VStr "A") (constructor 2 100 None)).2).2.

(** A listener that returns without doing anything. *)
Definition quiet : Listener := λ _, {| reentrant := []; thrown := None |}.

(** A listener that calls addRequest and then throws. *)
Definition thrower : Listener :=
  λ _, {| reentrant := [VStr "again"]; thrown := Some (VStr "boom") |}.

(** Request A in flight, [thrower] subscribed to 'error'. *)
Definition observed : World :=
  default (constructor 2 100 None)
    (run [InOn Error thrower; InAddRequest (VStr "A"); InJob] (constructor 2 100 None)).

(** Request A (id 1) in flight, its transport call made, an 'error'
    listener subscribed. *)
Definition awaiting : World :=
  default (constructor 2 100 None)
    (run [InOn Error quiet; InAddRequest (VStr "A"); InJob] (constructor 2 100 None)).

Definition no_response : JsVal := VObj [("id", VNum 1)].

(** A result with id and response, and with a property called
    hasOwnProperty that is not a function. *)
Definition shadowed_response : JsVal :=
  VObj [("id", VNum 1); ("response", VObj [("ok", VBool true)]); ("hasOwnProperty", VNum 5)].

(** Request A (id 1) in flight, its transport call made, [thrower]
    subscribed to 'success'. *)
Definition observed_success : World :=
  default (constructor 2 100 None)
    (run [InOn Success thrower; InAddRequest (VStr "A"); InJob] (constructor 2 100 None)).

(** With maxId = 1 (ids 1, 0, 1): A times out, B succeeds, C is admitted
    under the id of A, and then the call of A resolves late with
    {id: 1, response}. *)
Definition late_resolution : list Input :=
  [InAddRequest (VStr "A"); InAddRequest (VStr "B"); InAddRequest (VStr "C");
   InJob; InFire 0;
   InJob; InSettle 1 (Fulfilled (ok_response 0));
   InJob; InSettle 0 (Fulfilled (ok_response 1))].

(** A answered, B admitted and about to be handed to the transport. *)
Definition before_second_send : list Input :=
  [InAddRequest (VStr "A"); InAddRequest (VStr "B"); InJob;
   InSettle 0 (Fulfilled (ok_response 1))].

(* --------------------------------------------------------------------- *)
(* Resolutions, step by step                                             *)
(* --------------------------------------------------------------------- *)

(** The handles of the armed timers were all handed out already. *)
Definition Fresh (w : World) : Prop :=
  ∀ t, t ∈ timers w → (handle t < nextHandle w)%nat.

(** The state [w2] in which the resolution of the entry [(i, a)] of [w]
    enters resume scheduling, after the notification [ev]. *)
Record ResolutionOf (w : World) (i : Z) (a : activeEntry) (ev : Event) (w2 : World) : Prop := {
  resolution_resolved : Resolved w2;
  resolution_event : resolves ev {| id := i; request := requestData a |};
  resolution_emitted : emitted w2 = emitted w ++ [ev];
  resolution_jobs : jobs w2 = jobs w;
  resolution_sent : sent w2 = sent w;
  resolution_queue :
    ∃ items, queue w2 = queue w ++ items ∧ enqueued w2 = enqueued w ++ items;
  resolution_nextHandle : nextHandle w2 = nextHandle w;
  resolution_sendingDelay : sendingDelay w2 = sendingDelay w;
  resolution_timeoutDuration : timeoutDuration w2 = timeoutDuration w
}.

(** The notifications an input can cause: a timer gives a timeout; a result
    gives a success with that very result, for which both calls of
    hasOwnProperty returned true, or the error that [_handleResponse] threw
    on it: reading its id, calling its hasOwnProperty, or for the missing
    response; a rejection gives an error with its reason. *)
Definition notifies (inp : Input) (ev : Event) : Prop :=
  match inp, ev with
  | InFire _, EvTimeout _ _ e => e = timed_out
  | InSettle _ (Fulfilled r), EvSuccess r' =>
      r' = r ∧ hasOwnProperty r "id" = Some true ∧ hasOwnProperty r "response" = Some true
  | InSettle _ (Fulfilled r), EvError _ _ e =>
      (e = TypeError ∧ get_prop r "id" = None) ∨
      (e = not_a_function ∧ hasOwnProperty r "id" = None) ∨
      (e = invalid_structure ∧ hasOwnProperty r "response" = Some false)
  | InSettle _ (Rejected e), EvError _ _ e' => e' = e
  | _, _ => False
  end.

(* --------------------------------------------------------------------- *)
(* The transport of the demo (src/unnamed/part_000, lines 24-48)         *)
(* --------------------------------------------------------------------- *)

(** [mockSendRequest(req)]: how the promise it returns settles, [None] when
    it never does.  [lt06] and [lt08] are the results of the comparisons
    [outcome < 0.6] and [outcome < 0.8] made on the random number; the
    random delay only decides when the promise settles. *)
Definition mockSendRequest (lt06 lt08 : bool) (req : requestItem) : option Outcome :=
  if lt06 then
    Some (Fulfilled (VObj [("id", VNum (id req));
                           ("response", VObj [("data", VStr "Success")])]))
  else if lt08 then
    Some (Rejected (VError (String.append "Failed to send request " (pretty (id req)))))
  else None.

(* --------------------------------------------------------------------- *)
(* Further scenarios                                                     *)
(* --------------------------------------------------------------------- *)

(** Built with sendingDelay = 50: A has been answered and B waits for the
    pause to end. *)
Definition pausing : World :=
  default (constructor 2 100 (Some 50))
    (run [InAddRequest (VStr "A"); InAddRequest (VStr "B"); InJob;
          InSettle 0 (Fulfilled (ok_response 1))]
       (constructor 2 100 (Some 50))).

(** The payloads that the listeners pass to addRequest during one emit: a
    listener that throws is the last one called. *)
Fixpoint reentrant_payloads (ls : list Listener) (ev : Event) : list JsVal :=
  match ls with
  | [] => []
  | l :: ls =>
      reentrant (l ev) ++
      match thrown (l ev) with
      | Some _ => []
      | None => reentrant_payloads ls ev
      end
  end.

(* ===================================================================== *)
(* Part II.  Lemmas                                                       *)
(* ===================================================================== *)

(* --------------------------------------------------------------------- *)
(* Equations of the methods                                              *)
(* --------------------------------------------------------------------- *)

Lemma positive_delay_None sd :
  positive_delay sd = None ↔ sd = None ∨ ∃ d, sd = Some d ∧ d ≤ 0.
Proof.
  unfold positive_delay. destruct sd as [d|]; simpl; [|split; [by left|done]].
  destruct (Z.eqb_spec d 0), (Z.ltb_spec 0 d); simpl; split; try done;
    try (intros _; right; exists d; split; [done|lia]);
    intros [|(d' & [= <-] & ?)]; [done|lia].
Qed.

Lemma positive_delay_Some sd d :
  positive_delay sd = Some d ↔ sd = Some d ∧ 0 < d.
Proof.
  unfold positive_delay. destruct sd as [d'|]; simpl; [|split; [done|by intros [? _]]].
  destruct (Z.eqb_spec d' 0) as [E|E], (Z.ltb_spec 0 d') as [L|L]; simpl.
  - split; [done|]. intros [Hs Hd]. injection Hs as <-. lia.
  - split; [done|]. intros [Hs Hd]. injection Hs as <-. lia.
  - split; [intros Hs; injection Hs as <-; done|]. by intros [Hs _].
  - split; [done|]. intros [Hs Hd]. injection Hs as <-. lia.
Qed.

Lemma _tryProcessNext_gated w :
  isProcessing w || isDelaying w = true → _tryProcessNext w = w.
Proof. unfold _tryProcessNext. by intros ->. Qed.

Lemma _tryProcessNext_empty w : queue w = [] → _tryProcessNext w = w.
Proof.
  unfold _tryProcessNext. intros ->. simpl. by destruct (isProcessing w || isDelaying w).
Qed.

Lemma _tryProcessNext_admission w currentReq rest :
  isProcessing w = false → isDelaying w = false → queue w = currentReq :: rest →
  _tryProcessNext w = admission currentReq rest w.
Proof.
  intros Hp Hd Hq. unfold _tryProcessNext. rewrite Hp, Hd, Hq. simpl. by rewrite Hq.
Qed.

Lemma addRequest_result oRequest w :
  let c := if requestCounter w <? maxId w then requestCounter w + 1 else 0 in
  let item := {| id := c; request := oRequest |} in
  addRequest oRequest w
  = (c, _tryProcessNext
          (set_enqueued (enqueued w ++ [item])
             (set_queue (queue w ++ [item]) (set_requestCounter c w)))).
Proof.
  unfold addRequest, _generateId. by destruct (requestCounter w <? maxId w).
Qed.

Lemma get_prop_VNum v name i :
  get_prop v name = Some (VNum i) → ∃ props, v = VObj props ∧ own name props = Some (VNum i).
Proof.
  destruct v as [| | | | | |props]; simpl; try done.
  destruct (own name props) as [u|] eqn:Ho; simpl; [|done].
  intros [= ->]. by exists props.
Qed.

(** Once the id of a result has been found in the table, the result is an
    object with its own id, and the check of its structure comes down to the
    call [hasOwnProperty('response')]. *)
Lemma structure_check v i :
  get_prop v "id" = Some (VNum i) →
  (if truthy v && typeof_object v then
     match hasOwnProperty v "id" with
     | Some true => hasOwnProperty v "response"
     | r => r
     end
   else Some false) = hasOwnProperty v "response".
Proof.
  intros Hid. apply get_prop_VNum in Hid as (props & -> & Ho). simpl.
  destruct (own "hasOwnProperty" props); [done|]. rewrite Ho.
  rewrite bool_decide_eq_true_2; [done|by eexists].
Qed.

(** Both calls of hasOwnProperty on such a result end alike: the first
    returns true exactly when the second returns at all. *)
Lemma hasOwnProperty_id v i :
  get_prop v "id" = Some (VNum i) →
  match hasOwnProperty v "response" with
  | Some _ => hasOwnProperty v "id" = Some true
  | None => hasOwnProperty v "id" = None
  end.
Proof.
  intros Hid. apply get_prop_VNum in Hid as (props & -> & Ho). simpl.
  destruct (own "hasOwnProperty" props); [done|]. rewrite Ho.
  rewrite bool_decide_eq_true_2; [done|by eexists].
Qed.

Lemma clear_only_timer (t : Timer) : filter (λ t', handle t' ≠ handle t) [t] = [].
Proof. rewrite filter_cons. case_decide; [done|]. by rewrite filter_nil. Qed.

Lemma find_only_timer (t : Timer) h t' :
  List.find (λ t, Nat.eqb (handle t) h) [t] = Some t' → t' = t ∧ handle t = h.
Proof.
  simpl. destruct (Nat.eqb (handle t) h) eqn:E; [|done].
  intros [= <-]. by apply Nat.eqb_eq in E.
Qed.

Lemma sent_insert_settled i c (cs : list Call) :
  cs !! i = Some c →
  map currentReq (<[i := {| currentReq := currentReq c; settled := true |}]> cs)
  = map currentReq cs.
Proof.
  intros Hl. rewrite list_fmap_insert. simpl.
  apply list_insert_id. by rewrite list_lookup_fmap, Hl.
Qed.

Lemma next_counter N n c :
  0 ≤ N → c = n mod (N + 1) → (if c <? N then c + 1 else 0) = (n + 1) mod (N + 1).
Proof.
  intros HN ->.
  pose proof (Z.mod_pos_bound n (N + 1) ltac:(lia)) as Hb.
  pose proof (Z.div_mod n (N + 1) ltac:(lia)) as Hdm.
  destruct (Z.ltb_spec (n mod (N + 1)) N).
  - apply (Z.mod_unique_pos _ _ (n / (N + 1))); lia.
  - apply (Z.mod_unique_pos _ _ (n / (N + 1) + 1)); lia.
Qed.

(* --------------------------------------------------------------------- *)
(* Calls of addRequest made while isProcessing holds                     *)
(* --------------------------------------------------------------------- *)

Lemma Grown_refl w : Grown w w.
Proof. split; try done. exists []. by rewrite !app_nil_r. Qed.

Lemma Grown_trans w1 w2 w3 : Grown w1 w2 → Grown w2 w3 → Grown w1 w3.
Proof.
  intros [] []. split; try congruence.
  destruct grown_queue0 as (xs & Hq & He), grown_queue1 as (ys & Hq' & He').
  exists (xs ++ ys). rewrite Hq', He', Hq, He, !app_assoc. done.
Qed.

Lemma addRequest_gated oRequest w :
  isProcessing w = true → Grown w (addRequest oRequest w).2.
Proof.
  intros Hp. unfold addRequest, _generateId.
  destruct (requestCounter w <? maxId w); simpl;
    (rewrite _tryProcessNext_gated; [|by simpl; rewrite Hp]);
    (split; simpl; try done; eexists; done).
Qed.

Lemma run_reentrant_gated payloads w :
  isProcessing w = true → Grown w (run_reentrant payloads w).
Proof.
  revert w. induction payloads as [|p ps IH]; intros w Hp; [apply Grown_refl|].
  unfold run_reentrant. simpl. fold (run_reentrant ps (addRequest p w).2).
  pose proof (addRequest_gated p w Hp) as Hg.
  eapply Grown_trans; [exact Hg|]. apply IH. by rewrite (grown_isProcessing _ _ Hg).
Qed.

Lemma call_listeners_gated ls ev w :
  isProcessing w = true → Grown w (call_listeners ls ev w).2.
Proof.
  revert w. induction ls as [|l ls IH]; intros w Hp; [apply Grown_refl|].
  simpl. pose proof (run_reentrant_gated (reentrant (l ev)) w Hp) as Hg.
  destruct (thrown (l ev)); simpl; [done|].
  eapply Grown_trans; [exact Hg|]. apply IH. by rewrite (grown_isProcessing _ _ Hg).
Qed.

Lemma emit_gated kind ev w :
  isProcessing w = true → Grown w (emit kind ev w).2.
Proof.
  intros Hp. unfold emit.
  assert (Grown w (set_emitted (emitted w ++ [ev]) w)) as Hg.
  { split; simpl; try done. exists []. by rewrite !app_nil_r. }
  destruct kind; simpl;
    try (eapply Grown_trans; [exact Hg|]; by apply call_listeners_gated).
  destruct (listeners w Error) eqn:Hl; simpl; [done|].
  eapply Grown_trans; [exact Hg|]. by apply (call_listeners_gated (_ :: _)).
Qed.

Lemma try_emit_gated kind ev tag w :
  isProcessing w = true → Grown w (try_emit kind ev tag w).
Proof.
  intros Hp. unfold try_emit. pose proof (emit_gated kind ev w Hp) as Hg.
  destruct (emit kind ev w) as [[e|] w1]; simpl in *; [|done].
  destruct Hg. split; simpl; done.
Qed.

Lemma Resolving_Grown w w' : Resolving w → Grown w w' → Resolving w'.
Proof. intros [] []. split; congruence. Qed.

(* --------------------------------------------------------------------- *)
(* The phases are preserved                                              *)
(* --------------------------------------------------------------------- *)

(** An admission attempt made right after a resolution, or when the pause
    has elapsed. *)
Lemma _tryProcessNext_Resolved w : Resolved w → Phase (_tryProcessNext w).
Proof.
  intros [Hp Hd Ha Ht]. unfold _tryProcessNext. rewrite Hp, Hd. simpl.
  destruct (queue w) as [|currentReq rest] eqn:Hq; simpl.
  - by apply Idle.
  - apply (Processing _ (id currentReq)
             {| timer := nextHandle w; requestData := request currentReq |}); simpl; try done.
    + by rewrite Ha.
    + by rewrite Ht.
Qed.

Lemma _scheduleNextProcess_Resolved w : Resolved w → Phase (_scheduleNextProcess w).
Proof.
  intros Hr. unfold _scheduleNextProcess.
  destruct (queue w) as [|currentReq rest] eqn:Hq; simpl.
  - destruct Hr. by apply Idle.
  - destruct (positive_delay (sendingDelay w)) as [d|] eqn:Hsd.
    + destruct Hr as [Hp Hd Ha Ht]. apply (Delaying _ (nextHandle w) d); simpl; try done.
      * by rewrite Ht.
      * by rewrite Hq.
    + by apply _tryProcessNext_Resolved.
Qed.

(** The common end of the three resolutions. *)
Lemma resolution_Phase kind ev tag w :
  Resolving w →
  Phase (_scheduleNextProcess (set_isProcessing false (try_emit kind ev tag w))).
Proof.
  intros Hr. apply _scheduleNextProcess_Resolved.
  pose proof (try_emit_gated kind ev tag w (resolving_processing _ Hr)) as Hg.
  destruct (Resolving_Grown _ _ Hr Hg). split; simpl; done.
Qed.

Lemma _tryProcessNext_Phase w : Phase w → Phase (_tryProcessNext w).
Proof.
  intros H. destruct H as [Hp Hd Ha Ht Hq|i a Hp Hd Ha Ht|h d Hp Hd Ha Ht Hsd Hq].
  - rewrite _tryProcessNext_empty by done. by apply Idle.
  - rewrite _tryProcessNext_gated by (by rewrite Hp). by eapply Processing.
  - rewrite _tryProcessNext_gated by (by rewrite Hp, Hd). by eapply Delaying.
Qed.

Lemma addRequest_Phase oRequest w : Phase w → Phase (addRequest oRequest w).2.
Proof.
  intros H. unfold addRequest, _generateId.
  set (w1 := if requestCounter w <? maxId w then _ else _).
  assert (isProcessing w1 = isProcessing w ∧ isDelaying w1 = isDelaying w ∧
          activeRequests w1 = activeRequests w ∧ timers w1 = timers w ∧
          queue w1 = queue w ∧ sendingDelay w1 = sendingDelay w ∧
          timeoutDuration w1 = timeoutDuration w) as (E1 & E2 & E3 & E4 & E5 & E6 & E7).
  { subst w1. by destruct (requestCounter w <? maxId w). }
  simpl. clearbody w1.
  destruct H as [Hp Hd Ha Ht Hq|i a Hp Hd Ha Ht|h d Hp Hd Ha Ht Hsd Hq].
  - apply _tryProcessNext_Resolved. split; simpl; congruence.
  - rewrite _tryProcessNext_gated by (simpl; by rewrite E1, Hp).
    apply (Processing _ i a); simpl; try congruence.
    rewrite E4, Ht. unfold timeout_timer. simpl. by rewrite E7.
  - rewrite _tryProcessNext_gated by (simpl; by rewrite E1, E2, Hp, Hd).
    apply (Delaying _ h d); simpl; try congruence.
    rewrite E5. by destruct (queue w).
Qed.

(** [Phase] only reads the gates, the table, the timers, the queue and the
    two durations. *)
Lemma Phase_ext w w' :
  isProcessing w' = isProcessing w → isDelaying w' = isDelaying w →
  activeRequests w' = activeRequests w → timers w' = timers w →
  queue w' = queue w → sendingDelay w' = sendingDelay w →
  timeoutDuration w' = timeoutDuration w →
  Phase w → Phase w'.
Proof.
  intros E1 E2 E3 E4 E5 E6 E7 H.
  destruct H as [Hp Hd Ha Ht Hq|i a Hp Hd Ha Ht|h d Hp Hd Ha Ht Hsd Hq].
  - apply Idle; congruence.
  - apply (Processing _ i a); try congruence.
    rewrite E4, Ht. unfold timeout_timer. by rewrite E7.
  - apply (Delaying _ h d); congruence.
Qed.

Lemma Phase_active w i active :
  Phase w → activeRequests w !! i = Some active →
  isProcessing w = true ∧ isDelaying w = false ∧
  activeRequests w = {[ i := active ]} ∧ timers w = [timeout_timer w i active].
Proof.
  intros H Hl.
  destruct H as [Hp Hd Ha Ht Hq|j a Hp Hd Ha Ht|h d Hp Hd Ha Ht Hsd Hq];
    try (rewrite Ha, lookup_empty in Hl; done).
  rewrite Ha in Hl. apply lookup_singleton_Some in Hl as [-> ->]. done.
Qed.

Lemma Phase_idle_empty w : Phase w → isProcessing w = false → activeRequests w = ∅.
Proof.
  intros [Hp Hd Ha Ht Hq|i a Hp Hd Ha Ht|h d Hp Hd Ha Ht Hsd Hq]; congruence.
Qed.

Lemma clearTimeout_active_Resolving w i active :
  Phase w → activeRequests w !! i = Some active →
  Resolving (set_activeRequests (delete i (activeRequests (clearTimeout (timer active) w)))
               (clearTimeout (timer active) w)).
Proof.
  intros H Hl. destruct (Phase_active _ _ _ H Hl) as (Hp & Hd & Ha & Ht).
  split; simpl; try done.
  - rewrite Ha. apply delete_singleton_eq.
  - rewrite Ht. apply (clear_only_timer (timeout_timer w i active)).
Qed.

Lemma _handleError_Phase i e w : Phase w → Phase (_handleError i e w).
Proof.
  intros H. unfold _handleError.
  destruct (activeRequests w !! i) as [active|] eqn:Hl; [|done].
  apply resolution_Phase. by apply clearTimeout_active_Resolving.
Qed.

Lemma _handleResponse_Phase currentResp w :
  Phase w →
  match _handleResponse currentResp w with
  | Returned w' => Phase w'
  | Threw _ w' => w' = w
  end.
Proof.
  intros H. unfold _handleResponse.
  destruct (get_prop currentResp "id") as [respId|]; [|done].
  destruct (map_get respId (activeRequests w)) as [active|] eqn:Hl; [|done].
  destruct (if _ && _ then _ else _) as [[|]|]; [|done|done].
  destruct respId; try done. simpl in Hl.
  apply resolution_Phase. by apply clearTimeout_active_Resolving.
Qed.

Lemma settle_Phase i o w w' : Phase w → settle i o w = Some w' → Phase w'.
Proof.
  intros H. unfold settle.
  destruct (calls w !! i) as [c|]; [|done].
  destruct (settled c); [done|].
  set (w1 := set_calls _ w).
  assert (Phase w1) as H1 by (by apply (Phase_ext w)).
  clearbody w1. destruct o as [currentResp|e].
  - pose proof (_handleResponse_Phase currentResp w1 H1) as Hr.
    destruct (_handleResponse currentResp w1) as [w2|e w2]; intros [= <-]; [done|].
    subst w2. by apply _handleError_Phase.
  - intros [= <-]. by apply _handleError_Phase.
Qed.

Lemma fire_Phase h w w' : Phase w → fire h w = Some w' → Phase w'.
Proof.
  intros H. unfold fire.
  destruct (List.find _ (timers w)) as [t|] eqn:Hf; [|done]. intros [= <-].
  destruct H as [Hp Hd Ha Ht Hq|i a Hp Hd Ha Ht|h' d Hp Hd Ha Ht Hsd Hq].
  - by rewrite Ht in Hf.
  - rewrite Ht in Hf. apply find_only_timer in Hf as [-> Hh]. simpl in Hh. subst h.
    simpl. unfold _handleTimeout.
    change (activeRequests (clearTimeout (timer a) w)) with (activeRequests w).
    rewrite Ha, lookup_singleton_eq.
    apply resolution_Phase. split; simpl; try done.
    + apply delete_singleton_eq.
    + rewrite Ht. apply (clear_only_timer (timeout_timer w i a)).
  - rewrite Ht in Hf. apply find_only_timer in Hf as [-> Hh]. simpl in Hh. subst h'.
    apply _tryProcessNext_Resolved. split; simpl; try done.
    rewrite Ht. apply (clear_only_timer {| handle := h; delay := d; callback := OnDelayElapsed |}).
Qed.

Lemma run_job_Phase w w' : Phase w → run_job w = Some w' → Phase w'.
Proof.
  intros H. unfold run_job. destruct (jobs w); [done|]. intros [= <-].
  by apply (Phase_ext w).
Qed.

Lemma step_Phase i w w' : Phase w → step i w = Some w' → Phase w'.
Proof.
  intros H. destruct i; simpl.
  - intros [= <-]. by apply addRequest_Phase.
  - intros [= <-]. by apply (Phase_ext w).
  - intros [= <-]. by apply (Phase_ext w).
  - by apply run_job_Phase.
  - by apply settle_Phase.
  - by apply fire_Phase.
Qed.

Lemma run_Phase tr w w' : Phase w → run tr w = Some w' → Phase w'.
Proof.
  revert w. induction tr as [|i tr IH]; intros w H; simpl.
  - by intros [= <-].
  - destruct (step i w) as [w1|] eqn:Hs; [|done]. apply IH. by eapply step_Phase.
Qed.

Lemma constructor_Phase mx td sd : Phase (constructor mx td sd).
Proof. by apply Idle. Qed.

(* --------------------------------------------------------------------- *)
(* Identifiers and the order of the envelopes                            *)
(* --------------------------------------------------------------------- *)

Lemma Logged_ext w w' :
  calls w' = calls w → jobs w' = jobs w → queue w' = queue w → enqueued w' = enqueued w →
  maxId w' = maxId w → requestCounter w' = requestCounter w →
  Logged w → Logged w'.
Proof.
  intros E1 E2 E3 E4 E5 E6 [Hf Hc Hi]. unfold sent in *.
  split; unfold sent; rewrite ?E1, ?E2, ?E3, ?E4, ?E5, ?E6; done.
Qed.

Lemma pushed_Logged w c oRequest :
  Logged w →
  c = (if requestCounter w <? maxId w then requestCounter w + 1 else 0) →
  Logged (set_enqueued (enqueued w ++ [{| id := c; request := oRequest |}])
            (set_queue (queue w ++ [{| id := c; request := oRequest |}])
               (set_requestCounter c w))).
Proof.
  intros [Hf Hc Hi] ->. split; simpl.
  - unfold sent in *. simpl. by rewrite <- Hf, <- !app_assoc.
  - intros HN. rewrite length_app. simpl.
    rewrite (next_counter (maxId w) (Z.of_nat (length (enqueued w)))) by auto.
    f_equal. lia.
  - intros HN k item Hk.
    destruct (decide (k < length (enqueued w))%nat) as [Hlt|Hge].
    + rewrite lookup_app_l in Hk by done. by apply Hi.
    + rewrite lookup_app_r in Hk by lia.
      destruct (k - length (enqueued w))%nat as [|?] eqn:Hd; [|done].
      simpl in Hk. injection Hk as <-. simpl.
      rewrite (next_counter (maxId w) (Z.of_nat (length (enqueued w)))) by auto.
      f_equal. lia.
Qed.

Lemma _tryProcessNext_Logged w : Logged w → Logged (_tryProcessNext w).
Proof.
  intros H. unfold _tryProcessNext.
  destruct (isProcessing w || isDelaying w); [done|].
  case_bool_decide; [done|]. simpl.
  destruct (queue w) as [|currentReq rest] eqn:Hq; simpl.
  - by apply (Logged_ext w).
  - destruct H as [Hf Hc Hi]. split; simpl; try done.
    rewrite <- Hf, Hq. unfold sent. simpl. by rewrite <- !app_assoc.
Qed.

Lemma addRequest_Logged oRequest w : Logged w → Logged (addRequest oRequest w).2.
Proof.
  intros H. rewrite addRequest_result. cbv zeta. change ((?a, ?b).2) with b.
  apply _tryProcessNext_Logged. by apply pushed_Logged.
Qed.

Lemma run_reentrant_Logged payloads w : Logged w → Logged (run_reentrant payloads w).
Proof.
  revert w. induction payloads as [|p ps IH]; intros w H; [done|].
  apply (IH (addRequest p w).2). by apply addRequest_Logged.
Qed.

Lemma call_listeners_Logged ls ev w : Logged w → Logged (call_listeners ls ev w).2.
Proof.
  revert w. induction ls as [|l ls IH]; intros w H; [done|]. simpl.
  pose proof (run_reentrant_Logged (reentrant (l ev)) w H).
  destruct (thrown (l ev)); simpl; [done|]. by apply IH.
Qed.

Lemma emit_Logged kind ev w : Logged w → Logged (emit kind ev w).2.
Proof.
  intros H. unfold emit.
  assert (Logged (set_emitted (emitted w ++ [ev]) w)) as H1 by (by apply (Logged_ext w)).
  destruct kind; simpl; try by apply call_listeners_Logged.
  destruct (listeners w Error) eqn:Hl; simpl; [done|].
  by apply (call_listeners_Logged (_ :: _)).
Qed.

Lemma try_emit_Logged kind ev tag w : Logged w → Logged (try_emit kind ev tag w).
Proof.
  intros H. unfold try_emit. pose proof (emit_Logged kind ev w H) as H1.
  destruct (emit kind ev w) as [[e|] w1]; simpl in *; [|done].
  by apply (Logged_ext w1).
Qed.

Lemma _scheduleNextProcess_Logged w : Logged w → Logged (_scheduleNextProcess w).
Proof.
  intros H. unfold _scheduleNextProcess. case_bool_decide; [done|].
  destruct (positive_delay (sendingDelay w)).
  - by apply (Logged_ext w).
  - by apply _tryProcessNext_Logged.
Qed.

Lemma resolution_Logged kind ev tag w :
  Logged w → Logged (_scheduleNextProcess (set_isProcessing false (try_emit kind ev tag w))).
Proof.
  intros H. apply _scheduleNextProcess_Logged.
  by apply (Logged_ext (try_emit kind ev tag w)); [..|apply try_emit_Logged].
Qed.

Lemma _handleTimeout_Logged i w : Logged w → Logged (_handleTimeout i w).
Proof.
  intros H. unfold _handleTimeout. destruct (activeRequests w !! i); [|done].
  apply resolution_Logged. by apply (Logged_ext w).
Qed.

Lemma _handleError_Logged i e w : Logged w → Logged (_handleError i e w).
Proof.
  intros H. unfold _handleError. destruct (activeRequests w !! i); [|done].
  apply resolution_Logged. by apply (Logged_ext w).
Qed.

Lemma _handleResponse_Logged currentResp w :
  Logged w →
  match _handleResponse currentResp w with
  | Returned w' => Logged w'
  | Threw _ w' => w' = w
  end.
Proof.
  intros H. unfold _handleResponse.
  destruct (get_prop currentResp "id") as [respId|]; [|done].
  destruct (map_get respId (activeRequests w)); [|done].
  destruct (if _ && _ then _ else _) as [[|]|]; [|done|done].
  apply resolution_Logged. by apply (Logged_ext w).
Qed.

Lemma step_Logged i w w' : Logged w → step i w = Some w' → Logged w'.
Proof.
  intros H. destruct i as [p|k l|k| |i o|h]; simpl.
  - intros [= <-]. by apply addRequest_Logged.
  - intros [= <-]. by apply (Logged_ext w).
  - intros [= <-]. by apply (Logged_ext w).
  - unfold run_job. destruct (jobs w) as [|req rest] eqn:Hj; [done|]. intros [= <-].
    destruct H as [Hf Hc Hi]. split; simpl; try done.
    rewrite <- Hf, Hj. unfold sent. simpl. by rewrite map_app, <- !app_assoc.
  - unfold settle. destruct (calls w !! i) as [c|] eqn:Hl; [|done].
    destruct (settled c); [done|].
    set (w1 := set_calls _ w).
    assert (Logged w1) as H1.
    { destruct H as [Hf Hc Hi]. split; simpl; try done.
      unfold sent in *. simpl. by rewrite (sent_insert_settled i c). }
    clearbody w1. destruct o as [currentResp|e].
    + pose proof (_handleResponse_Logged currentResp w1 H1) as Hr.
      destruct (_handleResponse currentResp w1) as [w2|e w2]; intros [= <-]; [done|].
      subst w2. by apply _handleError_Logged.
    + intros [= <-]. by apply _handleError_Logged.
  - unfold fire. destruct (List.find _ (timers w)) as [t|]; [|done]. intros [= <-].
    assert (Logged (clearTimeout h w)) as H1 by (by apply (Logged_ext w)).
    destruct (callback t); simpl.
    + by apply _handleTimeout_Logged.
    + apply _tryProcessNext_Logged. by apply (Logged_ext w).
Qed.

Lemma run_Logged tr w w' : Logged w → run tr w = Some w' → Logged w'.
Proof.
  revert w. induction tr as [|i tr IH]; intros w H; simpl.
  - by intros [= <-].
  - destruct (step i w) as [w1|] eqn:Hs; [|done]. apply IH. by eapply step_Logged.
Qed.

Lemma constructor_Logged mx td sd : Logged (constructor mx td sd).
Proof.
  split; simpl; done.
Qed.

(* --------------------------------------------------------------------- *)
(* Admissions and resolutions counted                                    *)
(* --------------------------------------------------------------------- *)

Lemma _tryProcessNext_emitted w : emitted (_tryProcessNext w) = emitted w.
Proof.
  unfold _tryProcessNext. destruct (isProcessing w || isDelaying w); [done|].
  case_bool_decide; [done|]. simpl. by destruct (queue w).
Qed.

Lemma _tryProcessNext_enqueued w : enqueued (_tryProcessNext w) = enqueued w.
Proof.
  unfold _tryProcessNext. destruct (isProcessing w || isDelaying w); [done|].
  case_bool_decide; [done|]. simpl. by destruct (queue w).
Qed.

Lemma addRequest_emitted oRequest w : emitted (addRequest oRequest w).2 = emitted w.
Proof.
  unfold addRequest, _generateId. simpl. rewrite _tryProcessNext_emitted. simpl.
  by destruct (requestCounter w <? maxId w).
Qed.

Lemma run_reentrant_emitted payloads w : emitted (run_reentrant payloads w) = emitted w.
Proof.
  revert w. induction payloads as [|p ps IH]; intros w; [done|].
  etrans; [apply (IH (addRequest p w).2)|apply addRequest_emitted].
Qed.

Lemma call_listeners_emitted ls ev w : emitted (call_listeners ls ev w).2 = emitted w.
Proof.
  revert w. induction ls as [|l ls IH]; intros w; [done|]. simpl.
  destruct (thrown (l ev)); simpl; [|rewrite IH]; apply run_reentrant_emitted.
Qed.

Lemma emit_emitted kind ev w : emitted (emit kind ev w).2 = emitted w ++ [ev].
Proof.
  unfold emit. destruct kind; cbv beta iota; rewrite ?call_listeners_emitted; try done.
  destruct (listeners _ Error); rewrite ?call_listeners_emitted; done.
Qed.

Lemma try_emit_emitted kind ev tag w : emitted (try_emit kind ev tag w) = emitted w ++ [ev].
Proof.
  unfold try_emit. pose proof (emit_emitted kind ev w) as H.
  by destruct (emit kind ev w) as [[e|] w1].
Qed.

Lemma _scheduleNextProcess_emitted w : emitted (_scheduleNextProcess w) = emitted w.
Proof.
  unfold _scheduleNextProcess. case_bool_decide; [done|].
  destruct (positive_delay (sendingDelay w)); [done|]. apply _tryProcessNext_emitted.
Qed.

Lemma _tryProcessNext_Counted w : Counted w → Counted (_tryProcessNext w).
Proof.
  unfold Counted, _tryProcessNext. intros H.
  destruct (isProcessing w) eqn:Hp; simpl; [by rewrite Hp|].
  destruct (isDelaying w); simpl; [by rewrite Hp|].
  case_bool_decide; [by rewrite Hp|]. simpl.
  destruct (queue w) as [|currentReq rest]; simpl; [lia|].
  rewrite length_app. simpl. lia.
Qed.

Lemma addRequest_Counted oRequest w : Counted w → Counted (addRequest oRequest w).2.
Proof.
  intros H. unfold addRequest, _generateId. simpl. apply _tryProcessNext_Counted.
  unfold Counted in *. simpl. by destruct (requestCounter w <? maxId w).
Qed.

Lemma _scheduleNextProcess_Counted w : Counted w → Counted (_scheduleNextProcess w).
Proof.
  intros H. unfold _scheduleNextProcess. case_bool_decide; [done|].
  destruct (positive_delay (sendingDelay w)); [done|]. by apply _tryProcessNext_Counted.
Qed.

Lemma resolution_Counted kind ev tag w0 w :
  Counted w0 → isProcessing w0 = true →
  calls w = calls w0 → jobs w = jobs w0 → emitted w = emitted w0 →
  Resolving w →
  Counted (_scheduleNextProcess (set_isProcessing false (try_emit kind ev tag w))).
Proof.
  intros H Hp0 E1 E2 E3 Hr. apply _scheduleNextProcess_Counted.
  pose proof (try_emit_gated kind ev tag w (resolving_processing _ Hr)) as Hg.
  unfold Counted in *. simpl.
  rewrite try_emit_emitted, (grown_calls _ _ Hg), (grown_jobs _ _ Hg), E1, E2, E3, length_app.
  rewrite Hp0 in H. simpl. lia.
Qed.

Lemma _handleError_Counted i e w : Phase w → Counted w → Counted (_handleError i e w).
Proof.
  intros HP H. unfold _handleError.
  destruct (activeRequests w !! i) as [active|] eqn:Hl; [|done].
  destruct (Phase_active _ _ _ HP Hl) as (Hp & _).
  apply (resolution_Counted _ _ _ w); try done.
  by apply clearTimeout_active_Resolving.
Qed.

Lemma _handleResponse_Counted currentResp w :
  Phase w → Counted w →
  match _handleResponse currentResp w with
  | Returned w' => Counted w'
  | Threw _ w' => w' = w
  end.
Proof.
  intros HP H. unfold _handleResponse.
  destruct (get_prop currentResp "id") as [respId|]; [|done].
  destruct (map_get respId (activeRequests w)) as [active|] eqn:Hl; [|done].
  destruct (if _ && _ then _ else _) as [[|]|]; [|done|done].
  destruct respId; try done. simpl in Hl.
  destruct (Phase_active _ _ _ HP Hl) as (Hp & _).
  apply (resolution_Counted _ _ _ w); try done.
  by apply clearTimeout_active_Resolving.
Qed.

Lemma step_Counted i w w' : Phase w → Counted w → step i w = Some w' → Counted w'.
Proof.
  intros HP H. destruct i as [p|k l|k| |i o|h]; simpl.
  - intros [= <-]. by apply addRequest_Counted.
  - by intros [= <-].
  - by intros [= <-].
  - unfold run_job. destruct (jobs w) as [|req rest] eqn:Hj; [done|]. intros [= <-].
    unfold Counted in *. simpl. rewrite Hj in H. rewrite length_app. simpl in *. lia.
  - unfold settle. destruct (calls w !! i) as [c|] eqn:Hl; [|done].
    destruct (settled c); [done|].
    set (w1 := set_calls _ w).
    assert (Phase w1) as HP1 by (by apply (Phase_ext w)).
    assert (Counted w1) as H1.
    { unfold Counted in *. simpl. by rewrite length_insert. }
    clearbody w1. destruct o as [currentResp|e].
    + pose proof (_handleResponse_Counted currentResp w1 HP1 H1) as Hr.
      destruct (_handleResponse currentResp w1) as [w2|e w2]; intros [= <-]; [done|].
      subst w2. by apply _handleError_Counted.
    + intros [= <-]. by apply _handleError_Counted.
  - unfold fire. destruct (List.find _ (timers w)) as [t|] eqn:Hf; [|done]. intros [= <-].
    destruct HP as [Hp Hd Ha Ht Hq|i a Hp Hd Ha Ht|h' d Hp Hd Ha Ht Hsd Hq].
    + by rewrite Ht in Hf.
    + rewrite Ht in Hf. apply find_only_timer in Hf as [-> Hh]. simpl in Hh. subst h.
      simpl. unfold _handleTimeout.
      change (activeRequests (clearTimeout (timer a) w)) with (activeRequests w).
      rewrite Ha, lookup_singleton_eq.
      apply (resolution_Counted _ _ _ w); try done. split; simpl; try done.
      * apply delete_singleton_eq.
      * rewrite Ht. apply (clear_only_timer (timeout_timer w i a)).
    + rewrite Ht in Hf. apply find_only_timer in Hf as [-> Hh]. simpl.
      by apply _tryProcessNext_Counted.
Qed.

Lemma constructor_Inv mx td sd : Inv (constructor mx td sd).
Proof. split; [apply constructor_Phase|apply constructor_Logged|done]. Qed.

Lemma step_Inv i w w' : Inv w → step i w = Some w' → Inv w'.
Proof.
  intros [HP HL HC] Hs. split;
    [by eapply step_Phase|by eapply step_Logged|by eapply step_Counted].
Qed.

Lemma run_Inv tr w w' : Inv w → run tr w = Some w' → Inv w'.
Proof.
  revert w. induction tr as [|i tr IH]; intros w H; simpl.
  - by intros [= <-].
  - destruct (step i w) as [w1|] eqn:Hs; [|done]. apply IH. by eapply step_Inv.
Qed.

Lemma reachable_Inv mx td sd w : reachable mx td sd w → Inv w.
Proof. intros [tr Hr]. eapply run_Inv; [apply constructor_Inv|done]. Qed.

(* --------------------------------------------------------------------- *)
(* What no method assigns                                                *)
(* --------------------------------------------------------------------- *)

Lemma Static_refl w : Static w w.
Proof. by split. Qed.

Lemma Static_trans w1 w2 w3 : Static w1 w2 → Static w2 w3 → Static w1 w3.
Proof. intros [] []. split; congruence. Qed.

Lemma _tryProcessNext_Static w : Static w (_tryProcessNext w).
Proof.
  unfold _tryProcessNext. destruct (isProcessing w || isDelaying w); [apply Static_refl|].
  case_bool_decide; [apply Static_refl|]. simpl. by destruct (queue w).
Qed.

Lemma addRequest_Static oRequest w : Static w (addRequest oRequest w).2.
Proof.
  unfold addRequest, _generateId. simpl.
  eapply Static_trans; [|apply _tryProcessNext_Static].
  by destruct (requestCounter w <? maxId w).
Qed.

Lemma run_reentrant_Static payloads w : Static w (run_reentrant payloads w).
Proof.
  revert w. induction payloads as [|p ps IH]; intros w; [apply Static_refl|].
  eapply Static_trans; [apply (addRequest_Static p)|apply (IH (addRequest p w).2)].
Qed.

Lemma call_listeners_Static ls ev w : Static w (call_listeners ls ev w).2.
Proof.
  revert w. induction ls as [|l ls IH]; intros w; [apply Static_refl|]. simpl.
  destruct (thrown (l ev)); simpl; [apply run_reentrant_Static|].
  eapply Static_trans; [apply run_reentrant_Static|apply IH].
Qed.

Lemma emit_Static kind ev w : Static w (emit kind ev w).2.
Proof.
  unfold emit.
  assert (Static w (set_emitted (emitted w ++ [ev]) w)) as H by done.
  destruct kind; cbv beta iota;
    try (eapply Static_trans; [exact H|apply call_listeners_Static]).
  destruct (listeners _ Error); [done|].
  eapply Static_trans; [exact H|apply call_listeners_Static].
Qed.

Lemma try_emit_Static kind ev tag w : Static w (try_emit kind ev tag w).
Proof.
  unfold try_emit. pose proof (emit_Static kind ev w) as H.
  destruct (emit kind ev w) as [[e|] w1]; simpl in *; [|done].
  destruct H. by split.
Qed.

Lemma _scheduleNextProcess_Static w : Static w (_scheduleNextProcess w).
Proof.
  unfold _scheduleNextProcess. case_bool_decide; [apply Static_refl|].
  destruct (positive_delay (sendingDelay w)); [done|]. apply _tryProcessNext_Static.
Qed.

Lemma resolution_Static kind ev tag w0 w :
  Static w0 w →
  Static w0 (_scheduleNextProcess (set_isProcessing false (try_emit kind ev tag w))).
Proof.
  intros H. eapply Static_trans; [|apply _scheduleNextProcess_Static].
  eapply Static_trans; [exact H|].
  pose proof (try_emit_Static kind ev tag w) as []. by split.
Qed.

Lemma _handleTimeout_Static i w : Static w (_handleTimeout i w).
Proof.
  unfold _handleTimeout. destruct (activeRequests w !! i); [|apply Static_refl].
  by apply resolution_Static.
Qed.

Lemma _handleError_Static i e w : Static w (_handleError i e w).
Proof.
  unfold _handleError. destruct (activeRequests w !! i); [|apply Static_refl].
  by apply resolution_Static.
Qed.

Lemma _handleResponse_Static currentResp w :
  match _handleResponse currentResp w with
  | Returned w' => Static w w'
  | Threw _ w' => w' = w
  end.
Proof.
  unfold _handleResponse.
  destruct (get_prop currentResp "id") as [respId|]; [|done].
  destruct (map_get respId (activeRequests w)); [|apply Static_refl].
  destruct (if _ && _ then _ else _) as [[|]|]; [|done|done]. by apply resolution_Static.
Qed.

(** Along a run only the constructor parameters are certain to stay: the
    listeners change with [on] and [removeAllListeners]. *)
Lemma step_config i w w' :
  step i w = Some w' →
  maxId w' = maxId w ∧ timeoutDuration w' = timeoutDuration w ∧ sendingDelay w' = sendingDelay w.
Proof.
  destruct i as [p|k l|k| |i o|h]; simpl.
  - intros [= <-]. by destruct (addRequest_Static p w).
  - by intros [= <-].
  - by intros [= <-].
  - unfold run_job. destruct (jobs w); [done|]. by intros [= <-].
  - unfold settle. destruct (calls w !! i) as [c|]; [|done].
    destruct (settled c); [done|].
    set (w1 := set_calls _ w). assert (Static w w1) as H1 by done. clearbody w1.
    destruct o as [currentResp|e].
    + pose proof (_handleResponse_Static currentResp w1) as Hr.
      destruct (_handleResponse currentResp w1) as [w2|e w2]; intros [= <-].
      * by destruct (Static_trans _ _ _ H1 Hr).
      * subst w2. by destruct (Static_trans _ _ _ H1 (_handleError_Static (id (currentReq c)) e w1)).
    + intros [= <-].
      by destruct (Static_trans _ _ _ H1 (_handleError_Static (id (currentReq c)) e w1)).
  - unfold fire. destruct (List.find _ (timers w)) as [t|]; [|done]. intros [= <-].
    assert (Static w (clearTimeout h w)) as H1 by done.
    destruct (callback t); simpl.
    + by destruct (Static_trans _ _ _ H1 (_handleTimeout_Static id0 (clearTimeout h w))).
    + by destruct (_tryProcessNext_Static (set_isDelaying false (clearTimeout h w))).
Qed.

Lemma run_config tr w w' :
  run tr w = Some w' →
  maxId w' = maxId w ∧ timeoutDuration w' = timeoutDuration w ∧ sendingDelay w' = sendingDelay w.
Proof.
  revert w. induction tr as [|i tr IH]; intros w; simpl.
  - by intros [= <-].
  - destruct (step i w) as [w1|] eqn:Hs; [|done]. intros Hr.
    destruct (step_config _ _ _ Hs) as (? & ? & ?), (IH _ Hr) as (? & ? & ?).
    repeat split; congruence.
Qed.

(* --------------------------------------------------------------------- *)
(* Notifications, exceptions of the listeners, the console               *)
(* --------------------------------------------------------------------- *)

Lemma _tryProcessNext_console w : console (_tryProcessNext w) = console w.
Proof.
  unfold _tryProcessNext. destruct (isProcessing w || isDelaying w); [done|].
  case_bool_decide; [done|]. simpl. by destruct (queue w).
Qed.

Lemma addRequest_console oRequest w : console (addRequest oRequest w).2 = console w.
Proof.
  rewrite addRequest_result. cbv zeta. simpl. by rewrite _tryProcessNext_console.
Qed.

Lemma run_reentrant_console payloads w : console (run_reentrant payloads w) = console w.
Proof.
  revert w. induction payloads as [|p ps IH]; intros w; [done|].
  etrans; [apply (IH (addRequest p w).2)|apply addRequest_console].
Qed.

Lemma call_listeners_result ls ev w :
  (call_listeners ls ev w).1 = first_thrown ls ev ∧
  console (call_listeners ls ev w).2 = console w.
Proof.
  revert w. induction ls as [|l ls IH]; intros w; [done|].
  unfold first_thrown. simpl.
  destruct (thrown (l ev)) as [x|]; simpl.
  - split; [done|apply run_reentrant_console].
  - destruct (IH (run_reentrant (reentrant (l ev)) w)) as [-> ->].
    split; [done|apply run_reentrant_console].
Qed.

Lemma emit_result kind ev w :
  (emit kind ev w).1 = emit_thrown kind (listeners w kind) ev ∧
  console (emit kind ev w).2 = console w.
Proof.
  unfold emit, emit_thrown. cbv zeta.
  change (listeners (set_emitted (emitted w ++ [ev]) w) kind) with (listeners w kind).
  destruct kind; try apply (call_listeners_result _ ev (set_emitted _ w)).
  change (listeners (set_emitted (emitted w ++ [ev]) w) Error) with (listeners w Error).
  destruct (listeners w Error); [done|].
  apply (call_listeners_result _ ev (set_emitted _ w)).
Qed.

Lemma try_emit_console kind ev tag w :
  console (try_emit kind ev tag w)
  = console w ++ match emit_thrown kind (listeners w kind) ev with
                 | Some x => [(tag, x)]
                 | None => []
                 end.
Proof.
  unfold try_emit. destruct (emit_result kind ev w) as [H1 H2].
  destruct (emit kind ev w) as [[x|] w1]; simpl in *; rewrite <- H1, H2; [done|].
  by rewrite app_nil_r.
Qed.

Lemma try_emit_Notified kind ev tag w0 :
  isProcessing w0 = true →
  Notified kind ev tag w0 (set_isProcessing false (try_emit kind ev tag w0)).
Proof.
  intros Hp. pose proof (try_emit_gated kind ev tag w0 Hp) as Hg.
  split; simpl; try (by destruct Hg).
  - apply try_emit_emitted.
  - apply try_emit_console.
  - destruct (grown_queue _ _ Hg) as (items & Hq & _). by exists items.
Qed.

Lemma first_thrown_emit_thrown kind ls ev x :
  first_thrown ls ev = Some x → emit_thrown kind ls ev = Some x.
Proof. destruct kind, ls; done. Qed.

Lemma _handleError_emitted i e w active :
  activeRequests w !! i = Some active →
  emitted (_handleError i e w) = emitted w ++ [EvError i (requestData active) e].
Proof.
  intros Hl. unfold _handleError. rewrite Hl.
  by rewrite _scheduleNextProcess_emitted; simpl; rewrite try_emit_emitted.
Qed.

(** Resume scheduling with a request waiting. *)
Lemma _scheduleNextProcess_next w currentReq rest :
  Resolved w → queue w = currentReq :: rest →
  let w' := _scheduleNextProcess w in
  match positive_delay (sendingDelay w) with
  | None =>
      isProcessing w' = true ∧ queue w' = rest ∧ jobs w' = jobs w ++ [currentReq] ∧
      activeRequests w' = {[ id currentReq := {| timer := nextHandle w;
                                                 requestData := request currentReq |} ]}
  | Some d =>
      isProcessing w' = false ∧ isDelaying w' = true ∧ queue w' = queue w ∧
      timers w' = [{| handle := nextHandle w; delay := d; callback := OnDelayElapsed |}]
  end.
Proof.
  intros [Hp Hd Ha Ht] Hq w'. subst w'. unfold _scheduleNextProcess. rewrite Hq. simpl.
  destruct (positive_delay (sendingDelay w)) as [d|].
  - simpl. by rewrite Ht, Hq.
  - rewrite (_tryProcessNext_admission _ currentReq rest); try done. simpl.
    by rewrite Ha.
Qed.

Lemma _tryProcessNext_Resolved_active w j a :
  Resolved w → activeRequests (_tryProcessNext w) !! j = Some a →
  jobs (_tryProcessNext w) = jobs w ++ [{| id := j; request := requestData a |}].
Proof.
  intros [Hp Hd Ha Ht]. destruct (queue w) as [|[i r] rest] eqn:Hq.
  - rewrite _tryProcessNext_empty by done. by rewrite Ha, lookup_empty.
  - rewrite (_tryProcessNext_admission _ _ _ Hp Hd Hq). simpl. rewrite Ha.
    rewrite insert_empty. intros [<- <-]%lookup_singleton_Some. done.
Qed.

Lemma _scheduleNextProcess_Resolved_active w j a :
  Resolved w → activeRequests (_scheduleNextProcess w) !! j = Some a →
  jobs (_scheduleNextProcess w) = jobs w ++ [{| id := j; request := requestData a |}].
Proof.
  intros Hr. unfold _scheduleNextProcess. case_bool_decide.
  { destruct Hr as [_ _ Ha _]. by rewrite Ha, lookup_empty. }
  destruct (positive_delay (sendingDelay w)).
  - simpl. destruct Hr as [_ _ Ha _]. by rewrite Ha, lookup_empty.
  - by apply _tryProcessNext_Resolved_active.
Qed.

(* --------------------------------------------------------------------- *)
(* Which request a notification resolves                                 *)
(* --------------------------------------------------------------------- *)

Lemma Matched_grow w w' items :
  emitted w' = emitted w → activeRequests w' = activeRequests w →
  enqueued w' = enqueued w ++ items →
  Matched w → Matched w'.
Proof.
  intros E1 E2 E3 [H1 H2]. split; rewrite ?E1, ?E2, ?E3.
  - intros j ev Hj. destruct (H1 j ev Hj) as (item & Hi & Hr).
    exists item. split; [by apply lookup_app_l_Some|done].
  - intros i a Hl. by apply lookup_app_l_Some, H2.
Qed.

Lemma Matched_ext w w' :
  emitted w' = emitted w → activeRequests w' = activeRequests w →
  enqueued w' = enqueued w → Matched w → Matched w'.
Proof.
  intros E1 E2 E3. apply (Matched_grow w w' []); try done. by rewrite app_nil_r.
Qed.

Lemma _tryProcessNext_Matched w :
  Logged w → Counted w → (isProcessing w = false → activeRequests w = ∅) →
  Matched w → Matched (_tryProcessNext w).
Proof.
  intros HL HC Hidle HM.
  destruct (isProcessing w) eqn:Hp; [by rewrite _tryProcessNext_gated by (by rewrite Hp)|].
  destruct (isDelaying w) eqn:Hd; [by rewrite _tryProcessNext_gated by (by rewrite Hp, Hd)|].
  destruct (queue w) as [|[i r] rest] eqn:Hq; [by rewrite _tryProcessNext_empty|].
  rewrite (_tryProcessNext_admission _ _ _ Hp Hd Hq).
  destruct HM as [H1 H2]. split; simpl; [done|].
  rewrite (Hidle eq_refl), insert_empty. intros j a [<- <-]%lookup_singleton_Some. simpl.
  rewrite <- (logged_fifo _ HL), Hq, app_assoc.
  apply list_lookup_middle. unfold Counted in HC. rewrite Hp in HC.
  unfold sent. rewrite length_app, length_map. lia.
Qed.

Lemma addRequest_Matched oRequest w :
  Inv w → Matched w → Matched (addRequest oRequest w).2.
Proof.
  intros [HP HL HC] HM. rewrite addRequest_result. cbv zeta.
  change ((?a, ?b).2) with b.
  apply _tryProcessNext_Matched.
  - by apply pushed_Logged.
  - done.
  - simpl. by apply Phase_idle_empty.
  - by eapply Matched_grow; [..|exact HM].
Qed.

(** The state in which a resolution enters resume scheduling, seen from
    the state [w] in which the resolution began with the entry [(i, a)]. *)
Lemma resolved_state kind ev tag w w0 i a :
  Inv w → Matched w → activeRequests w !! i = Some a →
  resolves ev {| id := i; request := requestData a |} →
  Resolving w0 →
  calls w0 = calls w → jobs w0 = jobs w → queue w0 = queue w →
  enqueued w0 = enqueued w → emitted w0 = emitted w →
  maxId w0 = maxId w → requestCounter w0 = requestCounter w →
  let w2 := set_isProcessing false (try_emit kind ev tag w0) in
  Resolved w2 ∧ Logged w2 ∧ Counted w2 ∧ Matched w2.
Proof.
  intros [HP HL HC] [H1 H2] Hl Hres Hr0 E1 E2 E3 E4 E5 E6 E7 w2.
  pose proof (try_emit_gated kind ev tag w0 (resolving_processing _ Hr0)) as Hg.
  pose proof (try_emit_emitted kind ev tag w0) as He.
  destruct (Phase_active _ _ _ HP Hl) as (Hp & _).
  destruct (grown_queue _ _ Hg) as (items & Hq & Henq).
  split; [|split; [|split]].
  - destruct (Resolving_Grown _ _ Hr0 Hg). by split.
  - apply (Logged_ext (try_emit kind ev tag w0)); try done.
    apply try_emit_Logged. by apply (Logged_ext w).
  - unfold Counted in *. subst w2. simpl.
    rewrite He, (grown_calls _ _ Hg), (grown_jobs _ _ Hg), E1, E2, E5, length_app.
    rewrite Hp in HC. simpl. lia.
  - split; subst w2; simpl.
    + rewrite He, Henq, E4, E5. intros j ev' [[Hlt Hj]|[-> <-]]%lookup_snoc_Some.
      * destruct (H1 j ev' Hj) as (item & Hi & Hr).
        exists item. split; [by apply lookup_app_l_Some|done].
      * eexists. split; [apply lookup_app_l_Some, (H2 i a Hl)|done].
    + rewrite (grown_activeRequests _ _ Hg), (resolving_active _ Hr0).
      intros j b. by rewrite lookup_empty.
Qed.

Lemma _scheduleNextProcess_Matched w :
  Resolved w → Logged w → Counted w → Matched w → Matched (_scheduleNextProcess w).
Proof.
  intros Hr HL HC HM. unfold _scheduleNextProcess. case_bool_decide; [done|].
  destruct (positive_delay (sendingDelay w)).
  - by apply (Matched_ext w).
  - apply _tryProcessNext_Matched; try done. intros _. by destruct Hr.
Qed.

Lemma resolution_Matched kind ev tag w w0 i a :
  Inv w → Matched w → activeRequests w !! i = Some a →
  resolves ev {| id := i; request := requestData a |} →
  Resolving w0 →
  calls w0 = calls w → jobs w0 = jobs w → queue w0 = queue w →
  enqueued w0 = enqueued w → emitted w0 = emitted w →
  maxId w0 = maxId w → requestCounter w0 = requestCounter w →
  Matched (_scheduleNextProcess (set_isProcessing false (try_emit kind ev tag w0))).
Proof.
  intros HI HM Hl Hres Hr0 E1 E2 E3 E4 E5 E6 E7.
  destruct (resolved_state kind ev tag w w0 i a) as (? & ? & ? & ?); try done.
  by apply _scheduleNextProcess_Matched.
Qed.

Lemma _handleError_Matched i e w : Inv w → Matched w → Matched (_handleError i e w).
Proof.
  intros HI HM. unfold _handleError.
  destruct (activeRequests w !! i) as [active|] eqn:Hl; [|done].
  apply (resolution_Matched _ _ _ w _ i active); try done.
  apply clearTimeout_active_Resolving; [by destruct HI|done].
Qed.

Lemma _handleResponse_Matched currentResp w :
  Inv w → Matched w →
  match _handleResponse currentResp w with
  | Returned w' => Matched w'
  | Threw _ w' => w' = w
  end.
Proof.
  intros HI HM. unfold _handleResponse.
  destruct (get_prop currentResp "id") as [respId|] eqn:Hid; [|done].
  destruct (map_get respId (activeRequests w)) as [active|] eqn:Hl; [|done].
  destruct (if _ && _ then _ else _) as [[|]|]; [|done|done].
  destruct respId as [| | |i| | |]; try done. simpl in Hl.
  apply (resolution_Matched _ _ _ w _ i active); try done.
  apply clearTimeout_active_Resolving; [by destruct HI|done].
Qed.

Lemma step_Matched i w w' : Inv w → Matched w → step i w = Some w' → Matched w'.
Proof.
  intros HI HM. destruct i as [p|k l|k| |i o|h]; unfold step.
  - intros [= <-]. by apply addRequest_Matched.
  - intros [= <-]. by apply (Matched_ext w).
  - intros [= <-]. by apply (Matched_ext w).
  - unfold run_job. destruct (jobs w); [done|]. intros [= <-]. by apply (Matched_ext w).
  - unfold settle. destruct (calls w !! i) as [c|] eqn:Hl; [|done].
    destruct (settled c); [done|]. cbv zeta.
    set (w1 := set_calls _ w).
    assert (Inv w1) as HI1.
    { destruct HI as [HP HL HC]. split.
      - by apply (Phase_ext w).
      - destruct HL as [Hf Hc Hi]. split; simpl; try done.
        unfold sent in *. simpl. by rewrite (sent_insert_settled i c).
      - unfold Counted in *. simpl. by rewrite length_insert. }
    assert (Matched w1) as HM1 by (by apply (Matched_ext w)).
    clearbody w1. destruct o as [currentResp|e].
    + pose proof (_handleResponse_Matched currentResp w1 HI1 HM1) as Hr.
      destruct (_handleResponse currentResp w1) as [w2|e w2]; intros [= <-]; [done|].
      subst w2. by apply _handleError_Matched.
    + intros [= <-]. by apply _handleError_Matched.
  - unfold fire. destruct (List.find _ (timers w)) as [t|] eqn:Hf; [|done]. intros [= <-].
    pose proof (inv_phase _ HI) as HP.
    destruct HP as [Hp Hd Ha Ht Hq|i a Hp Hd Ha Ht|h' d Hp Hd Ha Ht Hsd Hq].
    + by rewrite Ht in Hf.
    + rewrite Ht in Hf. apply find_only_timer in Hf as [-> Hh]. simpl in Hh. subst h.
      simpl. unfold _handleTimeout.
      change (activeRequests (clearTimeout (timer a) w)) with (activeRequests w).
      assert (activeRequests w !! i = Some a) as Hl by (by rewrite Ha, lookup_singleton_eq).
      rewrite Hl.
      apply (resolution_Matched _ _ _ w _ i a); try done.
      split; simpl; try done.
      * rewrite Ha. apply delete_singleton_eq.
      * rewrite Ht. apply (clear_only_timer (timeout_timer w i a)).
    + rewrite Ht in Hf. apply find_only_timer in Hf as [-> Hh]. simpl.
      destruct HI as [_ HL HC].
      apply _tryProcessNext_Matched.
      * by apply (Logged_ext w).
      * done.
      * done.
      * by apply (Matched_ext w).
Qed.

Lemma run_Matched tr w w' : Inv w → Matched w → run tr w = Some w' → Matched w'.
Proof.
  revert w. induction tr as [|i tr IH]; intros w HI HM; simpl.
  - by intros [= <-].
  - destruct (step i w) as [w1|] eqn:Hs; [|done].
    apply IH; [by eapply step_Inv|by eapply step_Matched].
Qed.

Lemma constructor_Matched mx td sd : Matched (constructor mx td sd).
Proof. split; simpl; done. Qed.

(* --------------------------------------------------------------------- *)
(* The current class without a delay is the earlier class                *)
(* --------------------------------------------------------------------- *)

Section Equivalence.
Variable sd : option Z.
Hypothesis no_delay : positive_delay sd = None.

Lemma _tryProcessNext_of_legacy l :
  _tryProcessNext (of_legacy sd l) = of_legacy sd (Legacy._tryProcessNext l).
Proof.
  unfold _tryProcessNext, Legacy._tryProcessNext. simpl.
  rewrite orb_false_r. destruct (Legacy.isProcessing l); [done|].
  case_bool_decide; [done|]. simpl.
  destruct (Legacy.queue l); [done|]. unfold of_legacy. simpl. by rewrite fmap_app.
Qed.

Lemma filter_of_legacy h (ts : list Legacy.Timer) :
  filter (λ t, handle t ≠ h) (of_legacy_timer <$> ts)
  = of_legacy_timer <$> filter (λ t, Legacy.handle t ≠ h) ts.
Proof.
  induction ts as [|t ts IH]; [done|].
  rewrite fmap_cons, !filter_cons, IH. simpl. by repeat case_decide.
Qed.

Lemma clearTimeout_of_legacy h l :
  clearTimeout h (of_legacy sd l) = of_legacy sd (Legacy.clearTimeout h l).
Proof.
  unfold clearTimeout, Legacy.clearTimeout, of_legacy. simpl.
  by rewrite filter_of_legacy.
Qed.

Lemma addRequest_of_legacy p l :
  addRequest p (of_legacy sd l)
  = ((Legacy.addRequest p l).1, of_legacy sd (Legacy.addRequest p l).2).
Proof.
  unfold addRequest, Legacy.addRequest, _generateId, Legacy._generateId. simpl.
  destruct (Legacy.requestCounter l <? Legacy.maxId l); simpl;
    by rewrite <- _tryProcessNext_of_legacy.
Qed.

Lemma run_reentrant_of_legacy ps l :
  run_reentrant ps (of_legacy sd l) = of_legacy sd (Legacy.run_reentrant ps l).
Proof.
  revert l. induction ps as [|p ps IH]; intros l; [done|].
  etrans; [|apply (IH (Legacy.addRequest p l).2)].
  change (run_reentrant (p :: ps) (of_legacy sd l))
    with (run_reentrant ps (addRequest p (of_legacy sd l)).2).
  by rewrite addRequest_of_legacy.
Qed.

Lemma call_listeners_of_legacy ls ev l :
  call_listeners ls ev (of_legacy sd l)
  = ((Legacy.call_listeners ls ev l).1, of_legacy sd (Legacy.call_listeners ls ev l).2).
Proof.
  revert l. induction ls as [|x ls IH]; intros l; [done|]. simpl.
  rewrite run_reentrant_of_legacy. destruct (thrown (x ev)); [done|]. apply IH.
Qed.

Lemma emit_of_legacy kind ev l :
  emit kind ev (of_legacy sd l)
  = ((Legacy.emit kind ev l).1, of_legacy sd (Legacy.emit kind ev l).2).
Proof.
  unfold emit, Legacy.emit. cbv zeta.
  change (set_emitted (emitted (of_legacy sd l) ++ [ev]) (of_legacy sd l))
    with (of_legacy sd (Legacy.set_emitted (Legacy.emitted l ++ [ev]) l)).
  set (l' := Legacy.set_emitted _ l).
  change (listeners (of_legacy sd l') kind) with (Legacy.listeners l' kind).
  destruct kind; try apply call_listeners_of_legacy.
  change (listeners (of_legacy sd l') Error) with (Legacy.listeners l' Error).
  destruct (Legacy.listeners l' Error); [done|apply call_listeners_of_legacy].
Qed.

Lemma try_emit_of_legacy kind ev tag l :
  try_emit kind ev tag (of_legacy sd l) = of_legacy sd (Legacy.try_emit kind ev tag l).
Proof.
  unfold try_emit, Legacy.try_emit. rewrite emit_of_legacy.
  by destruct (Legacy.emit kind ev l) as [[e|] l1].
Qed.

Lemma _scheduleNextProcess_of_legacy l :
  _scheduleNextProcess (of_legacy sd l) = of_legacy sd (Legacy._tryProcessNext l).
Proof.
  unfold _scheduleNextProcess. simpl. rewrite no_delay.
  case_bool_decide as Hq; [|apply _tryProcessNext_of_legacy].
  unfold Legacy._tryProcessNext. destruct (Legacy.isProcessing l); [done|].
  by rewrite bool_decide_true.
Qed.

Lemma resolution_of_legacy kind ev tag l :
  _scheduleNextProcess (set_isProcessing false (try_emit kind ev tag (of_legacy sd l)))
  = of_legacy sd
      (Legacy._tryProcessNext (Legacy.set_isProcessing false (Legacy.try_emit kind ev tag l))).
Proof.
  rewrite try_emit_of_legacy.
  apply (_scheduleNextProcess_of_legacy (Legacy.set_isProcessing false _)).
Qed.

Lemma _handleTimeout_of_legacy i l :
  _handleTimeout i (of_legacy sd l) = of_legacy sd (Legacy._handleTimeout i l).
Proof.
  unfold _handleTimeout, Legacy._handleTimeout.
  change (activeRequests (of_legacy sd l)) with (Legacy.activeRequests l).
  destruct (Legacy.activeRequests l !! i) as [active|]; [|done].
  apply (resolution_of_legacy _ _ _ (Legacy.set_activeRequests _ l)).
Qed.

Lemma _handleError_of_legacy i e l :
  _handleError i e (of_legacy sd l) = of_legacy sd (Legacy._handleError i e l).
Proof.
  unfold _handleError, Legacy._handleError.
  change (activeRequests (of_legacy sd l)) with (Legacy.activeRequests l).
  destruct (Legacy.activeRequests l !! i) as [active|]; [|done].
  cbv zeta. rewrite clearTimeout_of_legacy.
  apply (resolution_of_legacy _ _ _
           (Legacy.set_activeRequests _ (Legacy.clearTimeout (timer active) l))).
Qed.

Lemma _handleResponse_of_legacy currentResp l :
  _handleResponse currentResp (of_legacy sd l)
  = of_legacy_completion sd (Legacy._handleResponse currentResp l).
Proof.
  unfold _handleResponse, Legacy._handleResponse.
  change (activeRequests (of_legacy sd l)) with (Legacy.activeRequests l).
  destruct (get_prop currentResp "id") as [respId|]; [|done].
  destruct (map_get respId (Legacy.activeRequests l)) as [active|]; [|done].
  destruct (if _ && _ then _ else _) as [[|]|]; [|done|done]. cbv zeta. rewrite clearTimeout_of_legacy.
  unfold of_legacy_completion. f_equal.
  apply (resolution_of_legacy _ _ _
           (Legacy.set_activeRequests _ (Legacy.clearTimeout (timer active) l))).
Qed.

Lemma find_of_legacy h (ts : list Legacy.Timer) :
  List.find (λ t, Nat.eqb (handle t) h) (of_legacy_timer <$> ts)
  = of_legacy_timer <$> List.find (λ t, Nat.eqb (Legacy.handle t) h) ts.
Proof.
  induction ts as [|t ts IH]; [done|]. simpl.
  by destruct (Nat.eqb (Legacy.handle t) h).
Qed.

Lemma step_of_legacy i l :
  step i (of_legacy sd l) = of_legacy sd <$> Legacy.step i l.
Proof.
  destruct i as [p|k x|k| |i o|h]; unfold step, Legacy.step.
  - by rewrite addRequest_of_legacy.
  - done.
  - done.
  - unfold run_job, Legacy.run_job. simpl. by destruct (Legacy.jobs l).
  - unfold settle, Legacy.settle.
    change (calls (of_legacy sd l)) with (Legacy.calls l).
    destruct (Legacy.calls l !! i) as [c|]; [|done].
    destruct (settled c); [done|]. cbv zeta.
    set (l1 := Legacy.set_calls _ l).
    change (set_calls _ (of_legacy sd l)) with (of_legacy sd l1).
    destruct o as [currentResp|e].
    + rewrite _handleResponse_of_legacy.
      destruct (Legacy._handleResponse currentResp l1) as [l2|e l2]; simpl; [done|].
      by rewrite _handleError_of_legacy.
    + simpl. by rewrite _handleError_of_legacy.
  - unfold fire, Legacy.fire.
    change (timers (of_legacy sd l)) with (of_legacy_timer <$> Legacy.timers l).
    rewrite find_of_legacy.
    destruct (List.find _ (Legacy.timers l)) as [t|]; [|done]. simpl. f_equal.
    rewrite clearTimeout_of_legacy. apply _handleTimeout_of_legacy.
Qed.

End Equivalence.

Lemma run_of_legacy sd tr l :
  positive_delay sd = None →
  run tr (of_legacy sd l) = of_legacy sd <$> Legacy.run tr l.
Proof.
  intros Hsd. revert l. induction tr as [|i tr IH]; intros l; [done|]. simpl.
  rewrite (step_of_legacy sd Hsd). destruct (Legacy.step i l) as [l1|]; [|done]. apply IH.
Qed.

(* --------------------------------------------------------------------- *)
(* Scenarios                                                             *)
(* --------------------------------------------------------------------- *)

Lemma in_flight_reachable : reachable 2 100 None in_flight.
Proof. exists [InAddRequest (VStr "A"); InAddRequest (VStr "B")]. vm_compute. reflexivity. Qed.

(* --------------------------------------------------------------------- *)
(* Resolutions, step by step                                             *)
(* --------------------------------------------------------------------- *)

Lemma resolution_point kind ev tag w w0 i a :
  Resolving w0 →
  resolves ev {| id := i; request := requestData a |} →
  emitted w0 = emitted w → jobs w0 = jobs w → sent w0 = sent w →
  queue w0 = queue w → enqueued w0 = enqueued w → nextHandle w0 = nextHandle w →
  sendingDelay w0 = sendingDelay w → timeoutDuration w0 = timeoutDuration w →
  ResolutionOf w i a ev (set_isProcessing false (try_emit kind ev tag w0)).
Proof.
  intros Hr0 Hres E1 E2 E3 E4 E5 E6 E7 E8.
  pose proof (try_emit_gated kind ev tag w0 (resolving_processing _ Hr0)) as Hg.
  destruct (grown_queue _ _ Hg) as (items & Hq & He).
  split.
  - destruct (Resolving_Grown _ _ Hr0 Hg). by split.
  - done.
  - change (emitted (try_emit kind ev tag w0) = emitted w ++ [ev]).
    by rewrite try_emit_emitted, E1.
  - change (jobs (try_emit kind ev tag w0) = jobs w). by rewrite (grown_jobs _ _ Hg).
  - change (map currentReq (calls (try_emit kind ev tag w0)) = sent w).
    by rewrite (grown_calls _ _ Hg).
  - exists items.
    change (queue (try_emit kind ev tag w0) = queue w ++ items
            ∧ enqueued (try_emit kind ev tag w0) = enqueued w ++ items).
    by rewrite Hq, He, E4, E5.
  - change (nextHandle (try_emit kind ev tag w0) = nextHandle w).
    by rewrite (grown_nextHandle _ _ Hg).
  - change (sendingDelay (try_emit kind ev tag w0) = sendingDelay w).
    by rewrite (grown_sendingDelay _ _ Hg).
  - change (timeoutDuration (try_emit kind ev tag w0) = timeoutDuration w).
    by rewrite (grown_timeoutDuration _ _ Hg).
Qed.

Lemma _handleError_resolution i e w a :
  Phase w → activeRequests w !! i = Some a →
  ∃ w2, _handleError i e w = _scheduleNextProcess w2 ∧
        ResolutionOf w i a (EvError i (requestData a) e) w2.
Proof.
  intros HP Hl. unfold _handleError. rewrite Hl. eexists. split; [reflexivity|].
  apply resolution_point; try done. by apply clearTimeout_active_Resolving.
Qed.

Lemma _handleResponse_resolution r w :
  Phase w →
  match _handleResponse r w with
  | Returned w' =>
      w' = w ∨
      ∃ i a w2, activeRequests w !! i = Some a ∧ w' = _scheduleNextProcess w2 ∧
                ResolutionOf w i a (EvSuccess r) w2 ∧
                hasOwnProperty r "id" = Some true ∧ hasOwnProperty r "response" = Some true
  | Threw e w' =>
      w' = w ∧ ((e = TypeError ∧ get_prop r "id" = None) ∨
                (e = not_a_function ∧ hasOwnProperty r "id" = None) ∨
                (e = invalid_structure ∧ hasOwnProperty r "response" = Some false))
  end.
Proof.
  intros HP. unfold _handleResponse.
  destruct (get_prop r "id") as [respId|] eqn:Hid; [|by split; [|left]].
  destruct (map_get respId (activeRequests w)) as [a|] eqn:Hl; [|by left].
  destruct respId as [| | |i| | |]; try done. simpl in Hl.
  rewrite (structure_check _ _ Hid).
  pose proof (hasOwnProperty_id _ _ Hid) as Hown.
  destruct (hasOwnProperty r "response") as [[|]|] eqn:Hr.
  - right. exists i, a. eexists. split; [done|]. split; [reflexivity|].
    split; [|by split; [eapply Hown|]].
    apply resolution_point; try done. by apply clearTimeout_active_Resolving.
  - split; [done|]. right. by right.
  - split; [done|]. right. left. split; [done|]. by destruct (hasOwnProperty r "id").
Qed.

Lemma settle_resolution k o w w' :
  Phase w → settle k o w = Some w' →
  ∃ c, calls w !! k = Some c ∧ settled c = false ∧
       (w' = set_calls (<[k := {| currentReq := currentReq c; settled := true |}]> (calls w)) w ∨
        ∃ i a ev w2,
          activeRequests w !! i = Some a ∧ w' = _scheduleNextProcess w2 ∧
          ResolutionOf w i a ev w2 ∧ notifies (InSettle k o) ev).
Proof.
  intros HP. unfold settle. destruct (calls w !! k) as [c|] eqn:Hk; [|done].
  destruct (settled c) eqn:Hs; [done|]. cbv zeta. set (w1 := set_calls _ w).
  intros Hw'. exists c. split; [done|]. split; [done|]. revert Hw'.
  assert (Phase w1) as HP1 by (by apply (Phase_ext w)).
  assert (sent w1 = sent w) as Hsent.
  { unfold sent. simpl. by apply sent_insert_settled. }
  assert (∀ i a ev w2, ResolutionOf w1 i a ev w2 → ResolutionOf w i a ev w2) as Hpre.
  { intros i a ev w2 []. split; try done. by rewrite resolution_sent0. }
  assert (∀ e, (∀ i r, notifies (InSettle k o) (EvError i r e)) →
               _handleError (id (currentReq c)) e w1 = w1 ∨
               ∃ i a ev w2,
                 activeRequests w !! i = Some a ∧
                 _handleError (id (currentReq c)) e w1 = _scheduleNextProcess w2 ∧
                 ResolutionOf w i a ev w2 ∧ notifies (InSettle k o) ev) as Herr.
  { intros e Hn.
    destruct (activeRequests w1 !! id (currentReq c)) as [a|] eqn:Hl.
    - right. destruct (_handleError_resolution _ e w1 a HP1 Hl) as (w2 & -> & Hr).
      exists (id (currentReq c)), a. eexists. exists w2. split; [done|].
      split; [done|]. split; [by apply Hpre|apply Hn].
    - left. unfold _handleError. by rewrite Hl. }
  destruct o as [r|e].
  - pose proof (_handleResponse_resolution r w1 HP1) as Hresp.
    destruct (_handleResponse r w1) as [w2|e w2].
    + intros [= <-]. destruct Hresp as [->|(i & a & w3 & Hl & -> & Hr & Hi & Hrp)]; [by left|].
      right. exists i, a, (EvSuccess r), w3. split; [done|]. split; [done|].
      split; [by apply Hpre|done].
    + destruct Hresp as [-> Hcause]. intros [= <-]. apply Herr. by intros.
  - intros [= <-]. by apply Herr.
Qed.

Lemma fire_resolution h w w' :
  Phase w → fire h w = Some w' →
  (∃ d, isDelaying w = true ∧
        timers w = [{| handle := h; delay := d; callback := OnDelayElapsed |}] ∧
        w' = _tryProcessNext (set_isDelaying false (clearTimeout h w)) ∧
        Resolved (set_isDelaying false (clearTimeout h w)) ∧ queue w ≠ []) ∨
  (∃ i a w2,
     activeRequests w !! i = Some a ∧ h = timer a ∧ w' = _scheduleNextProcess w2 ∧
     ResolutionOf w i a (EvTimeout i (requestData a) timed_out) w2).
Proof.
  intros HP. unfold fire.
  destruct (List.find _ (timers w)) as [t|] eqn:Hf; [|done]. intros [= <-].
  destruct HP as [Hp Hd Ha Ht Hq|i a Hp Hd Ha Ht|h' d Hp Hd Ha Ht Hsd Hq].
  - by rewrite Ht in Hf.
  - rewrite Ht in Hf. apply find_only_timer in Hf as [-> Hh]. simpl in Hh. subst h.
    assert (activeRequests w !! i = Some a) as Hl by (by rewrite Ha, lookup_singleton_eq).
    right. exists i, a. simpl. unfold _handleTimeout.
    change (activeRequests (clearTimeout (timer a) w)) with (activeRequests w).
    rewrite Hl. eexists. split; [done|]. split; [done|]. split; [reflexivity|].
    apply resolution_point; try done.
    split; simpl; try done.
    + rewrite Ha. apply delete_singleton_eq.
    + rewrite Ht. apply (clear_only_timer (timeout_timer w i a)).
  - rewrite Ht in Hf. apply find_only_timer in Hf as [-> Hh]. simpl in Hh. subst h'.
    left. exists d. split; [done|]. split; [done|]. split; [done|]. split; [|done].
    split; simpl; try done.
    rewrite Ht. apply (clear_only_timer {| handle := h; delay := d; callback := OnDelayElapsed |}).
Qed.

(** Every step of a dispatcher in one of its phases either leaves the
    notifications as they are, or resolves the request in flight: it emits
    one notification about it and ends in resume scheduling. *)
Lemma step_resolution inp w w' :
  Phase w → step inp w = Some w' →
  emitted w' = emitted w ∨
  ∃ i a ev w2,
    activeRequests w !! i = Some a ∧ w' = _scheduleNextProcess w2 ∧
    ResolutionOf w i a ev w2 ∧ notifies inp ev.
Proof.
  intros HP. destruct inp as [p|kind l|kind| |k o|h]; unfold step.
  - intros Hs. assert (w' = (addRequest p w).2) as -> by congruence.
    left. apply addRequest_emitted.
  - intros [= <-]. by left.
  - intros [= <-]. by left.
  - unfold run_job. destruct (jobs w); [done|]. intros [= <-]. by left.
  - intros Hs. destruct (settle_resolution _ _ _ _ HP Hs) as (c & _ & _ & [->|Hr]); [by left|].
    by right.
  - intros Hs.
    destruct (fire_resolution _ _ _ HP Hs)
      as [(d & _ & _ & -> & _)|(i & a & w2 & Hl & -> & -> & Hr)].
    + left. by rewrite _tryProcessNext_emitted.
    + right. by exists i, a, (EvTimeout i (requestData a) timed_out), w2.
Qed.

(* --------------------------------------------------------------------- *)
(* Handles of timers                                                     *)
(* --------------------------------------------------------------------- *)

Lemma Fresh_ext w w' :
  timers w' = timers w → nextHandle w' = nextHandle w → Fresh w → Fresh w'.
Proof. unfold Fresh. by intros -> ->. Qed.

Lemma setTimeout_Fresh cb ms w : Fresh w → Fresh (setTimeout cb ms w).2.
Proof.
  unfold Fresh, setTimeout. simpl. intros H t [Ht|Ht]%elem_of_app.
  - specialize (H t Ht). lia.
  - apply list_elem_of_singleton in Ht as ->. simpl. lia.
Qed.

Lemma clearTimeout_Fresh h w : Fresh w → Fresh (clearTimeout h w).
Proof.
  unfold Fresh, clearTimeout. simpl. intros H t [_ Ht]%list_elem_of_filter. by apply H.
Qed.

Lemma _tryProcessNext_Fresh w : Fresh w → Fresh (_tryProcessNext w).
Proof.
  intros H. unfold _tryProcessNext. destruct (isProcessing w || isDelaying w); [done|].
  case_bool_decide; [done|]. simpl. destruct (queue w) as [|currentReq rest]; [done|].
  apply (Fresh_ext (setTimeout (OnTimeout (id currentReq)) (timeoutDuration w) w).2); try done.
  by apply setTimeout_Fresh.
Qed.

Lemma addRequest_Fresh oRequest w : Fresh w → Fresh (addRequest oRequest w).2.
Proof.
  intros H. rewrite addRequest_result. cbv zeta. change ((?a, ?b).2) with b.
  apply _tryProcessNext_Fresh. by apply (Fresh_ext w).
Qed.

Lemma run_reentrant_Fresh payloads w : Fresh w → Fresh (run_reentrant payloads w).
Proof.
  revert w. induction payloads as [|p ps IH]; intros w H; [done|].
  apply (IH (addRequest p w).2). by apply addRequest_Fresh.
Qed.

Lemma call_listeners_Fresh ls ev w : Fresh w → Fresh (call_listeners ls ev w).2.
Proof.
  revert w. induction ls as [|l ls IH]; intros w H; [done|]. simpl.
  pose proof (run_reentrant_Fresh (reentrant (l ev)) w H).
  destruct (thrown (l ev)); simpl; [done|]. by apply IH.
Qed.

Lemma emit_Fresh kind ev w : Fresh w → Fresh (emit kind ev w).2.
Proof.
  intros H. unfold emit. cbv zeta.
  assert (Fresh (set_emitted (emitted w ++ [ev]) w)) as H1 by (by apply (Fresh_ext w)).
  destruct kind; try by apply call_listeners_Fresh.
  change (listeners (set_emitted (emitted w ++ [ev]) w) Error) with (listeners w Error).
  destruct (listeners w Error); [done|]. by apply call_listeners_Fresh.
Qed.

Lemma try_emit_Fresh kind ev tag w : Fresh w → Fresh (try_emit kind ev tag w).
Proof.
  intros H. unfold try_emit. pose proof (emit_Fresh kind ev w H) as H1.
  destruct (emit kind ev w) as [[e|] w1]; simpl in *; [|done].
  by apply (Fresh_ext w1).
Qed.

Lemma _scheduleNextProcess_Fresh w : Fresh w → Fresh (_scheduleNextProcess w).
Proof.
  intros H. unfold _scheduleNextProcess. case_bool_decide; [done|].
  destruct (positive_delay (sendingDelay w)) as [d|].
  - apply (Fresh_ext (setTimeout OnDelayElapsed d w).2); try done. by apply setTimeout_Fresh.
  - by apply _tryProcessNext_Fresh.
Qed.

Lemma resolution_Fresh kind ev tag w :
  Fresh w → Fresh (_scheduleNextProcess (set_isProcessing false (try_emit kind ev tag w))).
Proof.
  intros H. apply _scheduleNextProcess_Fresh.
  by apply (Fresh_ext (try_emit kind ev tag w)); [..|apply try_emit_Fresh].
Qed.

Lemma _handleTimeout_Fresh i w : Fresh w → Fresh (_handleTimeout i w).
Proof.
  intros H. unfold _handleTimeout. destruct (activeRequests w !! i); [|done].
  apply resolution_Fresh. by apply (Fresh_ext w).
Qed.

Lemma _handleError_Fresh i e w : Fresh w → Fresh (_handleError i e w).
Proof.
  intros H. unfold _handleError. destruct (activeRequests w !! i) as [a|]; [|done].
  apply resolution_Fresh. apply (Fresh_ext (clearTimeout (timer a) w)); try done.
  by apply clearTimeout_Fresh.
Qed.

Lemma _handleResponse_Fresh r w :
  Fresh w →
  match _handleResponse r w with
  | Returned w' => Fresh w'
  | Threw _ w' => w' = w
  end.
Proof.
  intros H. unfold _handleResponse.
  destruct (get_prop r "id") as [respId|]; [|done].
  destruct (map_get respId (activeRequests w)) as [a|]; [|done].
  destruct (if _ && _ then _ else _) as [[|]|]; [|done|done].
  apply resolution_Fresh. apply (Fresh_ext (clearTimeout (timer a) w)); try done.
  by apply clearTimeout_Fresh.
Qed.

Lemma step_Fresh inp w w' : Fresh w → step inp w = Some w' → Fresh w'.
Proof.
  intros H. destruct inp as [p|kind l|kind| |k o|h]; unfold step.
  - intros Hs. assert (w' = (addRequest p w).2) as -> by congruence.
    by apply addRequest_Fresh.
  - intros [= <-]. by apply (Fresh_ext w).
  - intros [= <-]. by apply (Fresh_ext w).
  - unfold run_job. destruct (jobs w); [done|]. intros [= <-]. by apply (Fresh_ext w).
  - unfold settle. destruct (calls w !! k) as [c|]; [|done].
    destruct (settled c); [done|]. cbv zeta. set (w1 := set_calls _ w).
    assert (Fresh w1) as H1 by (by apply (Fresh_ext w)). clearbody w1.
    destruct o as [r|e].
    + pose proof (_handleResponse_Fresh r w1 H1) as Hr.
      destruct (_handleResponse r w1) as [w2|e w2]; intros [= <-]; [done|].
      subst w2. by apply _handleError_Fresh.
    + intros [= <-]. by apply _handleError_Fresh.
  - unfold fire. destruct (List.find _ (timers w)) as [t|]; [|done]. intros [= <-].
    pose proof (clearTimeout_Fresh h w H) as H1.
    destruct (callback t); simpl.
    + by apply _handleTimeout_Fresh.
    + apply _tryProcessNext_Fresh. by apply (Fresh_ext (clearTimeout h w)).
Qed.

Lemma run_Fresh tr w w' : Fresh w → run tr w = Some w' → Fresh w'.
Proof.
  revert w. induction tr as [|i tr IH]; intros w H; simpl.
  - by intros [= <-].
  - destruct (step i w) as [w1|] eqn:Hs; [|done]. apply IH. by eapply step_Fresh.
Qed.

Lemma reachable_Fresh mx td sd w : reachable mx td sd w → Fresh w.
Proof.
  intros [tr Hr]. eapply run_Fresh; [|exact Hr]. intros t Ht. by apply elem_of_nil in Ht.
Qed.

Lemma reachable_Matched mx td sd w : reachable mx td sd w → Matched w.
Proof.
  intros [tr Hr].
  exact (run_Matched _ _ _ (constructor_Inv mx td sd) (constructor_Matched mx td sd) Hr).
Qed.

(** After a resolution, the only timer that resume scheduling can arm
    carries the next handle. *)
Lemma _scheduleNextProcess_Resolved_timers w t :
  Resolved w → t ∈ timers (_scheduleNextProcess w) → handle t = nextHandle w.
Proof.
  intros [Hp Hd Ha Ht]. unfold _scheduleNextProcess. case_bool_decide as Hq.
  { rewrite Ht. by intros ?%elem_of_nil. }
  destruct (positive_delay (sendingDelay w)) as [d|].
  - simpl. rewrite Ht. simpl. by intros ->%list_elem_of_singleton.
  - destruct (queue w) as [|currentReq rest] eqn:Hq'; [done|].
    rewrite (_tryProcessNext_admission _ _ _ Hp Hd Hq'). simpl. rewrite Ht. simpl.
    by intros ->%list_elem_of_singleton.
Qed.

Lemma find_handle_None h (ts : list Timer) :
  (∀ t, t ∈ ts → handle t ≠ h) → List.find (λ t, Nat.eqb (handle t) h) ts = None.
Proof.
  induction ts as [|t ts IH]; [done|]. intros H. simpl.
  destruct (Nat.eqb_spec (handle t) h) as [E|_].
  - destruct (H t); [by left|done].
  - apply IH. intros t' Ht'. apply H. by right.
Qed.

Lemma _tryProcessNext_Resolved_timers w t :
  Resolved w → t ∈ timers (_tryProcessNext w) → handle t = nextHandle w.
Proof.
  intros [Hp Hd Ha Ht]. destruct (queue w) as [|currentReq rest] eqn:Hq.
  - rewrite _tryProcessNext_empty by done. rewrite Ht. by intros ?%elem_of_nil.
  - rewrite (_tryProcessNext_admission _ _ _ Hp Hd Hq). simpl. rewrite Ht. simpl.
    by intros ->%list_elem_of_singleton.
Qed.

Lemma _scheduleNextProcess_idle w :
  queue w = [] → _scheduleNextProcess w = w.
Proof. intros Hq. unfold _scheduleNextProcess. by rewrite Hq. Qed.

Lemma mod_succ_inj M j k :
  0 < M → (j + 1) mod M = (k + 1) mod M ↔ j mod M = k mod M.
Proof.
  intros HM. split; intros H.
  - replace j with ((j + 1) - 1) by lia. replace k with ((k + 1) - 1) by lia.
    rewrite <- (Zminus_mod_idemp_l (j + 1)), <- (Zminus_mod_idemp_l (k + 1)). by rewrite H.
  - rewrite <- (Zplus_mod_idemp_l j), <- (Zplus_mod_idemp_l k). by rewrite H.
Qed.

(* --------------------------------------------------------------------- *)
(* Requests added by listeners                                           *)
(* --------------------------------------------------------------------- *)

Lemma addRequest_gated_queue p w :
  isProcessing w = true →
  ∃ item, request item = p ∧
          queue (addRequest p w).2 = queue w ++ [item] ∧
          enqueued (addRequest p w).2 = enqueued w ++ [item].
Proof.
  intros Hp. rewrite addRequest_result. cbv zeta. change ((?a, ?b).2) with b.
  rewrite _tryProcessNext_gated by (simpl; by rewrite Hp).
  eexists. split; [|split; reflexivity]. done.
Qed.

Lemma run_reentrant_queue ps w :
  isProcessing w = true →
  ∃ items, map request items = ps ∧
           queue (run_reentrant ps w) = queue w ++ items ∧
           enqueued (run_reentrant ps w) = enqueued w ++ items.
Proof.
  revert w. induction ps as [|p ps IH]; intros w Hp.
  { exists []. by rewrite !app_nil_r. }
  destruct (addRequest_gated_queue p w Hp) as (item & Hi & Hq & He).
  pose proof (addRequest_gated p w Hp) as Hg.
  destruct (IH (addRequest p w).2) as (items & Hm & Hq' & He').
  { by rewrite (grown_isProcessing _ _ Hg). }
  exists (item :: items).
  change (run_reentrant (p :: ps) w) with (run_reentrant ps (addRequest p w).2).
  rewrite Hq', He', Hq, He, <- !app_assoc. split; [|done].
  change (request item :: map request items = p :: ps). by rewrite Hi, Hm.
Qed.

Lemma call_listeners_queue ls ev w :
  isProcessing w = true →
  ∃ items, map request items = reentrant_payloads ls ev ∧
           queue (call_listeners ls ev w).2 = queue w ++ items ∧
           enqueued (call_listeners ls ev w).2 = enqueued w ++ items.
Proof.
  revert w. induction ls as [|l ls IH]; intros w Hp.
  { exists []. by rewrite !app_nil_r. }
  destruct (run_reentrant_queue (reentrant (l ev)) w Hp) as (items & Hm & Hq & He).
  pose proof (run_reentrant_gated (reentrant (l ev)) w Hp) as Hg.
  cbn [call_listeners reentrant_payloads]. cbv zeta. destruct (thrown (l ev)).
  - exists items. by rewrite app_nil_r.
  - destruct (IH (run_reentrant (reentrant (l ev)) w)) as (items' & Hm' & Hq' & He').
    { by rewrite (grown_isProcessing _ _ Hg). }
    exists (items ++ items'). rewrite map_app, Hm, Hm', Hq', He', Hq, He, <- !app_assoc. done.
Qed.

Lemma emit_queue kind ev w :
  isProcessing w = true →
  ∃ items, map request items = reentrant_payloads (listeners w kind) ev ∧
           queue (emit kind ev w).2 = queue w ++ items ∧
           enqueued (emit kind ev w).2 = enqueued w ++ items.
Proof.
  intros Hp. unfold emit. cbv zeta.
  change (listeners (set_emitted (emitted w ++ [ev]) w) kind) with (listeners w kind).
  assert (isProcessing (set_emitted (emitted w ++ [ev]) w) = true) as Hp' by done.
  destruct kind; try apply (call_listeners_queue _ ev _ Hp').
  change (listeners (set_emitted (emitted w ++ [ev]) w) Error) with (listeners w Error).
  destruct (listeners w Error) as [|l ls] eqn:Hl.
  - exists []. simpl. by rewrite !app_nil_r.
  - apply (call_listeners_queue _ ev _ Hp').
Qed.

Lemma _handleResponse_emitted r w i a :
  get_prop r "id" = Some (VNum i) → activeRequests w !! i = Some a →
  hasOwnProperty r "response" = Some true →
  ∃ w', _handleResponse r w = Returned w' ∧ emitted w' = emitted w ++ [EvSuccess r].
Proof.
  intros Hid Hl Hr. unfold _handleResponse. rewrite Hid.
  change (map_get (VNum i) (activeRequests w)) with (activeRequests w !! i).
  rewrite Hl, (structure_check _ _ Hid), Hr. eexists. split; [reflexivity|].
  by rewrite _scheduleNextProcess_emitted; simpl; rewrite try_emit_emitted.
Qed.

(* --------------------------------------------------------------------- *)
(* Properties of the counter and of the ids handed out                   *)
(* --------------------------------------------------------------------- *)

Lemma _tryProcessNext_requestCounter w : requestCounter (_tryProcessNext w) = requestCounter w.
Proof.
  unfold _tryProcessNext. destruct (isProcessing w || isDelaying w); [done|].
  case_bool_decide; [done|]. simpl. by destruct (queue w).
Qed.

Section IdLog.
Variable Q : Z → Z → list requestItem → Prop.
Hypothesis Q_push :
  ∀ m c l p, Q m c l →
    Q m (if c <? m then c + 1 else 0)
      (l ++ [{| id := if c <? m then c + 1 else 0; request := p |}]).

Let holds (w : World) : Prop := Q (maxId w) (requestCounter w) (enqueued w).

Lemma holds_ext w w' :
  maxId w' = maxId w → requestCounter w' = requestCounter w → enqueued w' = enqueued w →
  holds w → holds w'.
Proof. unfold holds. by intros -> -> ->. Qed.

Lemma _tryProcessNext_holds w : holds w → holds (_tryProcessNext w).
Proof.
  apply holds_ext; [apply _tryProcessNext_Static|apply _tryProcessNext_requestCounter
                   |apply _tryProcessNext_enqueued].
Qed.

Lemma addRequest_holds p w : holds w → holds (addRequest p w).2.
Proof.
  intros H. rewrite addRequest_result. cbv zeta. change ((?a, ?b).2) with b.
  apply _tryProcessNext_holds. unfold holds in *. simpl. by apply Q_push.
Qed.

Lemma run_reentrant_holds ps w : holds w → holds (run_reentrant ps w).
Proof.
  revert w. induction ps as [|p ps IH]; intros w H; [done|].
  apply (IH (addRequest p w).2). by apply addRequest_holds.
Qed.

Lemma call_listeners_holds ls ev w : holds w → holds (call_listeners ls ev w).2.
Proof.
  revert w. induction ls as [|l ls IH]; intros w H; [done|]. simpl.
  pose proof (run_reentrant_holds (reentrant (l ev)) w H).
  destruct (thrown (l ev)); simpl; [done|]. by apply IH.
Qed.

Lemma emit_holds kind ev w : holds w → holds (emit kind ev w).2.
Proof.
  intros H. unfold emit. cbv zeta.
  assert (holds (set_emitted (emitted w ++ [ev]) w)) as H1 by done.
  destruct kind; try by apply call_listeners_holds.
  change (listeners (set_emitted (emitted w ++ [ev]) w) Error) with (listeners w Error).
  destruct (listeners w Error); [done|]. by apply call_listeners_holds.
Qed.

Lemma try_emit_holds kind ev tag w : holds w → holds (try_emit kind ev tag w).
Proof.
  intros H. unfold try_emit. pose proof (emit_holds kind ev w H) as H1.
  by destruct (emit kind ev w) as [[e|] w1].
Qed.

Lemma _scheduleNextProcess_holds w : holds w → holds (_scheduleNextProcess w).
Proof.
  intros H. unfold _scheduleNextProcess. case_bool_decide; [done|].
  destruct (positive_delay (sendingDelay w)); [done|]. by apply _tryProcessNext_holds.
Qed.

Lemma resolution_holds kind ev tag w :
  holds w → holds (_scheduleNextProcess (set_isProcessing false (try_emit kind ev tag w))).
Proof.
  intros H. apply _scheduleNextProcess_holds.
  by apply (holds_ext (try_emit kind ev tag w)); [..|apply try_emit_holds].
Qed.

Lemma step_holds inp w w' : holds w → step inp w = Some w' → holds w'.
Proof.
  intros H. destruct inp as [p|kind l|kind| |k o|h]; unfold step.
  - intros Hs. assert (w' = (addRequest p w).2) as -> by congruence.
    by apply addRequest_holds.
  - by intros [= <-].
  - by intros [= <-].
  - unfold run_job. destruct (jobs w); [done|]. by intros [= <-].
  - unfold settle. destruct (calls w !! k) as [c|]; [|done].
    destruct (settled c); [done|]. cbv zeta. set (w1 := set_calls _ w).
    assert (holds w1) as H1 by done. clearbody w1.
    assert (∀ e, holds (_handleError (id (currentReq c)) e w1)) as Herr.
    { intros e. unfold _handleError.
      destruct (activeRequests w1 !! id (currentReq c)); [|done]. by apply resolution_holds. }
    destruct o as [r|e]; [|by intros [= <-]].
    unfold _handleResponse. destruct (get_prop r "id") as [respId|]; [|by intros [= <-]].
    destruct (map_get respId (activeRequests w1)); [|by intros [= <-]].
    destruct (if _ && _ then _ else _) as [[|]|]; [|by intros [= <-]|by intros [= <-]].
    intros [= <-]. by apply resolution_holds.
  - unfold fire. destruct (List.find _ (timers w)) as [t|]; [|done]. intros [= <-].
    assert (holds (clearTimeout h w)) as H1 by done.
    destruct (callback t); simpl.
    + unfold _handleTimeout. destruct (activeRequests _ !! id0); [|done].
      by apply resolution_holds.
    + by apply _tryProcessNext_holds.
Qed.

Lemma run_holds tr w w' : holds w → run tr w = Some w' → holds w'.
Proof.
  revert w. induction tr as [|i tr IH]; intros w H; simpl.
  - by intros [= <-].
  - destruct (step i w) as [w1|] eqn:Hs; [|done]. apply IH. by eapply step_holds.
Qed.

Lemma reachable_holds mx td sd w :
  Q mx 0 [] → reachable mx td sd w → Q (maxId w) (requestCounter w) (enqueued w).
Proof. intros H0 [tr Hr]. by apply (run_holds tr (constructor mx td sd)). Qed.
End IdLog.

(* ===================================================================== *)
(* Part III.  The claims                                                  *)
(* ===================================================================== *)

(** The scenario of the specification runs as expected: ids 1, 2, 0;
    success for A, timeout for B, success for C. *)
Example scenario_runs :
  (λ w, (map id (enqueued w), sent w, emitted w, getQueueSize w, getActiveCount w))
    <$> run scenario (constructor 2 100 None)
  = Some ([1; 2; 0],
          [{| id := 1; request := VStr "A" |}; {| id := 2; request := VStr "B" |};
           {| id := 0; request := VStr "C" |}],
          [EvSuccess (ok_response 1); EvTimeout 2 (VStr "B") timed_out;
           EvSuccess (ok_response 0)],
          0%nat, 0%nat).
Proof. vm_compute. reflexivity. Qed.

(** The other scenario of the specification: the transport call rejects
    with the reason "network down": one error notification, and no timer
    is left to report a timeout. *)
Example rejection_runs :
  (λ w, (emitted w, timers w, console w))
    <$> run [InOn Error quiet; InAddRequest (VStr "A"); InJob;
             InSettle 0 (Rejected (VStr "network down"))]
          (constructor 2 100 None)
  = Some ([EvError 1 (VStr "A") (VStr "network down")], [], []).
Proof. vm_compute. reflexivity. Qed.

(** C1.  In every state reachable by enqueue, admission, resolution and
    delay-expiry steps the active-entry table holds at most one entry,
    isProcessing and isDelaying are not both true, and, when maxId is a
    non-negative integer, the counter is in [0, maxId]. *)
Theorem reachable_invariants mx td sd w :
  reachable mx td sd w →
  (getActiveCount w ≤ 1)%nat ∧
  ¬ (isProcessing w = true ∧ isDelaying w = true) ∧
  (0 ≤ mx → 0 ≤ requestCounter w ≤ mx).
Proof.
  intros Hr. pose proof (reachable_Inv _ _ _ _ Hr) as [HP HL _].
  destruct Hr as [tr Hr]. apply run_config in Hr as (Hmx & _ & _). simpl in Hmx.
  split; [|split].
  - unfold getActiveCount.
    destruct HP as [Hp Hd Ha Ht Hq|i a Hp Hd Ha Ht|h d Hp Hd Ha Ht Hsd Hq]; rewrite Ha.
    + rewrite map_size_empty. lia.
    + by rewrite map_size_singleton.
    + rewrite map_size_empty. lia.
  - intros [Hp Hd].
    destruct HP as [Hp' Hd' Ha Ht Hq|i a Hp' Hd' Ha Ht|h d Hp' Hd' Ha Ht Hsd Hq]; congruence.
  - intros Hmax. rewrite (logged_counter _ HL) by lia. rewrite Hmx.
    pose proof (Z.mod_pos_bound (Z.of_nat (length (enqueued w))) (mx + 1) ltac:(lia)). lia.
Qed.

(** C1 at the state with A in flight and B waiting. *)
Lemma reachable_invariants_witness :
  (getActiveCount in_flight ≤ 1)%nat ∧
  ¬ (isProcessing in_flight = true ∧ isDelaying in_flight = true) ∧
  (0 ≤ 2 → 0 ≤ requestCounter in_flight ≤ 2).
Proof. apply (reachable_invariants 2 100 None in_flight), in_flight_reachable. Defined.

(** C2.  After any sequence of addRequest calls and outcomes, the envelopes
    handed to the transport are the first ones built by addRequest, in the
    order of their creation, followed by those still waiting.  When the
    transport is invoked next, it is invoked on the next envelope in that
    order, and each envelope handed to it earlier has already been resolved:
    its notification has been emitted. *)
Theorem fifo_single_flight mx td sd tr w :
  run tr (constructor mx td sd) = Some w →
  enqueued w = sent w ++ jobs w ++ queue w ∧
  (∀ w', step InJob w = Some w' →
     ∃ req, sent w' = sent w ++ [req] ∧
            enqueued w !! length (sent w) = Some req ∧
            ∀ j : nat, (j < length (sent w))%nat →
              ∃ ev item, sent w !! j = Some item ∧ enqueued w !! j = Some item ∧
                         emitted w !! j = Some ev ∧ resolves ev item).
Proof.
  intros Hr.
  pose proof (run_Inv _ _ _ (constructor_Inv mx td sd) Hr) as HI.
  pose proof (run_Matched _ _ _ (constructor_Inv mx td sd) (constructor_Matched mx td sd) Hr)
    as [HM _].
  destruct HI as [_ [Hf _ _] HC]. split; [done|].
  intros w'. unfold step, run_job.
  destruct (jobs w) as [|req rest] eqn:Hj; [done|]. intros [= <-].
  exists req. split; [unfold sent; simpl; by rewrite map_app|].
  split; [rewrite <- Hf; by apply list_lookup_middle|].
  intros j Hlt.
  assert (j < length (emitted w))%nat as Hje.
  { unfold Counted in HC. rewrite Hj in HC. simpl in HC.
    unfold sent in Hlt. rewrite length_map in Hlt.
    destruct (isProcessing w); lia. }
  destruct (lookup_lt_is_Some_2 _ _ Hje) as [ev Hev].
  destruct (HM j ev Hev) as (item & Hi & Hres).
  exists ev, item. split; [|done].
  rewrite <- Hf, lookup_app_l in Hi; done.
Qed.

(** C2 at the state in which A is resolved and B is about to be handed to
    the transport. *)
Lemma fifo_single_flight_witness :
  let w := default (constructor 2 100 None) (run before_second_send (constructor 2 100 None)) in
  enqueued w = sent w ++ jobs w ++ queue w ∧
  (∀ w', step InJob w = Some w' →
     ∃ req, sent w' = sent w ++ [req] ∧
            enqueued w !! length (sent w) = Some req ∧
            ∀ j : nat, (j < length (sent w))%nat →
              ∃ ev item, sent w !! j = Some item ∧ enqueued w !! j = Some item ∧
                         emitted w !! j = Some ev ∧ resolves ev item).
Proof.
  apply (fifo_single_flight 2 100 None before_second_send). vm_compute. reflexivity.
Defined.

(** C3, as the code has it.  A result whose id finds the active entry but
    which fails the check of its structure makes _handleResponse throw
    without touching the state: Error('The response structure is invalid')
    when the response field is missing, the TypeError of the call itself
    when the result has a property called hasOwnProperty.  The throw does
    not leave the dispatcher: it lands in the catch of the promise chain,
    which calls _handleError with the id of the request the chain belongs
    to.  When that is the id of the active entry, an error notification
    {id, request, error} is emitted and the request is resolved as failed;
    when that id has no active entry, the exception is dropped.  (A result
    whose id equals the id of the active entry has the id property.) *)
Theorem malformed_success_routed_to_error w k c currentResp i active :
  calls w !! k = Some c → settled c = false →
  get_prop currentResp "id" = Some (VNum i) →
  activeRequests w !! i = Some active →
  hasOwnProperty currentResp "response" ≠ Some true →
  let w1 := set_calls (<[k := {| currentReq := currentReq c; settled := true |}]> (calls w)) w in
  let e := match hasOwnProperty currentResp "response" with
           | Some _ => invalid_structure
           | None => not_a_function
           end in
  (∃ props, currentResp = VObj props ∧ own "id" props = Some (VNum i)) ∧
  _handleResponse currentResp w1 = Threw e w1 ∧
  settle k (Fulfilled currentResp) w = Some (_handleError (id (currentReq c)) e w1) ∧
  (id (currentReq c) = i →
   emitted (_handleError (id (currentReq c)) e w1)
   = emitted w ++ [EvError i (requestData active) e]) ∧
  (activeRequests w !! id (currentReq c) = None →
   _handleError (id (currentReq c)) e w1 = w1).
Proof.
  intros Hk Hs Hid Hl Hr w1 e.
  assert (_handleResponse currentResp w1 = Threw e w1) as Hthrow.
  { unfold _handleResponse. rewrite Hid.
    change (map_get (VNum i) (activeRequests w1)) with (activeRequests w !! i).
    rewrite Hl, (structure_check _ _ Hid). unfold e.
    by destruct (hasOwnProperty currentResp "response") as [[|]|]. }
  split; [by apply get_prop_VNum|].
  split; [done|]. split.
  { unfold settle. rewrite Hk, Hs. cbv zeta. fold w1. by rewrite Hthrow. }
  split.
  - intros ->. by apply (_handleError_emitted _ _ w1).
  - intros Hn. unfold _handleError. simpl. by rewrite Hn.
Qed.

(** The amended C3 for the result {id: 1} while request 1 is in flight. *)
Lemma malformed_success_routed_to_error_witness :
  let w1 := set_calls [{| currentReq := {| id := 1; request := VStr "A" |}; settled := true |}]
              awaiting in
  (∃ props, no_response = VObj props ∧ own "id" props = Some (VNum 1)) ∧
  _handleResponse no_response w1 = Threw invalid_structure w1 ∧
  settle 0 (Fulfilled no_response) awaiting = Some (_handleError 1 invalid_structure w1) ∧
  (1 = 1 →
   emitted (_handleError 1 invalid_structure w1)
   = emitted awaiting ++ [EvError 1 (VStr "A") invalid_structure]) ∧
  (activeRequests awaiting !! 1 = None → _handleError 1 invalid_structure w1 = w1).
Proof.
  apply (malformed_success_routed_to_error awaiting 0
           {| currentReq := {| id := 1; request := VStr "A" |}; settled := false |}
           no_response 1 {| timer := 0; requestData := VStr "A" |});
    vm_compute; (reflexivity || discriminate).
Defined.

(** C3 as stated fails: the transport resolves with {id: 1}, which finds
    the active entry of request 1 and has no response field; the step ends
    normally, the 'error' listener has been notified for request 1 and
    nothing was thrown or logged. *)
Lemma malformed_success_counterexample :
  map_get (VNum 1) (activeRequests awaiting) = Some {| timer := 0; requestData := VStr "A" |} ∧
  get_prop no_response "id" = Some (VNum 1) ∧
  hasOwnProperty no_response "response" = Some false ∧
  (λ w, (emitted w, isProcessing w, getActiveCount w, console w))
    <$> step (InSettle 0 (Fulfilled no_response)) awaiting
  = Some ([EvError 1 (VStr "A") invalid_structure], false, 0%nat, []).
Proof. vm_compute. done. Qed.



(** N + 2 calls with N = 3, and maxId = 0. *)
Example id_sequence_3 : map (id_sequence 3) [1; 2; 3; 4; 5] = [1; 2; 3; 0; 1].
Proof. reflexivity. Qed.

Example id_sequence_0 : map (id_sequence 0) [1; 2; 3] = [0; 0; 0].
Proof. reflexivity. Qed.

(** C5, as the code has it.  While a request is in flight its timeout timer
    is armed with timeoutDuration.  Its entry stays, and nothing is emitted,
    until that timer fires or a transport call settles under its id: its own
    call, or the late one of an earlier request that had the same id.  When
    the timer fires, one timeout notification {id, request, error} is
    emitted and the entry is removed: an entry present afterwards is that of
    an envelope admitted by the resume scheduling.  A resolution, rejection
    or timer callback that finds no active entry under its id returns with
    the state unchanged and emits nothing. *)
Theorem timeout_resolution w i active :
  Phase w → activeRequests w !! i = Some active →
  timers w = [{| handle := timer active; delay := timeoutDuration w;
                 callback := OnTimeout i |}] ∧
  (∀ inp w', step inp w = Some w' →
     (activeRequests w' !! i = Some active ∧ emitted w' = emitted w ∧ timers w' = timers w) ∨
     inp = InFire (timer active) ∨
     (∃ k c o, inp = InSettle k o ∧ calls w !! k = Some c ∧ settles_under i c o)) ∧
  (∃ w', fire (timer active) w = Some w' ∧
         emitted w' = emitted w ++ [EvTimeout i (requestData active) timed_out] ∧
         ∀ j a, activeRequests w' !! j = Some a →
                jobs w' = jobs w ++ [{| id := j; request := requestData a |}]) ∧
  (∀ w0 j, activeRequests w0 !! j = None →
     _handleTimeout j w0 = w0 ∧
     (∀ e, _handleError j e w0 = w0) ∧
     (∀ currentResp, get_prop currentResp "id" = Some (VNum j) →
                     _handleResponse currentResp w0 = Returned w0)).
Proof.
  intros HP Hl. destruct (Phase_active _ _ _ HP Hl) as (Hp & Hd & Ha & Ht).
  split; [exact Ht|]. split; [|split].
  - intros inp w'. destruct inp as [p|kind l|kind| |k o|h]; unfold step.
    + intros Hs. assert (w' = (addRequest p w).2) as -> by congruence.
      left. pose proof (addRequest_gated p w Hp) as Hg.
      rewrite (grown_activeRequests _ _ Hg), (grown_timers _ _ Hg), addRequest_emitted. done.
    + intros [= <-]. by left.
    + intros [= <-]. by left.
    + unfold run_job. destruct (jobs w); [done|]. intros [= <-]. by left.
    + unfold settle. destruct (calls w !! k) as [c|] eqn:Hk; [|done].
      destruct (settled c); [done|]. cbv zeta. set (w1 := set_calls _ w).
      assert (∀ j e, j ≠ i → _handleError j e w1 = w1) as Hother.
      { intros j e Hne. unfold _handleError.
        change (activeRequests w1) with (activeRequests w).
        by rewrite Ha, lookup_singleton_ne. }
      destruct o as [currentResp|e].
      * unfold _handleResponse. change (activeRequests w1) with (activeRequests w).
        destruct (get_prop currentResp "id") as [respId|] eqn:Hid.
        -- destruct (map_get respId (activeRequests w)) as [b|] eqn:Hm.
           ++ intros _. right. right. exists k, c, (Fulfilled currentResp).
              split; [done|]. split; [done|]. left.
              destruct respId as [| | |n| | |]; try done. simpl in Hm.
              rewrite Ha in Hm. by apply lookup_singleton_Some in Hm as [-> _].
           ++ intros [= <-]. by left.
        -- destruct (decide (id (currentReq c) = i)) as [Heq|Hne].
           ++ intros _. right. right. exists k, c, (Fulfilled currentResp).
              split; [done|]. split; [done|]. by right.
           ++ rewrite (Hother _ _ Hne). intros [= <-]. by left.
      * destruct (decide (id (currentReq c) = i)) as [Heq|Hne].
        -- intros _. right. right. by exists k, c, (Rejected e).
        -- rewrite (Hother _ _ Hne). intros [= <-]. by left.
    + unfold fire. rewrite Ht. simpl.
      destruct (Nat.eqb_spec (timer active) h) as [<-|]; [|done]. intros _. right. by left.
  - unfold fire. rewrite Ht. simpl. rewrite Nat.eqb_refl.
    eexists. split; [reflexivity|]. simpl. unfold _handleTimeout.
    change (activeRequests (clearTimeout (timer active) w)) with (activeRequests w).
    rewrite Hl.
    set (w0 := set_activeRequests _ _).
    assert (Resolving w0) as Hr0.
    { split; simpl; try done.
      - rewrite Ha. apply delete_singleton_eq.
      - rewrite Ht. apply (clear_only_timer (timeout_timer w i active)). }
    pose proof (try_emit_Notified Timeout (EvTimeout i (requestData active) timed_out)
                  "emit timeout" w0 (resolving_processing _ Hr0)) as [N1 N2 N3 N4 N5 _ _ N8].
    set (w2 := set_isProcessing false _) in *.
    assert (Resolved w2) as Hr2.
    { destruct Hr0. split; congruence. }
    split.
    + by rewrite _scheduleNextProcess_emitted, N5.
    + intros j a Hj. rewrite (_scheduleNextProcess_Resolved_active w2 j a Hr2 Hj). by rewrite N8.
  - intros w0 j Hn. split; [|split].
    + unfold _handleTimeout. by rewrite Hn.
    + intros e. unfold _handleError. by rewrite Hn.
    + intros currentResp Hid. unfold _handleResponse. rewrite Hid. simpl. by rewrite Hn.
Qed.

(** The amended C5 for request 1 in flight. *)
Lemma timeout_resolution_witness :
  timers awaiting = [{| handle := 0; delay := 100; callback := OnTimeout 1 |}] ∧
  (∀ inp w', step inp awaiting = Some w' →
     (activeRequests w' !! 1 = Some {| timer := 0; requestData := VStr "A" |} ∧
      emitted w' = emitted awaiting ∧ timers w' = timers awaiting) ∨
     inp = InFire 0 ∨
     (∃ k c o, inp = InSettle k o ∧ calls awaiting !! k = Some c ∧ settles_under 1 c o)) ∧
  (∃ w', fire 0 awaiting = Some w' ∧
         emitted w' = emitted awaiting ++ [EvTimeout 1 (VStr "A") timed_out] ∧
         ∀ j a, activeRequests w' !! j = Some a →
                jobs w' = jobs awaiting ++ [{| id := j; request := requestData a |}]) ∧
  (∀ w0 j, activeRequests w0 !! j = None →
     _handleTimeout j w0 = w0 ∧
     (∀ e, _handleError j e w0 = w0) ∧
     (∀ currentResp, get_prop currentResp "id" = Some (VNum j) →
                     _handleResponse currentResp w0 = Returned w0)).
Proof.
  apply (timeout_resolution awaiting 1 {| timer := 0; requestData := VStr "A" |}).
  - apply (inv_phase awaiting), (reachable_Inv 2 100 None).
    exists [InOn Error quiet; InAddRequest (VStr "A"); InJob]. vm_compute. reflexivity.
  - vm_compute. reflexivity.
Defined.

(** C5 as stated fails when an id is in use again.  After [late_resolution]
    the transport call of C has never settled, yet the late result of A has
    taken the entry of C: a success notification was emitted, the timeout
    timer of C is cleared, and no timeout notification for C can follow. *)
Lemma late_resolution_counterexample :
  (λ w, (calls w, emitted w, timers w, getActiveCount w, isProcessing w))
    <$> run late_resolution (constructor 1 100 None)
  = Some ([{| currentReq := {| id := 1; request := VStr "A" |}; settled := true |};
           {| currentReq := {| id := 0; request := VStr "B" |}; settled := true |};
           {| currentReq := {| id := 1; request := VStr "C" |}; settled := false |}],
          [EvTimeout 1 (VStr "A") timed_out; EvSuccess (ok_response 0);
           EvSuccess (ok_response 1)],
          [], 0%nat, false).
Proof. vm_compute. reflexivity. Qed.

(** C6.  An admission attempt returns with the state unchanged when
    isProcessing or isDelaying holds or the queue is empty; otherwise it
    sets isProcessing, removes exactly the head of the queue, arms a timer
    of timeoutDuration whose callback is the timeout of that id, records
    the active entry under that id, and queues the transport call without
    making it. *)
Theorem _tryProcessNext_spec w :
  (isProcessing w = true ∨ isDelaying w = true ∨ queue w = [] → _tryProcessNext w = w) ∧
  (∀ currentReq rest,
     isProcessing w = false → isDelaying w = false → queue w = currentReq :: rest →
     let w' := _tryProcessNext w in
     isProcessing w' = true ∧
     queue w' = rest ∧
     timers w' = timers w ++ [{| handle := nextHandle w; delay := timeoutDuration w;
                                 callback := OnTimeout (id currentReq) |}] ∧
     activeRequests w' = <[id currentReq := {| timer := nextHandle w;
                                              requestData := request currentReq |}]>
                           (activeRequests w) ∧
     jobs w' = jobs w ++ [currentReq] ∧
     calls w' = calls w ∧
     isDelaying w' = false ∧ requestCounter w' = requestCounter w ∧
     emitted w' = emitted w ∧ enqueued w' = enqueued w).
Proof.
  split.
  - intros [Hp|[Hd|Hq]].
    + apply _tryProcessNext_gated. by rewrite Hp.
    + apply _tryProcessNext_gated. rewrite Hd. apply orb_true_r.
    + by apply _tryProcessNext_empty.
  - intros currentReq rest Hp Hd Hq w'. subst w'.
    rewrite (_tryProcessNext_admission _ _ _ Hp Hd Hq). simpl. by rewrite Hd.
Qed.

(** An attempt while request A is in flight, and an attempt of an idle
    dispatcher with B at the head of its queue. *)
Lemma _tryProcessNext_spec_witness :
  let w := set_queue [{| id := 2; request := VStr "B" |}] (constructor 2 100 None) in
  let w' := _tryProcessNext w in
  _tryProcessNext in_flight = in_flight ∧
  isProcessing w' = true ∧
  queue w' = [] ∧
  timers w' = [{| handle := 0; delay := 100; callback := OnTimeout 2 |}] ∧
  activeRequests w' = <[2 := {| timer := 0; requestData := VStr "B" |}]> ∅ ∧
  jobs w' = [{| id := 2; request := VStr "B" |}] ∧
  calls w' = [].
Proof.
  intros w w'. split.
  - apply (proj1 (_tryProcessNext_spec in_flight)). left. vm_compute. reflexivity.
  - destruct (proj2 (_tryProcessNext_spec w) {| id := 2; request := VStr "B" |} []
                eq_refl eq_refl eq_refl)
      as (H1 & H2 & H3 & H4 & H5 & H6 & _).
    split; [exact H1|]. split; [exact H2|]. split; [exact H3|]. split; [exact H4|].
    split; [exact H5|exact H6].
Defined.

(** C7.  Resume scheduling, entered after a resolution has cleared
    isProcessing.  With sendingDelay > 0 and a non-empty queue it sets
    isDelaying and arms a one-shot timer of sendingDelay; nothing is
    admitted until that timer fires, whose callback clears isDelaying first
    and then attempts the admission, which takes the head of the queue.
    Without a positive delay, or with an empty queue, it is the admission
    attempt itself. *)
Theorem _scheduleNextProcess_spec w :
  (∀ d currentReq rest,
     sendingDelay w = Some d → 0 < d → queue w = currentReq :: rest →
     let w' := _scheduleNextProcess w in
     let delay_timer := {| handle := nextHandle w; delay := d; callback := OnDelayElapsed |} in
     isDelaying w' = true ∧
     timers w' = timers w ++ [delay_timer] ∧
     queue w' = queue w ∧ jobs w' = jobs w ∧ calls w' = calls w ∧
     activeRequests w' = activeRequests w ∧ isProcessing w' = isProcessing w ∧
     _tryProcessNext w' = w' ∧
     (∀ w0, run_callback OnDelayElapsed w0 = _tryProcessNext (set_isDelaying false w0)) ∧
     (Resolved w →
      ∃ w'', fire (nextHandle w) w' = Some w'' ∧
             timers w'' = [{| handle := S (nextHandle w); delay := timeoutDuration w;
                              callback := OnTimeout (id currentReq) |}] ∧
             isDelaying w'' = false ∧ isProcessing w'' = true ∧
             queue w'' = rest ∧ jobs w'' = jobs w ++ [currentReq])) ∧
  (sendingDelay w = None ∨ (∃ d, sendingDelay w = Some d ∧ d ≤ 0) ∨ queue w = [] →
   _scheduleNextProcess w = _tryProcessNext w).
Proof.
  split.
  - intros d currentReq rest Hsd Hd Hq w' delay_timer. subst w'.
    assert (positive_delay (sendingDelay w) = Some d) as Hpd by (by apply positive_delay_Some).
    unfold _scheduleNextProcess. rewrite Hq, Hpd. simpl.
    repeat (split; [done|]).
    split; [apply _tryProcessNext_gated; simpl; apply orb_true_r|].
    split; [done|].
    intros [Hp _ _ Ht]. unfold fire. simpl. rewrite Ht. simpl.
    rewrite Nat.eqb_refl. eexists. split; [reflexivity|]. simpl.
    rewrite (_tryProcessNext_admission _ currentReq rest); simpl; try done.
    rewrite filter_cons. simpl.
    case_decide; [done|]. by rewrite filter_nil.
  - intros [Hsd|[(d & Hsd & Hd)|Hq]].
    + unfold _scheduleNextProcess. rewrite Hsd. simpl.
      case_bool_decide as Hq; [|done].
      symmetry. apply _tryProcessNext_empty. by apply length_zero_iff_nil.
    + assert (positive_delay (sendingDelay w) = None) as Hpd.
      { apply positive_delay_None. right. by exists d. }
      unfold _scheduleNextProcess. rewrite Hpd.
      case_bool_decide as Hq; [|done].
      symmetry. apply _tryProcessNext_empty. by apply length_zero_iff_nil.
    + unfold _scheduleNextProcess. rewrite Hq. simpl.
      symmetry. by apply _tryProcessNext_empty.
Qed.

(** A resolution of request A has just cleared isProcessing, B waits, and
    the dispatcher was built with sendingDelay = 50. *)
Lemma _scheduleNextProcess_spec_witness :
  let w := set_queue [{| id := 2; request := VStr "B" |}] (constructor 2 100 (Some 50)) in
  let w' := _scheduleNextProcess w in
  isDelaying w' = true ∧
  timers w' = [{| handle := 0; delay := 50; callback := OnDelayElapsed |}] ∧
  queue w' = queue w ∧ jobs w' = jobs w ∧
  _tryProcessNext w' = w' ∧
  ∃ w'', fire 0 w' = Some w'' ∧
         timers w'' = [{| handle := 1; delay := 100; callback := OnTimeout 2 |}] ∧
         isDelaying w'' = false ∧ isProcessing w'' = true ∧
         queue w'' = [] ∧ jobs w'' = [{| id := 2; request := VStr "B" |}].
Proof.
  intros w w'.
  destruct (proj1 (_scheduleNextProcess_spec w) 50 {| id := 2; request := VStr "B" |} []
              eq_refl eq_refl eq_refl)
    as (H1 & H2 & H3 & H4 & _ & _ & _ & H8 & _ & H10).
  split; [exact H1|]. split; [exact H2|]. split; [exact H3|]. split; [exact H4|].
  split; [exact H8|]. apply H10. by split.
Defined.

(** C8.  When an observer throws [x] during a success, timeout or error
    notification, the handler still returns normally: the active entry is
    removed, the exception is logged on the console and goes no further,
    isProcessing is cleared and resume scheduling runs.  (A success is
    notified for the results that pass the check of their structure: the
    call hasOwnProperty('response') returns true.) *)
Theorem observer_failure_contained w x :
  isProcessing w = true →
  (∀ i e active,
     activeRequests w !! i = Some active →
     first_thrown (listeners w Error) (EvError i (requestData active) e) = Some x →
     ∃ w2, _handleError i e w = _scheduleNextProcess w2 ∧
           isProcessing w2 = false ∧
           activeRequests w2 = delete i (activeRequests w) ∧
           emitted w2 = emitted w ++ [EvError i (requestData active) e] ∧
           console w2 = console w ++ [("emit error", x)]) ∧
  (∀ i active,
     activeRequests w !! i = Some active →
     first_thrown (listeners w Timeout) (EvTimeout i (requestData active) timed_out) = Some x →
     ∃ w2, _handleTimeout i w = _scheduleNextProcess w2 ∧
           isProcessing w2 = false ∧
           activeRequests w2 = delete i (activeRequests w) ∧
           emitted w2 = emitted w ++ [EvTimeout i (requestData active) timed_out] ∧
           console w2 = console w ++ [("emit timeout", x)]) ∧
  (∀ currentResp i active,
     get_prop currentResp "id" = Some (VNum i) →
     activeRequests w !! i = Some active →
     hasOwnProperty currentResp "response" = Some true →
     first_thrown (listeners w Success) (EvSuccess currentResp) = Some x →
     ∃ w2, _handleResponse currentResp w = Returned (_scheduleNextProcess w2) ∧
           isProcessing w2 = false ∧
           activeRequests w2 = delete i (activeRequests w) ∧
           emitted w2 = emitted w ++ [EvSuccess currentResp] ∧
           console w2 = console w ++ [("emit success", x)]).
Proof.
  intros Hp. split; [|split].
  - intros i e active Hl Hx. unfold _handleError. rewrite Hl.
    eexists. split; [reflexivity|].
    edestruct (try_emit_Notified Error) as [H1 H2 _ _ H3 H4 _ _]; [|split; [exact H1|]].
    { simpl. exact Hp. }
    rewrite H2, H3, H4, (first_thrown_emit_thrown _ _ _ x) by exact Hx. done.
  - intros i active Hl Hx. unfold _handleTimeout. rewrite Hl.
    eexists. split; [reflexivity|].
    edestruct (try_emit_Notified Timeout) as [H1 H2 _ _ H3 H4 _ _]; [|split; [exact H1|]].
    { simpl. exact Hp. }
    rewrite H2, H3, H4, (first_thrown_emit_thrown _ _ _ x) by exact Hx. done.
  - intros currentResp i active Hid Hl Hr Hx. unfold _handleResponse.
    rewrite Hid. change (map_get (VNum i) (activeRequests w)) with (activeRequests w !! i).
    rewrite Hl, (structure_check _ _ Hid), Hr.
    eexists. split; [reflexivity|].
    edestruct (try_emit_Notified Success) as [H1 H2 _ _ H3 H4 _ _]; [|split; [exact H1|]].
    { simpl. exact Hp. }
    rewrite H2, H3, H4, (first_thrown_emit_thrown _ _ _ x) by exact Hx. done.
Qed.

(** C8 for a rejection of request 1 while [thrower] listens to 'error', and
    for its result while [thrower] listens to 'success'. *)
Lemma observer_failure_contained_witness :
  (∃ w2, _handleError 1 (VStr "network down") observed = _scheduleNextProcess w2 ∧
         isProcessing w2 = false ∧
         activeRequests w2 = delete 1 (activeRequests observed) ∧
         emitted w2 = emitted observed ++ [EvError 1 (VStr "A") (VStr "network down")] ∧
         console w2 = console observed ++ [("emit error", VStr "boom")]) ∧
  (∃ w2, _handleResponse (ok_response 1) observed_success
         = Returned (_scheduleNextProcess w2) ∧
         isProcessing w2 = false ∧
         activeRequests w2 = delete 1 (activeRequests observed_success) ∧
         emitted w2 = emitted observed_success ++ [EvSuccess (ok_response 1)] ∧
         console w2 = console observed_success ++ [("emit success", VStr "boom")]).
Proof.
  split.
  - apply (proj1 (observer_failure_contained observed (VStr "boom") eq_refl)
             1 (VStr "network down") {| timer := 0; requestData := VStr "A" |});
      vm_compute; reflexivity.
  - apply (proj2 (proj2 (observer_failure_contained observed_success (VStr "boom") eq_refl))
             (ok_response 1) 1 {| timer := 0; requestData := VStr "A" |});
      vm_compute; reflexivity.
Defined.

(** The request that [thrower] added before throwing is admitted by the
    resume scheduling. *)
Example observer_failure_runs :
  (λ w, (emitted w, console w, isProcessing w, jobs w, getActiveCount w))
    (_handleError 1 (VStr "network down") observed)
  = ([EvError 1 (VStr "A") (VStr "network down")], [("emit error", VStr "boom")],
     true, [{| id := 2; request := VStr "again" |}], 1%nat).
Proof. vm_compute. reflexivity. Qed.

(** C9.  When sendingDelay is absent or 0 (or negative), the class of
    src/request-queue.js and its earlier copy in src/unnamed/part_000 behave
    alike: the same inputs are possible, and after them the two states agree
    field by field, hence on the ids assigned, the transport invocations,
    the notifications, the console output and on getQueueSize and
    getActiveCount. *)
Theorem legacy_equivalence mx td sd tr :
  sd = None ∨ (∃ d, sd = Some d ∧ d ≤ 0) →
  match run tr (constructor mx td sd), Legacy.run tr (Legacy.constructor mx td) with
  | Some w, Some l =>
      w = of_legacy sd l ∧
      enqueued w = Legacy.enqueued l ∧
      sent w = Legacy.sent l ∧
      emitted w = Legacy.emitted l ∧
      console w = Legacy.console l ∧
      getQueueSize w = Legacy.getQueueSize l ∧
      getActiveCount w = Legacy.getActiveCount l
  | None, None => True
  | _, _ => False
  end.
Proof.
  intros Hsd. apply positive_delay_None in Hsd.
  change (constructor mx td sd) with (of_legacy sd (Legacy.constructor mx td)).
  rewrite (run_of_legacy sd tr _ Hsd).
  destruct (Legacy.run tr (Legacy.constructor mx td)) as [l|]; simpl; done.
Qed.

(** C9 for the scenario of the specification, with sendingDelay = 0. *)
Lemma legacy_equivalence_witness :
  match run scenario (constructor 2 100 (Some 0)),
        Legacy.run scenario (Legacy.constructor 2 100) with
  | Some w, Some l =>
      w = of_legacy (Some 0) l ∧
      enqueued w = Legacy.enqueued l ∧
      sent w = Legacy.sent l ∧
      emitted w = Legacy.emitted l ∧
      console w = Legacy.console l ∧
      getQueueSize w = Legacy.getQueueSize l ∧
      getActiveCount w = Legacy.getActiveCount l
  | None, None => True
  | _, _ => False
  end.
Proof.
  apply (legacy_equivalence 2 100 (Some 0) scenario).
  right. exists 0. split; [reflexivity|lia].
Defined.

(** The earlier class on the scenario of the specification. *)
Example legacy_scenario_runs :
  (λ l, (map id (Legacy.enqueued l), Legacy.sent l, Legacy.emitted l))
    <$> Legacy.run scenario (Legacy.constructor 2 100)
  = Some ([1; 2; 0],
          [{| id := 1; request := VStr "A" |}; {| id := 2; request := VStr "B" |};
           {| id := 0; request := VStr "C" |}],
          [EvSuccess (ok_response 1); EvTimeout 2 (VStr "B") timed_out;
           EvSuccess (ok_response 0)]).
Proof. vm_compute. reflexivity. Qed.

(** With a positive delay the two classes differ: after a resolution the
    current class pauses where the earlier one has already admitted the
    next request. *)
Example legacy_differs_with_delay :
  let tr := [InAddRequest (VStr "A"); InAddRequest (VStr "B"); InJob;
             InSettle 0 (Fulfilled (ok_response 1))] in
  (λ w, (isDelaying w, jobs w)) <$> run tr (constructor 2 100 (Some 50))
    = Some (true, []) ∧
  Legacy.jobs <$> Legacy.run tr (Legacy.constructor 2 100)
    = Some [{| id := 2; request := VStr "B" |}].
Proof. vm_compute. done. Qed.

(** C10.  An error notification without any 'error' listener: the emit
    throws, the handler catches and logs it, and the resolution goes on as
    usual: the active entry is removed, isProcessing is cleared and the next
    pending request is scheduled (admitted at once, or after the pause when
    a positive sendingDelay is set). *)
Theorem unhandled_error_event_contained w i e active :
  listeners w Error = [] →
  activeRequests w !! i = Some active →
  let ev := EvError i (requestData active) e in
  let w2 :=
    set_isProcessing false
      (console_log "emit error" ERR_UNHANDLED_ERROR
         (set_emitted (emitted w ++ [ev])
            (set_activeRequests (delete i (activeRequests w))
               (clearTimeout (timer active) w)))) in
  let w' := _handleError i e w in
  w' = _scheduleNextProcess w2 ∧
  activeRequests w2 !! i = None ∧
  isProcessing w2 = false ∧
  emitted w' = emitted w ++ [ev] ∧
  console w' = console w ++ [("emit error", ERR_UNHANDLED_ERROR)] ∧
  (Phase w → ∀ currentReq rest, queue w = currentReq :: rest →
     match positive_delay (sendingDelay w) with
     | None =>
         isProcessing w' = true ∧ queue w' = rest ∧ jobs w' = jobs w ++ [currentReq] ∧
         activeRequests w' = {[ id currentReq := {| timer := nextHandle w;
                                                    requestData := request currentReq |} ]}
     | Some d =>
         isProcessing w' = false ∧ isDelaying w' = true ∧ queue w' = queue w ∧
         timers w' = [{| handle := nextHandle w; delay := d; callback := OnDelayElapsed |}]
     end).
Proof.
  intros Hls Hl ev w2 w'.
  assert (w' = _scheduleNextProcess w2) as Hw'.
  { subst w' w2 ev. unfold _handleError. rewrite Hl. cbv zeta.
    unfold try_emit, emit. cbv zeta.
    change (listeners (set_emitted _ _) Error) with (listeners w Error).
    by rewrite Hls. }
  split; [done|]. split; [apply lookup_delete_eq|]. split; [done|].
  split; [by rewrite Hw', _scheduleNextProcess_emitted|].
  split.
  { rewrite Hw'. unfold _scheduleNextProcess. case_bool_decide; [done|].
    destruct (positive_delay (sendingDelay w2)); [done|]. by rewrite _tryProcessNext_console. }
  intros HP currentReq rest Hq.
  assert (Resolved w2) as Hr2.
  { pose proof (clearTimeout_active_Resolving _ _ _ HP Hl) as [_ Hd Ha Ht].
    split; simpl; done. }
  rewrite Hw'. exact (_scheduleNextProcess_next w2 currentReq rest Hr2 Hq).
Qed.

(** Request A in flight, B waiting, nobody listening. *)
Lemma unhandled_error_event_contained_witness :
  let w := default in_flight (run [InJob] in_flight) in
  let ev := EvError 1 (VStr "A") (VStr "network down") in
  let w' := _handleError 1 (VStr "network down") w in
  emitted w' = emitted w ++ [ev] ∧
  console w' = console w ++ [("emit error", ERR_UNHANDLED_ERROR)] ∧
  isProcessing w' = true ∧ queue w' = [] ∧
  jobs w' = [{| id := 2; request := VStr "B" |}].
Proof.
  intros w ev w'.
  destruct (unhandled_error_event_contained w 1 (VStr "network down")
              {| timer := 0; requestData := VStr "A" |} eq_refl eq_refl)
    as (_ & _ & _ & He & Hc & Hnext).
  split; [exact He|]. split; [exact Hc|].
  assert (Phase w) as HP.
  { apply (inv_phase w), (reachable_Inv 2 100 None).
    exists [InAddRequest (VStr "A"); InAddRequest (VStr "B"); InJob]. vm_compute. reflexivity. }
  destruct (Hnext HP {| id := 2; request := VStr "B" |} [] eq_refl) as (H1 & H2 & H3 & _).
  split; [exact H1|]. split; [exact H2|exact H3].
Defined.

(* ===================================================================== *)
(* Part IV.  Further properties of the code                               *)
(* ===================================================================== *)

(** X1.  getActiveCount is 1 while a request is in flight and 0 otherwise;
    a dispatcher that is neither processing nor pausing has an empty queue;
    a pausing dispatcher is not processing, has a request waiting and was
    built with a positive sendingDelay. *)
Theorem introspection mx td sd w :
  reachable mx td sd w →
  getActiveCount w = (if isProcessing w then 1 else 0)%nat ∧
  (isProcessing w = false → isDelaying w = false → getQueueSize w = 0%nat) ∧
  (isDelaying w = true →
   isProcessing w = false ∧ (0 < getQueueSize w)%nat ∧ ∃ d, sendingDelay w = Some d ∧ 0 < d).
Proof.
  intros Hr. pose proof (reachable_Inv _ _ _ _ Hr) as [HP _ _].
  unfold getActiveCount, getQueueSize.
  destruct HP as [Hp Hd Ha Ht Hq|i a Hp Hd Ha Ht|h d Hp Hd Ha Ht Hsd Hq];
    rewrite Hp, Hd, Ha.
  - rewrite map_size_empty, Hq. done.
  - rewrite map_size_singleton. done.
  - rewrite map_size_empty. split; [done|]. split; [done|]. intros _.
    split; [done|]. split.
    + destruct (queue w); [done|simpl; lia].
    + exists d. by apply positive_delay_Some.
Qed.

(** X1 at the state with A in flight and B waiting. *)
Lemma introspection_witness :
  getActiveCount in_flight = (if isProcessing in_flight then 1 else 0)%nat ∧
  (isProcessing in_flight = false → isDelaying in_flight = false →
   getQueueSize in_flight = 0%nat) ∧
  (isDelaying in_flight = true →
   isProcessing in_flight = false ∧ (0 < getQueueSize in_flight)%nat ∧
   ∃ d, sendingDelay in_flight = Some d ∧ 0 < d).
Proof. apply (introspection 2 100 None in_flight), in_flight_reachable. Defined.

(** X2.  Every envelope built by addRequest is accounted for: the number of
    addRequest calls is the number of notifications emitted, plus the request
    in flight, plus the requests waiting.  The transport has been handed at
    most one request more than have been resolved. *)
Theorem accounting mx td sd w :
  reachable mx td sd w →
  length (enqueued w) = (length (emitted w) + getActiveCount w + getQueueSize w)%nat ∧
  (length (sent w) ≤ length (emitted w) + 1)%nat.
Proof.
  intros Hr. pose proof (reachable_Inv _ _ _ _ Hr) as [HP [Hf _ _] HC].
  unfold getActiveCount, getQueueSize, Counted, sent in *.
  rewrite <- Hf, !length_app, length_map.
  assert (size (activeRequests w) = if isProcessing w then 1 else 0)%nat as ->.
  { destruct HP as [Hp Hd Ha Ht Hq|i a Hp Hd Ha Ht|h d Hp Hd Ha Ht Hsd Hq]; rewrite Hp, Ha.
    - apply map_size_empty.
    - apply map_size_singleton.
    - apply map_size_empty. }
  destruct (isProcessing w); lia.
Qed.

(** X2 after the scenario of the specification. *)
Lemma accounting_witness :
  let w := default (constructor 2 100 None) (run scenario (constructor 2 100 None)) in
  length (enqueued w) = (length (emitted w) + getActiveCount w + getQueueSize w)%nat ∧
  (length (sent w) ≤ length (emitted w) + 1)%nat.
Proof.
  apply (accounting 2 100 None). exists scenario. vm_compute. reflexivity.
Defined.

(** X3.  Notifications come in the order of the addRequest calls, one per
    request: the j-th notification carries the id of the j-th envelope, and
    for a timeout or an error its payload; the entry in flight holds the
    payload of the first envelope not notified yet. *)
Theorem notifications_in_order mx td sd w :
  reachable mx td sd w →
  (∀ (j : nat) ev, emitted w !! j = Some ev →
     ∃ item, enqueued w !! j = Some item ∧ resolves ev item) ∧
  (∀ i a, activeRequests w !! i = Some a →
     enqueued w !! length (emitted w) = Some {| id := i; request := requestData a |}).
Proof. intros Hr. by destruct (reachable_Matched _ _ _ _ Hr). Qed.

(** X3 after the scenario of the specification. *)
Lemma notifications_in_order_witness :
  let w := default (constructor 2 100 None) (run scenario (constructor 2 100 None)) in
  (∀ (j : nat) ev, emitted w !! j = Some ev →
     ∃ item, enqueued w !! j = Some item ∧ resolves ev item) ∧
  (∀ i a, activeRequests w !! i = Some a →
     enqueued w !! length (emitted w) = Some {| id := i; request := requestData a |}).
Proof.
  apply (notifications_in_order 2 100 None). exists scenario. vm_compute. reflexivity.
Defined.

(** X4.  At most one timer is armed: none while the dispatcher is idle, the
    timeout timer of the request in flight (of timeoutDuration, bound to its
    id) while it is processing, the timer of the pause (of sendingDelay)
    while it is pausing. *)
Theorem timer_discipline mx td sd w :
  reachable mx td sd w →
  match timers w with
  | [] => isProcessing w = false ∧ isDelaying w = false
  | [t] =>
      (∃ i a, isProcessing w = true ∧ activeRequests w !! i = Some a ∧
              t = {| handle := timer a; delay := timeoutDuration w;
                     callback := OnTimeout i |}) ∨
      (isDelaying w = true ∧ callback t = OnDelayElapsed ∧
       sendingDelay w = Some (delay t) ∧ 0 < delay t)
  | _ => False
  end.
Proof.
  intros Hr. pose proof (reachable_Inv _ _ _ _ Hr) as [HP _ _].
  destruct HP as [Hp Hd Ha Ht Hq|i a Hp Hd Ha Ht|h d Hp Hd Ha Ht Hsd Hq]; rewrite Ht.
  - done.
  - left. exists i, a. split; [done|]. split; [|done]. by rewrite Ha, lookup_singleton_eq.
  - right. simpl. split; [done|]. split; [done|]. by apply positive_delay_Some.
Qed.

(** X4 at the state that waits for the pause to end. *)
Lemma timer_discipline_witness :
  match timers pausing with
  | [] => isProcessing pausing = false ∧ isDelaying pausing = false
  | [t] =>
      (∃ i a, isProcessing pausing = true ∧ activeRequests pausing !! i = Some a ∧
              t = {| handle := timer a; delay := timeoutDuration pausing;
                     callback := OnTimeout i |}) ∨
      (isDelaying pausing = true ∧ callback t = OnDelayElapsed ∧
       sendingDelay pausing = Some (delay t) ∧ 0 < delay t)
  | _ => False
  end.
Proof.
  apply (timer_discipline 2 100 (Some 50)).
  exists [InAddRequest (VStr "A"); InAddRequest (VStr "B"); InJob;
          InSettle 0 (Fulfilled (ok_response 1))].
  vm_compute. reflexivity.
Defined.

(** X5.  A waiting request is never stuck: whenever the queue is not empty,
    a timer is armed, and its firing either resolves the request in flight
    (one timeout notification) or ends the pause and admits the head of the
    queue. *)
Theorem waiting_request_progress mx td sd w :
  reachable mx td sd w → queue w ≠ [] →
  ∃ h w', fire h w = Some w' ∧
          ((∃ i a, activeRequests w !! i = Some a ∧
                   emitted w' = emitted w ++ [EvTimeout i (requestData a) timed_out]) ∨
           (emitted w' = emitted w ∧
            ∃ q rest, queue w = q :: rest ∧ queue w' = rest ∧ jobs w' = jobs w ++ [q] ∧
                      isProcessing w' = true ∧ isDelaying w' = false)).
Proof.
  intros Hr Hne. pose proof (reachable_Inv _ _ _ _ Hr) as [HP _ _].
  assert (∃ h, is_Some (fire h w)) as (h & w' & Hf).
  { unfold fire.
    destruct HP as [Hp Hd Ha Ht Hq|i a Hp Hd Ha Ht|h d Hp Hd Ha Ht Hsd Hq]; [done|..].
    - exists (timer a). rewrite Ht. simpl. by rewrite Nat.eqb_refl.
    - exists h. rewrite Ht. simpl. by rewrite Nat.eqb_refl. }
  exists h, w'. split; [done|].
  destruct (fire_resolution _ _ _ HP Hf)
    as [(d & Hd & Ht & -> & Hres & _)|(i & a & w2 & Hl & -> & -> & Hres)].
  - right. split; [by rewrite _tryProcessNext_emitted|].
    destruct (queue w) as [|q rest] eqn:Hq; [done|]. exists q, rest. split; [done|].
    destruct Hres as [Hp' Hd' _ _].
    by rewrite (_tryProcessNext_admission _ q rest Hp' Hd').
  - left. exists i, a. split; [done|].
    by rewrite _scheduleNextProcess_emitted, (resolution_emitted _ _ _ _ _ Hres).
Qed.

(** X5 at the state with A in flight and B waiting. *)
Lemma waiting_request_progress_witness :
  ∃ h w', fire h in_flight = Some w' ∧
          ((∃ i a, activeRequests in_flight !! i = Some a ∧
                   emitted w' = emitted in_flight ++ [EvTimeout i (requestData a) timed_out]) ∨
           (emitted w' = emitted in_flight ∧
            ∃ q rest, queue in_flight = q :: rest ∧ queue w' = rest ∧
                      jobs w' = jobs in_flight ++ [q] ∧
                      isProcessing w' = true ∧ isDelaying w' = false)).
Proof.
  apply (waiting_request_progress 2 100 None in_flight in_flight_reachable).
  vm_compute. discriminate.
Defined.

(** X6.  With a positive sendingDelay, the step that resolves a request
    never admits the next one: it ends with nothing in flight, and either
    with an empty queue and no timer, or pausing, with the timer of the
    pause armed for sendingDelay. *)
Theorem resolution_then_pause mx td sd w d inp w' :
  reachable mx td sd w → sendingDelay w = Some d → 0 < d →
  step inp w = Some w' → emitted w' ≠ emitted w →
  jobs w' = jobs w ∧ isProcessing w' = false ∧ activeRequests w' = ∅ ∧
  ((queue w' = [] ∧ isDelaying w' = false ∧ timers w' = []) ∨
   (queue w' ≠ [] ∧ isDelaying w' = true ∧
    timers w' = [{| handle := nextHandle w; delay := d; callback := OnDelayElapsed |}])).
Proof.
  intros Hr Hsd Hd Hs Hne. pose proof (reachable_Inv _ _ _ _ Hr) as [HP _ _].
  destruct (step_resolution _ _ _ HP Hs) as [He|(i & a & ev & w2 & Hl & -> & Hres & _)]; [done|].
  destruct Hres as [[Hp2 Hd2 Ha2 Ht2] _ _ Hj _ _ Hn Hsd2 _].
  assert (positive_delay (sendingDelay w2) = Some d) as Hpd.
  { apply positive_delay_Some. by rewrite Hsd2. }
  unfold _scheduleNextProcess. destruct (queue w2) as [|q rest] eqn:Hq; simpl.
  - repeat (split; [done|]). left. by rewrite Hq.
  - rewrite Hpd. simpl. repeat (split; [done|]). right. rewrite Hq, Ht2, Hn. done.
Qed.

(** X6 for the answer to A, with B waiting and sendingDelay = 50. *)
Lemma resolution_then_pause_witness :
  let w := default (constructor 2 100 (Some 50))
             (run [InAddRequest (VStr "A"); InAddRequest (VStr "B"); InJob]
                (constructor 2 100 (Some 50))) in
  jobs pausing = jobs w ∧ isProcessing pausing = false ∧ activeRequests pausing = ∅ ∧
  ((queue pausing = [] ∧ isDelaying pausing = false ∧ timers pausing = []) ∨
   (queue pausing ≠ [] ∧ isDelaying pausing = true ∧
    timers pausing = [{| handle := nextHandle w; delay := 50; callback := OnDelayElapsed |}])).
Proof.
  intros w.
  apply (resolution_then_pause 2 100 (Some 50) w 50 (InSettle 0 (Fulfilled (ok_response 1)))).
  - exists [InAddRequest (VStr "A"); InAddRequest (VStr "B"); InJob]. vm_compute. reflexivity.
  - vm_compute. reflexivity.
  - lia.
  - vm_compute. reflexivity.
  - vm_compute. discriminate.
Defined.

(** X7.  Without a positive sendingDelay the dispatcher never pauses, and
    resuming is part of the resolution: the step that resolves a request
    while another one waits ends with the head of the queue admitted, its
    entry active and its transport call queued. *)
Theorem resolution_then_admission mx td sd w :
  reachable mx td sd w →
  sendingDelay w = None ∨ (∃ d, sendingDelay w = Some d ∧ d ≤ 0) →
  isDelaying w = false ∧
  ∀ inp w' q rest,
    step inp w = Some w' → emitted w' ≠ emitted w → queue w = q :: rest →
    isProcessing w' = true ∧ jobs w' = jobs w ++ [q] ∧
    activeRequests w' = {[ id q := {| timer := nextHandle w; requestData := request q |} ]} ∧
    timers w' = [{| handle := nextHandle w; delay := timeoutDuration w;
                    callback := OnTimeout (id q) |}].
Proof.
  intros Hr Hsd. apply positive_delay_None in Hsd.
  pose proof (reachable_Inv _ _ _ _ Hr) as [HP _ _]. split.
  { destruct HP as [Hp Hd Ha Ht Hq|i a Hp Hd Ha Ht|h d Hp Hd Ha Ht Hsd' Hq]; congruence. }
  intros inp w' q rest Hs Hne Hq.
  destruct (step_resolution _ _ _ HP Hs) as [He|(i & a & ev & w2 & Hl & -> & Hres & _)]; [done|].
  destruct Hres as [[Hp2 Hd2 Ha2 Ht2] _ _ Hj _ (items & Hq2 & _) Hn Hsd2 Htd].
  rewrite Hq in Hq2. simpl in Hq2.
  unfold _scheduleNextProcess. rewrite Hq2, Hsd2, Hsd. simpl.
  rewrite (_tryProcessNext_admission _ _ _ Hp2 Hd2 Hq2). simpl.
  rewrite Ha2, Ht2, Hj, Hn, Htd. done.
Qed.

(** X7 at the state with A in flight and B waiting, for the timeout of A. *)
Lemma resolution_then_admission_witness :
  let w' := default in_flight (step (InFire 0) in_flight) in
  let q := {| id := 2; request := VStr "B" |} in
  isProcessing w' = true ∧ jobs w' = jobs in_flight ++ [q] ∧
  activeRequests w'
  = {[ id q := {| timer := nextHandle in_flight; requestData := request q |} ]} ∧
  timers w' = [{| handle := nextHandle in_flight; delay := timeoutDuration in_flight;
                  callback := OnTimeout (id q) |}].
Proof.
  intros w' q.
  apply (proj2 (resolution_then_admission 2 100 None in_flight in_flight_reachable
                  (or_introl eq_refl)) (InFire 0) w' q []).
  - vm_compute. reflexivity.
  - vm_compute. discriminate.
  - vm_compute. reflexivity.
Defined.

(** X8.  One step emits at most one notification, and which one depends on
    the input: addRequest, on, removeAllListeners and the start of a
    transport call emit nothing; a timer emits at most a timeout; a result
    emits the success with that very result, which then has the id and
    response properties, or the error that _handleResponse threw on it
    (reading its id, calling its hasOwnProperty, or for the missing
    response); a rejection emits an error with its reason unchanged. *)
Theorem step_notifies mx td sd w inp w' :
  reachable mx td sd w → step inp w = Some w' →
  emitted w' = emitted w ∨ ∃ ev, emitted w' = emitted w ++ [ev] ∧ notifies inp ev.
Proof.
  intros Hr Hs. pose proof (reachable_Inv _ _ _ _ Hr) as [HP _ _].
  destruct (step_resolution _ _ _ HP Hs) as [He|(i & a & ev & w2 & Hl & -> & Hres & Hn)];
    [by left|].
  right. exists ev. split; [|done].
  by rewrite _scheduleNextProcess_emitted, (resolution_emitted _ _ _ _ _ Hres).
Qed.

(** X8 for a result of request A that has a property called
    hasOwnProperty: the notification is the error of the call. *)
Lemma step_notifies_witness :
  let inp := InSettle 0 (Fulfilled shadowed_response) in
  let w' := default awaiting (step inp awaiting) in
  emitted w' = emitted awaiting ∨
  ∃ ev, emitted w' = emitted awaiting ++ [ev] ∧ notifies inp ev.
Proof.
  intros inp w'. apply (step_notifies 2 100 None awaiting inp w').
  - exists [InOn Error quiet; InAddRequest (VStr "A"); InJob]. vm_compute. reflexivity.
  - vm_compute. reflexivity.
Defined.

(** That result gives no success: the one notification is an error with the
    TypeError of the call, and the request is resolved as failed. *)
Example shadowed_result_runs :
  hasOwnProperty shadowed_response "id" = None ∧
  (λ w, (emitted w, isProcessing w, getActiveCount w, console w))
    <$> step (InSettle 0 (Fulfilled shadowed_response)) awaiting
  = Some ([EvError 1 (VStr "A") not_a_function], false, 0%nat, []).
Proof. vm_compute. done. Qed.

(** X9.  With maxId = N ≥ 0 every id lies in [0, N], and two envelopes get
    the same id exactly when their positions in the order of the addRequest
    calls are congruent modulo N + 1: any N + 1 consecutive requests have
    distinct ids, and the id comes back after N + 1 calls. *)
Theorem id_reuse N td sd w (j k : nat) item_j item_k :
  0 ≤ N → reachable N td sd w →
  enqueued w !! j = Some item_j → enqueued w !! k = Some item_k →
  0 ≤ id item_j ≤ N ∧
  (id item_j = id item_k ↔ Z.of_nat j mod (N + 1) = Z.of_nat k mod (N + 1)).
Proof.
  intros HN Hr Hj Hk. pose proof (reachable_Inv _ _ _ _ Hr) as [_ [_ _ Hi] _].
  destruct Hr as [tr Hr]. apply run_config in Hr as (Hmx & _ & _). simpl in Hmx.
  rewrite Hmx in Hi. rewrite (Hi HN j item_j Hj), (Hi HN k item_k Hk).
  replace (Z.of_nat (S j)) with (Z.of_nat j + 1) by lia.
  replace (Z.of_nat (S k)) with (Z.of_nat k + 1) by lia.
  split.
  - pose proof (Z.mod_pos_bound (Z.of_nat j + 1) (N + 1) ltac:(lia)). lia.
  - apply mod_succ_inj. lia.
Qed.

(** X9 for the first and the third envelope of the scenario, maxId = 2. *)
Lemma id_reuse_witness :
  let w := default (constructor 2 100 None) (run scenario (constructor 2 100 None)) in
  0 ≤ 1 ≤ 2 ∧ (1 = 0 ↔ Z.of_nat 0 mod (2 + 1) = Z.of_nat 2 mod (2 + 1)).
Proof.
  intros w.
  apply (id_reuse 2 100 None w 0 2 {| id := 1; request := VStr "A" |}
           {| id := 0; request := VStr "C" |}).
  - lia.
  - exists scenario. vm_compute. reflexivity.
  - vm_compute. reflexivity.
  - vm_compute. reflexivity.
Defined.

(** X10.  The earlier copy of the class keeps the same invariants: at most
    one request in flight, counted by getActiveCount; an empty queue whenever
    nothing is in flight; the envelopes handed to the transport in the order
    of the addRequest calls; every envelope notified, in flight or waiting;
    the counter in [0, maxId]. *)
Theorem legacy_invariants mx td tr l :
  Legacy.run tr (Legacy.constructor mx td) = Some l →
  Legacy.getActiveCount l = (if Legacy.isProcessing l then 1 else 0)%nat ∧
  (Legacy.isProcessing l = false → Legacy.getQueueSize l = 0%nat) ∧
  Legacy.enqueued l = Legacy.sent l ++ Legacy.jobs l ++ Legacy.queue l ∧
  length (Legacy.enqueued l)
  = (length (Legacy.emitted l) + Legacy.getActiveCount l + Legacy.getQueueSize l)%nat ∧
  (0 ≤ mx → 0 ≤ Legacy.requestCounter l ≤ mx).
Proof.
  intros Hl.
  assert (run tr (constructor mx td None) = Some (of_legacy None l)) as Hr.
  { change (constructor mx td None) with (of_legacy None (Legacy.constructor mx td)).
    by rewrite (run_of_legacy None tr _ eq_refl), Hl. }
  pose proof (run_Inv _ _ _ (constructor_Inv mx td None) Hr) as [HP [Hf Hc _] HC].
  destruct (run_config _ _ _ Hr) as (Hmx & _ & _). simpl in Hmx.
  unfold Legacy.getActiveCount, Legacy.getQueueSize, Legacy.sent.
  unfold sent, Counted in *. simpl in *.
  assert (size (Legacy.activeRequests l) = (if Legacy.isProcessing l then 1 else 0)%nat
          ∧ (Legacy.isProcessing l = false → Legacy.queue l = [])) as [Hsize Hidle].
  { destruct HP as [Hp Hd Ha Ht Hq|i a Hp Hd Ha Ht|h d Hp Hd Ha Ht Hsd Hq]; simpl in *.
    - rewrite Hp, Ha, map_size_empty. done.
    - rewrite Hp, Ha, map_size_singleton. done.
    - done. }
  split; [done|]. split; [by intros ->%Hidle|]. split; [done|]. split.
  - rewrite <- Hf, !length_app, length_map, Hsize. destruct (Legacy.isProcessing l); lia.
  - intros Hmax. rewrite Hc by lia. rewrite Hmx.
    pose proof (Z.mod_pos_bound (Z.of_nat (length (Legacy.enqueued l))) (mx + 1) ltac:(lia)).
    lia.
Qed.

(** X10 after the scenario of the specification. *)
Lemma legacy_invariants_witness :
  let l := default (Legacy.constructor 2 100) (Legacy.run scenario (Legacy.constructor 2 100)) in
  Legacy.getActiveCount l = (if Legacy.isProcessing l then 1 else 0)%nat ∧
  (Legacy.isProcessing l = false → Legacy.getQueueSize l = 0%nat) ∧
  Legacy.enqueued l = Legacy.sent l ++ Legacy.jobs l ++ Legacy.queue l ∧
  length (Legacy.enqueued l)
  = (length (Legacy.emitted l) + Legacy.getActiveCount l + Legacy.getQueueSize l)%nat ∧
  (0 ≤ 2 → 0 ≤ Legacy.requestCounter l ≤ 2).
Proof. apply (legacy_invariants 2 100 scenario). vm_compute. reflexivity. Defined.

(** X11.  Timers are one-shot and a cleared timer never fires.  Through any
    step, a timer that was armed either stays armed, with nothing resolved,
    or its handle is dead afterwards: once a request has been resolved by a
    result, a rejection or its timeout, its timeout timer cannot fire, and
    the timer of a pause cannot fire twice. *)
Theorem timers_fire_once mx td sd w inp w' t :
  reachable mx td sd w → step inp w = Some w' → t ∈ timers w →
  (timers w' = timers w ∧ emitted w' = emitted w) ∨ fire (handle t) w' = None.
Proof.
  intros Hr Hs Ht. pose proof (reachable_Inv _ _ _ _ Hr) as [HP _ _].
  pose proof (reachable_Fresh _ _ _ _ Hr t Ht) as Hfresh.
  assert (∀ w2, Resolved w2 → nextHandle w2 = nextHandle w →
                fire (handle t) (_scheduleNextProcess w2) = None) as Hdead.
  { intros w2 Hr2 Hn. unfold fire. rewrite find_handle_None; [done|].
    intros t' Ht'. rewrite (_scheduleNextProcess_Resolved_timers _ _ Hr2 Ht'). lia. }
  destruct inp as [p|kind l|kind| |k o|h]; unfold step in Hs.
  - assert (w' = (addRequest p w).2) as -> by congruence.
    left. split; [|apply addRequest_emitted]. rewrite addRequest_result. cbv zeta.
    change ((?a, ?b).2) with b.
    destruct HP as [Hp Hd Ha Ht' Hq|i a Hp Hd Ha Ht'|h d Hp Hd Ha Ht' Hsd Hq].
    + rewrite Ht' in Ht. by apply elem_of_nil in Ht.
    + by rewrite _tryProcessNext_gated by (simpl; by rewrite Hp).
    + by rewrite _tryProcessNext_gated by (simpl; by rewrite Hp, Hd).
  - injection Hs as <-. by left.
  - injection Hs as <-. by left.
  - unfold run_job in Hs. destruct (jobs w); [done|]. injection Hs as <-. by left.
  - destruct (settle_resolution _ _ _ _ HP Hs)
      as (c & _ & _ & [->|(i & a & ev & w2 & _ & -> & Hres & _)]); [by left|].
    right. apply Hdead; by destruct Hres.
  - destruct (fire_resolution _ _ _ HP Hs)
      as [(d & _ & _ & -> & Hres & _)|(i & a & w2 & _ & _ & -> & Hres)].
    + right. unfold fire. rewrite find_handle_None; [done|].
      intros t' Ht'. rewrite (_tryProcessNext_Resolved_timers _ _ Hres Ht'). simpl. lia.
    + right. apply Hdead; by destruct Hres.
Qed.

(** X11 for the timeout timer of A when the answer to A arrives. *)
Lemma timers_fire_once_witness :
  let t := {| handle := 0; delay := 100; callback := OnTimeout 1 |} in
  let w' := default awaiting (step (InSettle 0 (Fulfilled (ok_response 1))) awaiting) in
  (timers w' = timers awaiting ∧ emitted w' = emitted awaiting) ∨ fire (handle t) w' = None.
Proof.
  intros t w'.
  apply (timers_fire_once 2 100 None awaiting (InSettle 0 (Fulfilled (ok_response 1))) w' t).
  - exists [InOn Error quiet; InAddRequest (VStr "A"); InJob]. vm_compute. reflexivity.
  - vm_compute. reflexivity.
  - vm_compute. by left.
Defined.

(** X12.  A transport that resolves with undefined or null does not lose
    the request: reading the id of such a result throws a TypeError, which
    reaches _handleError through the catch of the chain, so the request of
    that call, if it is still in flight, gets an error notification with the
    TypeError; if it is not, only the call is marked as settled. *)
Theorem unreadable_result_reported w k c r :
  calls w !! k = Some c → settled c = false →
  r = VUndefined ∨ r = VNull →
  let w1 := set_calls (<[k := {| currentReq := currentReq c; settled := true |}]> (calls w)) w in
  (∀ a, activeRequests w !! id (currentReq c) = Some a →
     ∃ w', settle k (Fulfilled r) w = Some w' ∧
           emitted w' = emitted w ++ [EvError (id (currentReq c)) (requestData a) TypeError]) ∧
  (activeRequests w !! id (currentReq c) = None → settle k (Fulfilled r) w = Some w1).
Proof.
  intros Hk Hs Hr w1.
  assert (settle k (Fulfilled r) w = Some (_handleError (id (currentReq c)) TypeError w1)) as ->.
  { unfold settle. rewrite Hk, Hs. cbv zeta. fold w1. by destruct Hr as [-> | ->]. }
  split.
  - intros a Hl. eexists. split; [reflexivity|]. by apply (_handleError_emitted _ _ w1).
  - intros Hn. unfold _handleError. simpl. by rewrite Hn.
Qed.

(** X12 for the result undefined while request A is in flight. *)
Lemma unreadable_result_reported_witness :
  ∃ w', settle 0 (Fulfilled VUndefined) awaiting = Some w' ∧
        emitted w' = emitted awaiting ++ [EvError 1 (VStr "A") TypeError].
Proof.
  apply (proj1 (unreadable_result_reported awaiting 0
                  {| currentReq := {| id := 1; request := VStr "A" |}; settled := false |}
                  VUndefined eq_refl eq_refl (or_introl eq_refl))
           {| timer := 0; requestData := VStr "A" |}).
  vm_compute. reflexivity.
Defined.

(** X13.  A result is matched to the request in flight by its id property
    alone, compared as a Map key: a result that is not an object, an object
    without id, an id that is not a number (the string "1" is not the number
    1), or a number under which nothing is active, is dropped.  Only the call
    is marked as settled; the request in flight stays, with its timer. *)
Theorem foreign_result_ignored w k c r :
  calls w !! k = Some c → settled c = false →
  match get_prop r "id" with
  | Some (VNum n) => activeRequests w !! n = None
  | Some _ => True
  | None => False
  end →
  settle k (Fulfilled r) w
  = Some (set_calls (<[k := {| currentReq := currentReq c; settled := true |}]> (calls w)) w).
Proof.
  intros Hk Hs Hid. unfold settle. rewrite Hk, Hs. cbv zeta. unfold _handleResponse.
  destruct (get_prop r "id") as [respId|]; [|done].
  destruct respId as [| | |n| | |]; simpl; try done. by rewrite Hid.
Qed.

(** X13 for a result that echoes the id of request A as a string. *)
Lemma foreign_result_ignored_witness :
  let r := VObj [("id", VStr "1"); ("response", VObj [("ok", VBool true)])] in
  settle 0 (Fulfilled r) awaiting
  = Some (set_calls [{| currentReq := {| id := 1; request := VStr "A" |}; settled := true |}]
            awaiting).
Proof.
  intros r.
  apply (foreign_result_ignored awaiting 0
           {| currentReq := {| id := 1; request := VStr "A" |}; settled := false |} r);
    vm_compute; reflexivity.
Defined.

(** X14.  The transport of the demo fits the dispatcher.  For the request
    of a call that is still in flight, its success value carries the id of
    that request and a response, so it is accepted and emitted as the
    success; its failure is emitted as an error with the payload of the
    request; and when it settles neither way, both comparisons on the random
    number have failed and only the timeout is left. *)
Theorem mock_transport_outcomes w k c a lt06 lt08 :
  calls w !! k = Some c → settled c = false →
  activeRequests w !! id (currentReq c) = Some a →
  match mockSendRequest lt06 lt08 (currentReq c) with
  | Some o =>
      ∃ w', settle k o w = Some w' ∧
            emitted w' = emitted w ++
              [match o with
               | Fulfilled r => EvSuccess r
               | Rejected e => EvError (id (currentReq c)) (requestData a) e
               end] ∧
            match o with
            | Fulfilled r =>
                lt06 = true ∧ get_prop r "id" = Some (VNum (id (currentReq c))) ∧
                get_prop r "response" = Some (VObj [("data", VStr "Success")])
            | Rejected e =>
                lt06 = false ∧ lt08 = true ∧
                e = VError (String.append "Failed to send request "
                              (pretty (id (currentReq c))))
            end
  | None => lt06 = false ∧ lt08 = false
  end.
Proof.
  intros Hk Hs Hl. unfold mockSendRequest. destruct lt06; [|destruct lt08; [|done]].
  - set (r := VObj _).
    destruct (_handleResponse_emitted r
                (set_calls (<[k := {| currentReq := currentReq c; settled := true |}]> (calls w)) w)
                (id (currentReq c)) a) as (w' & Hw' & He); try done.
    exists w'. split; [|done]. unfold settle. rewrite Hk, Hs. cbv zeta. by rewrite Hw'.
  - eexists. split.
    + unfold settle. rewrite Hk, Hs. cbv zeta. reflexivity.
    + split; [|done]. by apply (_handleError_emitted _ _ (set_calls _ w)).
Qed.

(** X14 for request A in flight and a random number below 0.6. *)
Lemma mock_transport_outcomes_witness :
  let r := VObj [("id", VNum 1); ("response", VObj [("data", VStr "Success")])] in
  ∃ w', settle 0 (Fulfilled r) awaiting = Some w' ∧
        emitted w' = emitted awaiting ++ [EvSuccess r] ∧
        true = true ∧ get_prop r "id" = Some (VNum 1) ∧
        get_prop r "response" = Some (VObj [("data", VStr "Success")]).
Proof.
  intros r.
  apply (mock_transport_outcomes awaiting 0
           {| currentReq := {| id := 1; request := VStr "A" |}; settled := false |}
           {| timer := 0; requestData := VStr "A" |} true true);
    vm_compute; reflexivity.
Defined.

(** X15.  Calling addRequest from a listener is safe.  During a
    notification isProcessing is still set, so the requests that the
    listeners add are appended to the queue behind those already waiting, in
    the order of the calls, and none is admitted before the notification is
    over: the table, the timers and the transport calls are untouched. *)
Theorem listener_requests_queued kind ev tag w :
  isProcessing w = true →
  let w' := try_emit kind ev tag w in
  ∃ items,
    map request items = reentrant_payloads (listeners w kind) ev ∧
    queue w' = queue w ++ items ∧ enqueued w' = enqueued w ++ items ∧
    jobs w' = jobs w ∧ calls w' = calls w ∧
    activeRequests w' = activeRequests w ∧ timers w' = timers w ∧
    isProcessing w' = true.
Proof.
  intros Hp w'. subst w'.
  pose proof (try_emit_gated kind ev tag w Hp) as Hg.
  destruct (emit_queue kind ev w Hp) as (items & Hm & Hq & He).
  exists items. split; [done|].
  assert (queue (try_emit kind ev tag w) = queue (emit kind ev w).2
          ∧ enqueued (try_emit kind ev tag w) = enqueued (emit kind ev w).2) as [-> ->].
  { unfold try_emit. by destruct (emit kind ev w) as [[e|] w1]. }
  split; [done|]. split; [done|]. destruct Hg. repeat split; congruence.
Qed.

(** X15 for [thrower], which adds one request and throws, while A is in
    flight. *)
Lemma listener_requests_queued_witness :
  let ev := EvError 1 (VStr "A") (VStr "network down") in
  let w' := try_emit Error ev "emit error" observed in
  ∃ items,
    map request items = reentrant_payloads (listeners observed Error) ev ∧
    queue w' = queue observed ++ items ∧ enqueued w' = enqueued observed ++ items ∧
    jobs w' = jobs observed ∧ calls w' = calls observed ∧
    activeRequests w' = activeRequests observed ∧ timers w' = timers observed ∧
    isProcessing w' = true.
Proof.
  intros ev.
  apply (listener_requests_queued Error ev "emit error" observed). vm_compute. reflexivity.
Defined.

(** X16.  A maxId that is not positive, negative values included, switches
    the numbering off: the comparison of the counter with maxId never
    succeeds, the counter stays 0 and every request gets the id 0. *)
Theorem nonpositive_maxId mx td sd w :
  mx ≤ 0 → reachable mx td sd w →
  requestCounter w = 0 ∧ ∀ item, item ∈ enqueued w → id item = 0.
Proof.
  intros Hmx Hr.
  assert (maxId w ≤ 0 →
          requestCounter w = 0 ∧ ∀ item : requestItem, item ∈ enqueued w → id item = 0) as H.
  { apply (reachable_holds
             (λ m c l, m ≤ 0 → c = 0 ∧ ∀ item : requestItem, item ∈ l → id item = 0))
      with (mx := mx) (td := td) (sd := sd); [| |done].
    - intros m c l p IH Hm. destruct (IH Hm) as [-> Hl].
      destruct (Z.ltb_spec 0 m); [lia|].
      split; [done|]. intros item [Hi|Hi]%elem_of_app; [by apply Hl|].
      by apply list_elem_of_singleton in Hi as ->.
    - intros _. split; [done|]. by intros item ?%elem_of_nil. }
  apply H. destruct Hr as [tr Hr]. apply run_config in Hr as (Hm & _). simpl in Hm. lia.
Qed.

(** X16 for maxId = -5 and two requests. *)
Lemma nonpositive_maxId_witness :
  let w := (addRequest (VStr "B") (addRequest (VStr "A") (constructor (-5) 100 None)).2).2 in
  requestCounter w = 0 ∧ ∀ item, item ∈ enqueued w → id item = 0.
Proof.
  apply (nonpositive_maxId (-5) 100 None); [lia|].
  exists [InAddRequest (VStr "A"); InAddRequest (VStr "B")]. vm_compute. reflexivity.
Defined.
